(** * Tape player: backend (server.js) and player UI

    A shallow embedding of the Express backend [server.js] (library scan,
    metadata cache, session store, route handlers) and of the state machine
    of the browser player, with the properties of the specification that
    were checked against them.

    Conventions of the model.
    - JavaScript strings are [string]s read as UTF-8 bytes.  [toLowerCase]
      and [toUpperCase] act on the ASCII letters; [trim] strips the white
      space of ECMAScript, each character in its UTF-8 form.
    - JavaScript numbers are [JsNum]: a finite double is the rational it
      denotes (comparisons of doubles are exact), with the two infinities
      and NaN apart.
    - Everything the program does not own (file system, tag parser, the
      engine's coercion of strings to numbers) is a field of [World]. *)

From Stdlib Require Import Ascii String QArith Qround.
From stdpp Require Import base option list strings pretty gmap.

Local Open Scope string_scope.
Local Set Warnings "-register-all".

(** ** Strings *)

Module Str.

Definition chars (s : string) : list ascii := list_ascii_of_string s.
Definition of_chars (l : list ascii) : string := string_of_list_ascii l.

Definition code (c : ascii) : nat := nat_of_ascii c.

Definition lower_char (c : ascii) : ascii :=
  if (65 <=? code c)%nat && (code c <=? 90)%nat then ascii_of_nat (code c + 32) else c.

Definition upper_char (c : ascii) : ascii :=
  if (97 <=? code c)%nat && (code c <=? 122)%nat then ascii_of_nat (code c - 32) else c.

Fixpoint map_chars (f : ascii -> ascii) (s : string) : string :=
  match s with
  | EmptyString => EmptyString
  | String c r => String (f c) (map_chars f r)
  end.

(** [s.toLowerCase()], [s.toUpperCase()] *)
Definition toLowerCase : string -> string := map_chars lower_char.
Definition toUpperCase : string -> string := map_chars upper_char.

(** [s.replace(/x/g, y)] for a one-character pattern [x]. *)
Definition replace_all (x y : ascii) : string -> string :=
  map_chars (fun c => if Ascii.eqb c x then y else c).

(** White space of [String.prototype.trim] (ECMAScript's WhiteSpace and
    LineTerminator), in the UTF-8 form of the string.  One byte: TAB, LF,
    VT, FF, CR and SPACE. *)
Definition is_space (c : ascii) : bool :=
  ((9 <=? code c)%nat && (code c <=? 13)%nat) || (code c =? 32)%nat.

(** Two bytes: U+00A0 (C2 A0). *)
Definition is_space2 (a b : ascii) : bool :=
  (code a =? 194)%nat && (code b =? 160)%nat.

(** Three bytes: U+1680 (E1 9A 80), U+2000 to U+200A (E2 80 80 to
    E2 80 8A), U+2028, U+2029 and U+202F (E2 80 A8, A9 and AF), U+205F
    (E2 81 9F), U+3000 (E3 80 80) and U+FEFF (EF BB BF). *)
Definition is_space3 (a b c : ascii) : bool :=
  ((code a =? 225)%nat && (code b =? 154)%nat && (code c =? 128)%nat)
  || ((code a =? 226)%nat && (code b =? 128)%nat
      && (((128 <=? code c)%nat && (code c <=? 138)%nat)
          || existsb (Nat.eqb (code c)) [168; 169; 175]%nat))
  || ((code a =? 226)%nat && (code b =? 129)%nat && (code c =? 159)%nat)
  || ((code a =? 227)%nat && (code b =? 128)%nat && (code c =? 128)%nat)
  || ((code a =? 239)%nat && (code b =? 187)%nat && (code c =? 191)%nat).

(** [w] is one white-space character. *)
Definition is_white (w : string) : bool :=
  match w with
  | String a EmptyString => is_space a
  | String a (String b EmptyString) => is_space2 a b
  | String a (String b (String c EmptyString)) => is_space3 a b c
  | _ => false
  end.

Definition rev (s : string) : string := of_chars (List.rev (chars s)).

(** [w] is one white-space character, its bytes read from the last to the
    first when [backwards]. *)
Definition white (backwards : bool) (w : string) : bool :=
  is_white (if backwards then rev w else w).

(** [s] without the white space it begins with. *)
Fixpoint strip (backwards : bool) (s : string) : string :=
  match s with
  | EmptyString => EmptyString
  | String a r =>
      if white backwards (String a EmptyString) then strip backwards r
      else
        match r with
        | EmptyString => s
        | String b r2 =>
            if white backwards (String a (String b EmptyString)) then strip backwards r2
            else
              match r2 with
              | EmptyString => s
              | String c r3 =>
                  if white backwards (String a (String b (String c EmptyString)))
                  then strip backwards r3
                  else s
              end
        end
  end.

Definition trim_start (s : string) : string := strip false s.
Definition trim_end (s : string) : string := rev (strip true (rev s)).

(** [s.trim()] *)
Definition trim (s : string) : string := trim_end (trim_start s).

(** [s.endsWith(suf)] and the removal of a suffix of known length. *)
Definition ends_with (suf s : string) : bool := String.prefix (rev suf) (rev s).

Definition drop_end (n : nat) (s : string) : string :=
  String.substring 0 (String.length s - n) s.

(** Position of the last ["."] of [s], scanning from position [pos]. *)
Fixpoint last_dot_from (pos : nat) (s : string) : option nat :=
  match s with
  | EmptyString => None
  | String c r =>
      match last_dot_from (S pos) r with
      | Some d => Some d
      | None => if Ascii.eqb c "." then Some pos else None
      end
  end.

Definition hex_digit (n : nat) : ascii :=
  ascii_of_nat (if (n <? 10)%nat then 48 + n else 55 + n).

(** Characters that [encodeURIComponent] leaves as they are:
    letters, digits and [- _ . ! ~ * ' ( )]. *)
Definition uri_unreserved (c : ascii) : bool :=
  let n := code c in
  ((65 <=? n)%nat && (n <=? 90)%nat) || ((97 <=? n)%nat && (n <=? 122)%nat)
  || ((48 <=? n)%nat && (n <=? 57)%nat)
  || existsb (Nat.eqb n) [45; 95; 46; 33; 126; 42; 39; 40; 41]%nat.

(** [encodeURIComponent(s)]: every other byte of the UTF-8 form of [s]
    becomes ["%XX"]. *)
Fixpoint encodeURIComponent (s : string) : string :=
  match s with
  | EmptyString => EmptyString
  | String c r =>
      if uri_unreserved c then String c (encodeURIComponent r)
      else String "%" (String (hex_digit (code c / 16))
             (String (hex_digit (code c mod 16)) (encodeURIComponent r)))
  end.

End Str.

(** ** Node's [path] module, on directory entries

    [fs.readdirSync] returns entry names: non-empty, without ["/"], and
    never ["."] or [".."].  The three functions below are Node's POSIX
    [path.extname], [path.basename] and [path.join] on such names (and on a
    normalised directory path for the first argument of [join]). *)

Module Path.

(** [path.extname(p)]: from the last ["."] to the end; empty when there is
    no dot, when the only dot is the first character, and for [".."]. *)
Definition extname (p : string) : string :=
  match Str.last_dot_from 0 p with
  | None => ""
  | Some d =>
      if (d =? 0)%nat || String.eqb p ".." then ""
      else String.substring d (String.length p - d) p
  end.

(** [path.basename(p, ext)]: [p] without the suffix [ext]; a [p] equal to
    [ext] gives the empty string. *)
Definition basename (p ext : string) : string :=
  if (String.length ext =? 0)%nat then p
  else if String.eqb ext p then ""
  else if Str.ends_with ext p then Str.drop_end (String.length ext) p
  else p.

(** [path.join(dir, name)] *)
Definition join (dir name : string) : string := dir ++ "/" ++ name.

End Path.

(** ** JavaScript values *)

Inductive JsNum : Type :=
  | NaN
  | NegInf
  | Fin (q : Q)
  | PosInf.

Inductive JsVal : Type :=
  | JUndefined
  | JNull
  | JBool (b : bool)
  | JNum (n : JsNum)
  | JStr (s : string)
  | JArr (items : list JsVal)
  | JObj (props : list (string * JsVal)).

Definition Qltb (x y : Q) : bool := negb (Qle_bool y x).

(** [a < b] on numbers: false as soon as one side is NaN. *)
Definition num_lt (a b : JsNum) : bool :=
  match a, b with
  | NaN, _ | _, NaN => false
  | NegInf, NegInf => false
  | NegInf, _ => true
  | Fin _, NegInf => false
  | Fin x, Fin y => Qltb x y
  | Fin _, PosInf => true
  | PosInf, _ => false
  end.

Definition num_of_nat (n : nat) : JsNum := Fin (inject_Z (Z.of_nat n)).
Definition num_of_Z (z : Z) : JsNum := Fin (inject_Z z).

(** ToBoolean *)
Definition truthy (v : JsVal) : bool :=
  match v with
  | JUndefined | JNull => false
  | JBool b => b
  | JNum NaN => false
  | JNum (Fin q) => negb (Qeq_bool q 0)
  | JNum _ => true
  | JStr s => negb (String.eqb s "")
  | JArr _ | JObj _ => true
  end.

(** [v !== undefined] *)
Definition is_defined (v : JsVal) : bool :=
  match v with JUndefined => false | _ => true end.

(** A parsed JSON request body; a property that is absent reads as
    [undefined]. *)
Definition prop (body : gmap string JsVal) (k : string) : JsVal :=
  default JUndefined (body !! k).

(** ** The world outside the program *)

Inductive DirResult : Type :=
  | DirMissing                          (* [fs.existsSync] is false *)
  | DirError                            (* [fs.readdirSync] throws *)
  | DirListing (files : list string).

(** [metadata.common] of the tag parser: the three text tags, each possibly
    absent, and whether [picture] holds at least one image. *)
Record Tags : Type := mkTags {
  tag_title : option string;
  tag_artist : option string;
  tag_album : option string;
  tag_picture : bool
}.

(** The world is read as it stands during one request: [parseFile] answers
    the same for the two reads of a file that one scan makes. *)
Record World : Type := mkWorld {
  dirname : string;                     (* [__dirname] *)
  readdir : string -> DirResult;
  statSize : string -> option Z;        (* [None]: [fs.statSync] throws *)
  parseFile : string -> option Tags;    (* [None]: [mm.parseFile] rejects *)
  writeFile : string -> bool;           (* [false]: [fs.writeFileSync] throws *)
  now : string;                         (* [new Date()], as serialised *)
  StringToNumber : string -> JsNum;     (* the engine's ToNumber on strings *)
  ObjectToString : JsVal -> string      (* the engine's ToPrimitive on objects *)
}.

Definition musicFolder (W : World) : string := Path.join (dirname W) "musics".
Definition sideAFolder (W : World) : string := Path.join (musicFolder W) "side a".
Definition sideBFolder (W : World) : string := Path.join (musicFolder W) "side b".
Definition coversFolder (W : World) : string := Path.join (dirname W) "covers".

(** ToNumber *)
Definition ToNumber (W : World) (v : JsVal) : JsNum :=
  match v with
  | JUndefined => NaN
  | JNull => Fin 0
  | JBool b => if b then Fin 1 else Fin 0
  | JNum n => n
  | JStr s => StringToNumber W s
  | JArr _ | JObj _ => StringToNumber W (ObjectToString W v)
  end.

(** [v < n] and [v > n] for a number literal [n]: the comparison is numeric,
    after ToNumber of [v]. *)
Definition js_lt (W : World) (v : JsVal) (n : JsNum) : bool := num_lt (ToNumber W v) n.
Definition js_gt (W : World) (v : JsVal) (n : JsNum) : bool := num_lt n (ToNumber W v).

(** ** Data model of the server *)

Record Track : Type := mkTrack {
  id : string;
  title : string;
  artist : string;
  album : string;
  filename : string;
  url : string;
  albumCover : option string;
  size : Z;
  trackNumber : nat
}.

Record CacheEntry : Type := mkEntry {
  cached_title : string;
  cached_artist : string;
  cached_album : string;
  cached_albumCover : option string
}.

Record Session : Type := mkSession {
  currentSide : JsVal;
  currentTrackId : JsVal;
  currentTime : JsVal;
  volume : JsVal;
  tapeMode : JsVal;
  isPlaying : JsVal
}.

(** What the server does to the outside, in order. *)
Inductive IoEvent : Type :=
  | IoParse (filePath : string)         (* a call of [mm.parseFile] *)
  | IoWriteCover (coverPath : string)   (* a call of [fs.writeFileSync] *)
  | IoConsoleError (what : string).

Record ServerState : Type := mkState {
  userSession : Session;
  metadataCache : gmap string CacheEntry;
  trace : list IoEvent
}.

Definition defaultSession : Session :=
  {| currentSide := JStr "A"; currentTrackId := JNull; currentTime := JNum (Fin 0);
     volume := JNum (Fin 75); tapeMode := JBool true; isPlaying := JBool false |}.

Definition initialState : ServerState :=
  {| userSession := defaultSession; metadataCache := ∅; trace := [] |}.

(** ** A monad for state and exceptions *)

Inductive Result (A : Type) : Type :=
  | Ok (a : A)
  | Thrown.
Arguments Ok {A} a.
Arguments Thrown {A}.

(** [St S A]: a computation over a store [S] that returns an [A] or throws;
    the store survives an exception. *)
Definition St (S A : Type) : Type := S -> Result A * S.

Definition ret {S A} (a : A) : St S A := fun s => (Ok a, s).
Definition throw {S A} : St S A := fun s => (Thrown, s).
Definition bind {S A B} (m : St S A) (k : A -> St S B) : St S B :=
  fun s => match m s with
           | (Ok a, s') => k a s'
           | (Thrown, s') => (Thrown, s')
           end.
Definition try_catch {S A} (m handler : St S A) : St S A :=
  fun s => match m s with
           | (Ok a, s') => (Ok a, s')
           | (Thrown, s') => handler s'
           end.
Definition of_option {S A} (o : option A) : St S A :=
  match o with Some a => ret a | None => throw end.

Definition M : Type -> Type := St ServerState.

Notation "'let*' x ':=' m 'in' k" := (bind m (fun x => k))
  (at level 10, x name, m at level 200, k at level 200, only parsing).
Notation "'run' m 'in' k" := (bind m (fun _ => k))
  (at level 10, m at level 200, k at level 200, only parsing).

Definition emit (e : IoEvent) : M unit :=
  fun s => (Ok tt, {| userSession := userSession s; metadataCache := metadataCache s;
                      trace := trace s ++ [e] |}).
Definition getCache : M (gmap string CacheEntry) := fun s => (Ok (metadataCache s), s).
Definition setCache (c : gmap string CacheEntry) : M unit :=
  fun s => (Ok tt, {| userSession := userSession s; metadataCache := c; trace := trace s |}).
Definition setSession (u : Session) : ServerState -> ServerState :=
  fun s => {| userSession := u; metadataCache := metadataCache s; trace := trace s |}.

(** ** Library scanner *)

Definition audioExtensions : list string := [".mp3"; ".wav"; ".ogg"; ".m4a"; ".flac"].

(** [audioExtensions.includes(path.extname(file).toLowerCase())] *)
Definition is_audio (file : string) : bool :=
  existsb (String.eqb (Str.toLowerCase (Path.extname file))) audioExtensions.

(** The default title of a file (server.js, lines 91-94). *)
Definition default_title (file : string) : string :=
  Str.trim (Str.replace_all "-" " "
    (Str.replace_all "_" " " (Path.basename file (Path.extname file)))).

(** [a || b] on strings, and [if (tag) x = tag] with [x] preset to [b]. *)
Definition str_or (a b : string) : string := if String.eqb a "" then b else a.
Definition tag_or (tag : option string) (b : string) : string :=
  match tag with Some a => str_or a b | None => b end.

Definition trackIdOf (side : string) (index : nat) : string :=
  side ++ "-" ++ pretty index.

(** [extractAlbumCover]: a second parse of the file; the first picture, when
    there is one, is written to the covers folder.  Every failure inside is
    caught, logged and answered by [null]. *)
Definition extractAlbumCover (W : World) (filePath trackId : string) : M (option string) :=
  try_catch
    (run emit (IoParse filePath) in
     let* metadata := of_option (parseFile W filePath) in
     if tag_picture metadata then
       let coverPath := Path.join (coversFolder W) (trackId ++ ".jpg") in
       run emit (IoWriteCover coverPath) in
       (if writeFile W coverPath then ret (Some ("/covers/" ++ trackId ++ ".jpg")) else throw)
     else ret None)
    (run emit (IoConsoleError ("Error extracting cover for " ++ filePath ++ ":")) in ret None).

(** The metadata part of the loop body (lines 99-135).  The four variables
    [title], [artist], [album], [albumCover] are assigned only after
    [mm.parseFile] has returned, so when the [catch] runs they still hold
    their defaults.  A cache key is a path below [__dirname]: it contains
    a separator and never names an inherited property of the cache object,
    so [metadataCache[filePath]] is a plain lookup. *)
Definition readMetadata (W : World) (filePath trackId file : string)
  : M (string * string * string * option string) :=
  let title := default_title file in
  let artist := "Unknown Artist" in
  let album := "Unknown Album" in
  try_catch
    (let* cache := getCache in
     match cache !! filePath with
     | Some cached =>
         ret (str_or (cached_title cached) title, str_or (cached_artist cached) artist,
              str_or (cached_album cached) album, cached_albumCover cached)
     | None =>
         run emit (IoParse filePath) in
         let* metadata := of_option (parseFile W filePath) in
         let title := tag_or (tag_title metadata) title in
         let artist := tag_or (tag_artist metadata) artist in
         let album := tag_or (tag_album metadata) album in
         let* albumCover := extractAlbumCover W filePath trackId in
         let* cache := getCache in
         run setCache (<[filePath := mkEntry title artist album albumCover]> cache) in
         ret (title, artist, album, albumCover)
     end)
    (run emit (IoConsoleError ("Error reading metadata for " ++ file ++ ":")) in
     ret (title, artist, album, None)).

(** The loop body for an entry that passed the extension test. *)
Definition scanFile (W : World) (folderPath side : string) (index : nat) (file : string)
  : M Track :=
  let filePath := Path.join folderPath file in
  let* size := of_option (statSize W filePath) in
  let trackId := trackIdOf side index in
  let* metadata := readMetadata W filePath trackId file in
  let '(title, artist, album, albumCover) := metadata in
  ret {| id := trackId; title := title; artist := artist; album := album;
         filename := file;
         url := "/musics/side " ++ Str.toLowerCase side ++ "/" ++ Str.encodeURIComponent file;
         albumCover := albumCover; size := size; trackNumber := index + 1 |}.

(** The [for] loop over [files], from position [index] on. *)
Fixpoint scanLoop (W : World) (folderPath side : string) (index : nat) (files : list string)
  : M (list Track) :=
  match files with
  | [] => ret []
  | file :: rest =>
      if negb (is_audio file) then scanLoop W folderPath side (S index) rest
      else
        let* track := scanFile W folderPath side index file in
        let* tracks := scanLoop W folderPath side (S index) rest in
        ret (track :: tracks)
  end.

Definition getSongsFromFolder (W : World) (folderPath side : string) : M (list Track) :=
  match readdir W folderPath with
  | DirMissing => ret []
  | DirError => throw
  | DirListing files => scanLoop W folderPath side 0 files
  end.

Definition loadMusicFiles (W : World) : M (list Track * list Track) :=
  let* sideA := getSongsFromFolder W (sideAFolder W) "A" in
  let* sideB := getSongsFromFolder W (sideBFolder W) "B" in
  ret (sideA, sideB).

(** ** HTTP API

    A handler body is a computation that returns the status and the value
    handed to [res.json].  An exception that leaves the body leaves the
    handler: the promise returned by the [async] callback is rejected and the
    handler itself has produced no response ([Escaped]). *)

Definition Response : Type := nat * JsVal.

Inductive Outcome : Type :=
  | Responded (status : nat) (body : JsVal)
  | Escaped.

Definition serve (body : M Response) (s : ServerState) : Outcome * ServerState :=
  match body s with
  | (Ok (status, v), s') => (Responded status v, s')
  | (Thrown, s') => (Escaped, s')
  end.

Definition json_opt_str (o : option string) : JsVal :=
  match o with Some x => JStr x | None => JNull end.

Definition track_json (t : Track) : JsVal :=
  JObj [("id", JStr (id t)); ("title", JStr (title t)); ("artist", JStr (artist t));
        ("album", JStr (album t)); ("filename", JStr (filename t)); ("url", JStr (url t));
        ("albumCover", json_opt_str (albumCover t)); ("size", JNum (num_of_Z (size t)));
        ("trackNumber", JNum (num_of_nat (trackNumber t)))].

Definition tracks_json (ts : list Track) : JsVal := JArr (map track_json ts).

Definition session_json (u : Session) : JsVal :=
  JObj [("currentSide", currentSide u); ("currentTrackId", currentTrackId u);
        ("currentTime", currentTime u); ("volume", volume u);
        ("tapeMode", tapeMode u); ("isPlaying", isPlaying u)].

Definition error_json (msg : string) : JsVal := JObj [("error", JStr msg)].

Definition getSession : M Session := fun s => (Ok (userSession s), s).
Definition putSession (u : Session) : M unit := fun s => (Ok tt, setSession u s).

(** GET /api/health (lines 162-170) *)
Definition getHealth (W : World) : M Response :=
  let* playlists := loadMusicFiles W in
  ret (200, JObj [("status", JStr "Server is running!"); ("timestamp", JStr (now W));
                  ("sideA", JStr (pretty (length (fst playlists)) ++ " tracks"));
                  ("sideB", JStr (pretty (length (snd playlists)) ++ " tracks"))]).

(** GET /api/playlists (lines 173-181) *)
Definition getPlaylists (W : World) : M Response :=
  try_catch
    (let* playlists := loadMusicFiles W in
     ret (200, JObj [("sideA", tracks_json (fst playlists));
                     ("sideB", tracks_json (snd playlists))]))
    (run emit (IoConsoleError "Error loading playlists:") in
     ret (500, error_json "Failed to load playlists")).

(** GET /api/playlists/:side (lines 184-200) *)
Definition getPlaylistsSide (W : World) (param : string) : M Response :=
  try_catch
    (let side := Str.toUpperCase param in
     let* playlists := loadMusicFiles W in
     if String.eqb side "A" then
       ret (200, JObj [("side", JStr "A"); ("tracks", tracks_json (fst playlists))])
     else if String.eqb side "B" then
       ret (200, JObj [("side", JStr "B"); ("tracks", tracks_json (snd playlists))])
     else ret (404, error_json "Side not found. Use A or B"))
    (run emit (IoConsoleError "Error loading side:") in
     ret (500, error_json "Failed to load side")).

(** GET /api/session (lines 203-205) *)
Definition getSessionRoute : M Response :=
  let* u := getSession in ret (200, session_json u).

(** The six assignments of POST /api/session (lines 211-216). *)
Definition mergeSession (body : gmap string JsVal) (u : Session) : Session :=
  {| currentSide :=
       if truthy (prop body "currentSide") then prop body "currentSide" else currentSide u;
     currentTrackId :=
       if is_defined (prop body "currentTrackId") then prop body "currentTrackId"
       else currentTrackId u;
     currentTime :=
       if is_defined (prop body "currentTime") then prop body "currentTime" else currentTime u;
     volume := if is_defined (prop body "volume") then prop body "volume" else volume u;
     tapeMode := if is_defined (prop body "tapeMode") then prop body "tapeMode" else tapeMode u;
     isPlaying :=
       if is_defined (prop body "isPlaying") then prop body "isPlaying" else isPlaying u |}.

(** POST /api/session (lines 208-223) *)
Definition postSession (body : gmap string JsVal) : M Response :=
  let* u := getSession in
  run putSession (mergeSession body u) in
  let* u' := getSession in
  ret (200, JObj [("success", JBool true); ("message", JStr "Session saved");
                  ("session", session_json u')]).

Definition withTapeMode (v : JsVal) (u : Session) : Session :=
  {| currentSide := currentSide u; currentTrackId := currentTrackId u;
     currentTime := currentTime u; volume := volume u; tapeMode := v;
     isPlaying := isPlaying u |}.

Definition withVolume (v : JsVal) (u : Session) : Session :=
  {| currentSide := currentSide u; currentTrackId := currentTrackId u;
     currentTime := currentTime u; volume := v; tapeMode := tapeMode u;
     isPlaying := isPlaying u |}.

(** PUT /api/session/tape-mode (lines 226-234) *)
Definition putTapeMode (body : gmap string JsVal) : M Response :=
  let enabled := prop body "enabled" in
  let* u := getSession in
  run putSession (withTapeMode enabled u) in
  let* u' := getSession in
  ret (200, JObj [("success", JBool true); ("tapeMode", tapeMode u')]).

(** PUT /api/session/volume (lines 237-246) *)
Definition putVolume (W : World) (body : gmap string JsVal) : M Response :=
  let volume_ := prop body "volume" in
  if js_lt W volume_ (Fin 0) || js_gt W volume_ (Fin 100) then
    ret (400, error_json "Volume must be between 0 and 100")
  else
    let* u := getSession in
    run putSession (withVolume volume_ u) in
    let* u' := getSession in
    ret (200, JObj [("success", JBool true); ("volume", volume u')]).

(** POST /api/refresh (lines 249-263) *)
Definition postRefresh (W : World) : M Response :=
  try_catch
    (run setCache ∅ in
     let* playlists := loadMusicFiles W in
     ret (200, JObj [("success", JBool true); ("message", JStr "Playlists refreshed");
                     ("sideA", JNum (num_of_nat (length (fst playlists))));
                     ("sideB", JNum (num_of_nat (length (snd playlists))))]))
    (run emit (IoConsoleError "Error refreshing playlists:") in
     ret (500, error_json "Failed to refresh playlists")).

(** POST /api/session/reset (lines 266-280) *)
Definition postSessionReset : M Response :=
  run putSession defaultSession in
  ret (200, JObj [("success", JBool true); ("message", JStr "Session reset")]).

Inductive Request : Type :=
  | GetHealth
  | GetPlaylists
  | GetPlaylistsSide (side : string)
  | GetSession
  | PostSession (body : gmap string JsVal)
  | PutTapeMode (body : gmap string JsVal)
  | PutVolume (body : gmap string JsVal)
  | PostRefresh
  | PostSessionReset.

Definition route (W : World) (r : Request) : M Response :=
  match r with
  | GetHealth => getHealth W
  | GetPlaylists => getPlaylists W
  | GetPlaylistsSide side => getPlaylistsSide W side
  | GetSession => getSessionRoute
  | PostSession body => postSession body
  | PutTapeMode body => putTapeMode body
  | PutVolume body => putVolume W body
  | PostRefresh => postRefresh W
  | PostSessionReset => postSessionReset
  end.

Definition handle (W : World) (r : Request) : ServerState -> Outcome * ServerState :=
  serve (route W r).

(** The scan made once by the [listen] callback of [startServer]; its
    failure is caught and logged (lines 298-323). *)
Definition startup (W : World) : M unit :=
  try_catch (let* playlists := loadMusicFiles W in ret tt)
            (emit (IoConsoleError "Error during startup:")).

(** States of a running server: the initial state, then the start-up scan
    and any requests, each in a world that satisfies [P] (the world may
    change between two steps). *)
Inductive reachable (P : World -> Prop) : ServerState -> Prop :=
  | reach_init : reachable P initialState
  | reach_startup W s : P W -> reachable P s -> reachable P (snd (startup W s))
  | reach_request W r s : P W -> reachable P s -> reachable P (snd (handle W r s)).

(** ** Player UI (the browser script)

    The script's global variables, the parts of the audio element and of
    the page that the modelled functions assign, and the bodies sent to
    POST /api/session.  The media element's own behaviour (what the browser
    does after [src] is assigned) is not part of the script and is not
    modelled. *)

Module PlayerUI.

(** [playlists]: the JSON answer of GET /api/playlists as it was stored; a
    property is absent ([None]) when the server answered with an error
    object. *)
Record Playlists : Type := mkPlaylists {
  sideA : option (list Track);
  sideB : option (list Track)
}.

Record Audio : Type := mkAudio {
  src : option string;
  audioTime : JsNum;                    (* [audioPlayer.currentTime] *)
  audioVolume : JsNum;                  (* [audioPlayer.volume] *)
  restoreListeners : nat                (* one-shot [loadedmetadata] listeners *)
}.

Record Page : Type := mkPage {
  statusBar : string;
  trackTitle : string;
  trackArtist : string;
  albumCoverImg : option (string * string);   (* [src], [alt]; [None]: the icon *)
  sideABtnActive : bool;
  sideBBtnActive : bool;
  trackList : list (nat * string * bool)      (* number, title, active; [[]]: placeholder *)
}.

Record Player : Type := mkPlayer {
  playlists : Playlists;
  currentSide : JsVal;
  currentTrackIndex : nat;
  isPlaying : bool;
  tapeMode : JsVal;
  trackListVisible : bool;
  isMuted : bool;
  lastVolume : JsNum;
  savedTimestamp : JsNum;
  audioPlayer : Audio;
  page : Page;
  sent : list JsVal                     (* bodies posted to /api/session *)
}.

(** The double product [x * 100], as the engine computes it. *)
Record Browser : Type := mkBrowser { times100 : JsNum -> JsNum }.

Definition UI : Type -> Type := St Player.

Definition get : UI Player := fun p => (Ok p, p).
Definition modify (f : Player -> Player) : UI unit := fun p => (Ok tt, f p).

Definition set_page (f : Page -> Page) (p : Player) : Player :=
  mkPlayer (playlists p) (currentSide p) (currentTrackIndex p) (isPlaying p) (tapeMode p)
           (trackListVisible p) (isMuted p) (lastVolume p) (savedTimestamp p)
           (audioPlayer p) (f (page p)) (sent p).
Definition set_audio (f : Audio -> Audio) (p : Player) : Player :=
  mkPlayer (playlists p) (currentSide p) (currentTrackIndex p) (isPlaying p) (tapeMode p)
           (trackListVisible p) (isMuted p) (lastVolume p) (savedTimestamp p)
           (f (audioPlayer p)) (page p) (sent p).
Definition set_currentSide (v : JsVal) (p : Player) : Player :=
  mkPlayer (playlists p) v (currentTrackIndex p) (isPlaying p) (tapeMode p)
           (trackListVisible p) (isMuted p) (lastVolume p) (savedTimestamp p)
           (audioPlayer p) (page p) (sent p).
Definition set_currentTrackIndex (i : nat) (p : Player) : Player :=
  mkPlayer (playlists p) (currentSide p) i (isPlaying p) (tapeMode p)
           (trackListVisible p) (isMuted p) (lastVolume p) (savedTimestamp p)
           (audioPlayer p) (page p) (sent p).
Definition set_savedTimestamp (t : JsNum) (p : Player) : Player :=
  mkPlayer (playlists p) (currentSide p) (currentTrackIndex p) (isPlaying p) (tapeMode p)
           (trackListVisible p) (isMuted p) (lastVolume p) t
           (audioPlayer p) (page p) (sent p).
Definition push_sent (body : JsVal) (p : Player) : Player :=
  mkPlayer (playlists p) (currentSide p) (currentTrackIndex p) (isPlaying p) (tapeMode p)
           (trackListVisible p) (isMuted p) (lastVolume p) (savedTimestamp p)
           (audioPlayer p) (page p) (sent p ++ [body]).

Definition API_URL : string := "http://localhost:5000".

(** [v === 'A'] *)
Definition is_str (v : JsVal) (x : string) : bool :=
  match v with JStr y => String.eqb y x | _ => false end.

Definition math_floor (n : JsNum) : JsNum :=
  match n with Fin q => Fin (inject_Z (Qfloor q)) | _ => n end.
Definition math_round (n : JsNum) : JsNum :=
  match n with Fin q => Fin (inject_Z (Qfloor (q + (1 # 2)))) | _ => n end.

(** [setStatus] *)
Definition setStatus (message : string) : UI unit :=
  modify (set_page (fun g =>
    mkPage message (trackTitle g) (trackArtist g) (albumCoverImg g)
           (sideABtnActive g) (sideBBtnActive g) (trackList g))).

(** [getCurrentPlaylist]; [None] is [undefined]. *)
Definition getCurrentPlaylist (p : Player) : option (list Track) :=
  if is_str (currentSide p) "A" then sideA (playlists p) else sideB (playlists p).

(** [updateSideUI] *)
Definition updateSideUI : UI unit :=
  let* p := get in
  modify (set_page (fun g =>
    mkPage (statusBar g) (trackTitle g) (trackArtist g) (albumCoverImg g)
           (is_str (currentSide p) "A") (is_str (currentSide p) "B") (trackList g))).

(** [updateTrackList]; reading [length] of an undefined playlist throws. *)
Definition updateTrackList : UI unit :=
  let* p := get in
  let* playlist := of_option (getCurrentPlaylist p) in
  modify (set_page (fun g =>
    mkPage (statusBar g) (trackTitle g) (trackArtist g) (albumCoverImg g)
           (sideABtnActive g) (sideBBtnActive g)
           (imap (fun index track =>
                    (index + 1, title track, Nat.eqb index (currentTrackIndex p)))
                 playlist))).

(** [saveSession]: the body is built before the first [await]; an exception
    while building it is caught inside. *)
Definition saveSession (B : Browser) : UI unit :=
  try_catch
    (let* p := get in
     let* playlist := of_option (getCurrentPlaylist p) in
     let currentTrack := playlist !! currentTrackIndex p in
     modify (push_sent (JObj
       [("currentSide", currentSide p);
        ("currentTrackId", match currentTrack with Some t => JStr (id t) | None => JUndefined end);
        ("currentTime", JNum (math_floor (audioTime (audioPlayer p))));
        ("volume", JNum (math_round (times100 B (audioVolume (audioPlayer p)))));
        ("tapeMode", tapeMode p);
        ("isPlaying", JBool (isPlaying p))])))
    (ret tt).

(** [loadTrack(index, restoreTime)] *)
Definition loadTrack (B : Browser) (index : nat) (restoreTime : bool) : UI unit :=
  let* p := get in
  let* playlist := of_option (getCurrentPlaylist p) in
  match playlist !! index with
  | None => ret tt                      (* [index >= playlist.length] *)
  | Some track =>
      run modify (set_currentTrackIndex index) in
      run modify (set_audio (fun a =>
            mkAudio (Some (API_URL ++ url track)) (audioTime a) (audioVolume a)
                    (restoreListeners a))) in
      run modify (set_page (fun g =>
            mkPage (statusBar g) (title track) (artist track)
                   (match albumCover track with
                    | Some c => if String.eqb c "" then None else Some (c, title track)
                    | None => None
                    end)
                   (sideABtnActive g) (sideBBtnActive g) (trackList g))) in
      run (if restoreTime && num_lt (Fin 0) (savedTimestamp p) then
             modify (set_audio (fun a =>
               mkAudio (src a) (audioTime a) (audioVolume a) (S (restoreListeners a))))
           else ret tt) in
      run updateTrackList in
      saveSession B
  end.

(** [switchSide(side)] (lines 346-365) *)
Definition switchSide (B : Browser) (side : JsVal) : UI unit :=
  let* p := get in
  if truthy (tapeMode p) && isPlaying p then
    setStatus "Stop playback to flip tape"
  else
    run modify (set_savedTimestamp (audioTime (audioPlayer p))) in
    run modify (set_currentSide side) in
    run modify (set_currentTrackIndex 0) in
    run updateSideUI in
    run updateTrackList in
    let* p' := get in
    let* playlist := of_option (getCurrentPlaylist p') in
    run (if (0 <? length playlist)%nat then loadTrack B 0 true else ret tt) in
    saveSession B.

End PlayerUI.

(** ** Vocabulary of the statements *)

(** Whether a name contains the path separator. *)
Fixpoint has_slash (s : string) : bool :=
  match s with
  | EmptyString => false
  | String c r => Ascii.eqb c "/" || has_slash r
  end.

(** Directory listings hold entry names: none contains a separator. *)
Definition entries_ok (W : World) : Prop :=
  forall folder files f,
    readdir W folder = DirListing files -> f ∈ files -> has_slash f = false.

(** The audio entries of a listing, each with its position in the listing;
    [index] is the position of the head of [files]. *)
Fixpoint audioEntries (index : nat) (files : list string) : list (nat * string) :=
  match files with
  | [] => []
  | file :: rest =>
      if is_audio file then (index, file) :: audioEntries (S index) rest
      else audioEntries (S index) rest
  end.

(** What the outside did between two states of one run. *)
Definition events_since (s s' : ServerState) : list IoEvent :=
  drop (length (trace s)) (trace s').

(** A tag that is absent or empty. *)
Definition blank (tag : option string) : bool :=
  match tag with None => true | Some x => String.eqb x "" end.

(** The parse of [filePath] fails, or it succeeds and none of the three
    text tags is there. *)
Definition untagged (W : World) (filePath : string) : bool :=
  match parseFile W filePath with
  | None => true
  | Some tags => blank (tag_title tags) && blank (tag_artist tags) && blank (tag_album tags)
  end.

(** Every audio entry of both listings can be stat-ed and both folders can
    be listed. *)
Definition stat_ok (W : World) (folder : string) : Prop :=
  match readdir W folder with
  | DirMissing => True
  | DirError => False
  | DirListing files =>
      forall f, f ∈ files -> is_audio f = true ->
                is_Some (statSize W (Path.join folder f))
  end.

(** The listing of a folder; a missing folder has none. *)
Definition listing (W : World) (folder : string) : list string :=
  match readdir W folder with DirListing files => files | _ => [] end.

(** How one state of a scan relates to a later one: the session is not
    touched, the trace grows, cache entries stay as they are, a file is parsed
    only if the cache had no entry for it, and an entry appears only after a
    parse of its file. *)
Definition scan_rel (s s' : ServerState) : Prop :=
  userSession s' = userSession s
  ∧ trace s' = (trace s ++ events_since s s')%list
  ∧ (forall k e, metadataCache s !! k = Some e -> metadataCache s' !! k = Some e)
  ∧ (forall k, IoParse k ∈ events_since s s' -> metadataCache s !! k = None)
  ∧ (forall k, metadataCache s !! k = None -> is_Some (metadataCache s' !! k) ->
               IoParse k ∈ events_since s s').

(** A number within the closed range from 0 to 100. *)
Definition in_range (v : JsNum) : Prop :=
  match v with
  | Fin q => (0 <= q)%Q ∧ (q <= 100)%Q
  | _ => False
  end.

(** [t] is the track that one round of the loop over [folder] returned, in
    a state [s1] between [s] and [s'] where [I] holds. *)
Definition round_of (I : ServerState -> Prop) (W : World) (folder side : string)
    (s s' : ServerState) (t : Track) : Prop :=
  exists index s1 s2,
    filename t ∈ listing W folder ∧ I s1 ∧ scan_rel s s1
    ∧ scanFile W folder side index (filename t) s1 = (Ok t, s2)
    ∧ scan_rel s2 s'.

(** An invariant of the cache: the entry of every path [folder/file] is
    [G path file]-good. *)
Definition cache_inv (G : string -> string -> CacheEntry -> Prop) (s : ServerState) : Prop :=
  forall folder file e,
    has_slash file = false ->
    metadataCache s !! Path.join folder file = Some e ->
    G (Path.join folder file) file e.

(** The entry that a scan stores for a parsed file is [G]-good. *)
Definition fresh_ok (G : string -> string -> CacheEntry -> Prop) (W : World) : Prop :=
  forall folder file tags cover,
    has_slash file = false ->
    parseFile W (Path.join folder file) = Some tags ->
    G (Path.join folder file) file
      (mkEntry (tag_or (tag_title tags) (default_title file))
               (tag_or (tag_artist tags) "Unknown Artist")
               (tag_or (tag_album tags) "Unknown Album") cover).

(** An entry that [a || b] reads back as it is: artist and album are not
    empty, and the title is empty only if the default title is. *)
Definition entry_stable (path file : string) (e : CacheEntry) : Prop :=
  (cached_title e = "" -> default_title file = "")
  ∧ cached_artist e ≠ "" ∧ cached_album e ≠ "".

(** The entry of [path], if any, holds the three defaults. *)
Definition entry_default (path : string) (key file : string) (e : CacheEntry) : Prop :=
  key = path ->
  cached_title e = default_title file
  ∧ cached_artist e = "Unknown Artist" ∧ cached_album e = "Unknown Album".

(** The track carries the four values of the cache entry. *)
Definition same_metadata (t : Track) (e : CacheEntry) : Prop :=
  title t = cached_title e ∧ artist t = cached_artist e
  ∧ album t = cached_album e ∧ albumCover t = cached_albumCover e.

(** The track carries the three defaults. *)
Definition has_defaults (t : Track) : Prop :=
  title t = default_title (filename t)
  ∧ artist t = "Unknown Artist" ∧ album t = "Unknown Album".

(** ** Concrete worlds *)

Module Examples.

Definition noTags : Tags := mkTags None None None false.

(** A world over ["/srv"] given by the two listings; every file can be
    read and [parse] answers for the tag parser. *)
Definition world (listA listB : DirResult) (stat : string -> option Z)
    (parse : string -> option Tags) : World :=
  {| dirname := "/srv";
     readdir := fun folder =>
       if String.eqb folder "/srv/musics/side a" then listA
       else if String.eqb folder "/srv/musics/side b" then listB
       else DirMissing;
     statSize := stat;
     parseFile := parse;
     writeFile := fun _ => true;
     now := "2024-01-01T00:00:00.000Z";
     StringToNumber := fun _ => NaN;
     ObjectToString := fun _ => "[object Object]" |}.

(** Side A holds the two files of the specification's example, without
    embedded tags; side B is missing. *)
Definition twoSongs : World :=
  world (DirListing ["01_song.mp3"; "02-track.mp3"]) DirMissing
        (fun _ => Some 1000%Z) (fun _ => Some noTags).

(** Side A holds a picture before its only song. *)
Definition coverThenSong : World :=
  world (DirListing ["cover.jpg"; "song.mp3"]) (DirListing [])
        (fun _ => Some 1000%Z) (fun _ => Some noTags).

(** Side A lists a song that cannot be stat-ed (a dangling link). *)
Definition danglingLink : World :=
  world (DirListing ["gone.mp3"]) (DirListing [])
        (fun _ => None) (fun _ => Some noTags).

(** Side A holds one tagged song with a picture and one unreadable song. *)
Definition taggedAndBroken : World :=
  world (DirListing ["a_b.mp3"; "bad-file.MP3"]) (DirListing ["x.flac"])
        (fun _ => Some 42%Z)
        (fun p => if String.eqb p "/srv/musics/side a/a_b.mp3"
                  then Some (mkTags (Some "Song") (Some "Band") None true)
                  else if String.eqb p "/srv/musics/side a/bad-file.MP3" then None
                  else Some noTags).

End Examples.

(** ** Vocabulary of the further properties *)

(** A folder that a scan gets through: it is missing, or it can be listed
    and each of its audio entries can be stat-ed. *)
Definition scannable (W : World) (folder : string) : bool :=
  match readdir W folder with
  | DirMissing => true
  | DirError => false
  | DirListing files =>
      forallb (fun f => negb (is_audio f) || bool_decide (is_Some (statSize W (Path.join folder f))))
              files
  end.

(** The number of audio entries of a folder. *)
Definition audioCount (W : World) (folder : string) : nat :=
  length (List.filter is_audio (listing W folder)).

(** The routes that read or write the session only. *)
Definition session_route (r : Request) : bool :=
  match r with
  | GetSession | PostSession _ | PutTapeMode _ | PutVolume _ | PostSessionReset => true
  | _ => false
  end.

(** The cover that [extractAlbumCover] answers and what it does to the
    outside, read off the world. *)
Definition coverOf (W : World) (filePath trackId : string) : option string :=
  match parseFile W filePath with
  | Some tags =>
      if tag_picture tags && writeFile W (Path.join (coversFolder W) (trackId ++ ".jpg"))
      then Some ("/covers/" ++ trackId ++ ".jpg") else None
  | None => None
  end.

Definition coverEvents (W : World) (filePath trackId : string) : list IoEvent :=
  IoParse filePath ::
  match parseFile W filePath with
  | Some tags =>
      if tag_picture tags then
        IoWriteCover (Path.join (coversFolder W) (trackId ++ ".jpg")) ::
        (if writeFile W (Path.join (coversFolder W) (trackId ++ ".jpg")) then []
         else [IoConsoleError ("Error extracting cover for " ++ filePath ++ ":")])
      else []
  | None => [IoConsoleError ("Error extracting cover for " ++ filePath ++ ":")]
  end.

Definition addEvents (new : list IoEvent) (s : ServerState) : ServerState :=
  {| userSession := userSession s; metadataCache := metadataCache s;
     trace := trace s ++ new |}.

(** The four values of a track, by what the cache holds for its file
    ([entry]) and by what the parser says. *)
Definition metadataOf (W : World) (filePath trackId file : string)
    (entry : option CacheEntry) : string * string * string * option string :=
  match entry with
  | Some cached =>
      (str_or (cached_title cached) (default_title file),
       str_or (cached_artist cached) "Unknown Artist",
       str_or (cached_album cached) "Unknown Album", cached_albumCover cached)
  | None =>
      match parseFile W filePath with
      | Some tags =>
          (tag_or (tag_title tags) (default_title file),
           tag_or (tag_artist tags) "Unknown Artist",
           tag_or (tag_album tags) "Unknown Album", coverOf W filePath trackId)
      | None => (default_title file, "Unknown Artist", "Unknown Album", None)
      end
  end.

Definition trackOf (side : string) (index : nat) (file : string) (size : Z)
    (m : string * string * string * option string) : Track :=
  {| id := trackIdOf side index; title := m.1.1.1; artist := m.1.1.2; album := m.1.2;
     filename := file;
     url := "/musics/side " ++ Str.toLowerCase side ++ "/" ++ Str.encodeURIComponent file;
     albumCover := m.2; size := size; trackNumber := index + 1 |}.

(** Both listings without a repeated name. *)
Definition listings_distinct (W : World) : Prop :=
  NoDup (listing W (sideAFolder W)) ∧ NoDup (listing W (sideBFolder W)).

(** A cover is absent or is the file named by the track's own id. *)
Definition cover_by_id (t : Track) : Prop :=
  albumCover t = None ∨ albumCover t = Some ("/covers/" ++ id t ++ ".jpg").

(** The value of a hexadecimal digit, and percent-decoding: what a static
    file server does to the path of a request before it looks the file
    up. *)
Definition hex_value (c : ascii) : nat :=
  let n := Str.code c in
  if (48 <=? n)%nat && (n <=? 57)%nat then n - 48
  else if (65 <=? n)%nat && (n <=? 70)%nat then n - 55
  else if (97 <=? n)%nat && (n <=? 102)%nat then n - 87
  else 0.

Fixpoint percent_decode (s : string) : string :=
  match s with
  | EmptyString => EmptyString
  | String c r =>
      match r with
      | String h (String l r') =>
          if Ascii.eqb c "%"
          then String (ascii_of_nat (16 * hex_value h + hex_value l)) (percent_decode r')
          else String c (percent_decode r)
      | _ => String c (percent_decode r)
      end
  end.

(** ** Player UI: the transport controls

    The remaining controls of the browser script.  What they do outside the
    variables of [PlayerUI.Player] (calls on the audio element, the play
    button, the disc and the visualizer, the request of [toggleTapeMode]) is
    kept as a list of effects, in order. *)

Module Deck.

Import PlayerUI.

Inductive Effect : Type :=
  | AudioPlay                           (* [audioPlayer.play()] *)
  | AudioPause                          (* [audioPlayer.pause()] *)
  | AudioPlayLater                      (* [setTimeout(() => audioPlayer.play(), 500)] *)
  | PlayButton (pauseIcon : bool)       (* the icon of [playBtn] *)
  | DiscSpin (on : bool)                (* [startDisc] / [stopDisc] *)
  | Visualization (on : bool)           (* [start-] / [stopFrequencyVisualization] *)
  | TapeModeView (active : bool)        (* toggle and label of [updateTapeModeUI] *)
  | TrackListDisplay (visible : bool)
  | PutTapeModeRequest (enabled : JsVal). (* body of PUT /api/session/tape-mode *)

Record Deck : Type := mkDeck {
  player : Player;
  effects : list Effect
}.

Definition DK : Type -> Type := St Deck.

Definition lift {A} (m : UI A) : DK A :=
  fun d => match m (player d) with (r, p) => (r, mkDeck p (effects d)) end.
Definition effect (e : Effect) : DK unit :=
  fun d => (Ok tt, mkDeck (player d) (effects d ++ [e])).
Definition getP : DK Player := fun d => (Ok (player d), d).

Definition set_isPlaying (b : bool) (p : Player) : Player :=
  mkPlayer (playlists p) (currentSide p) (currentTrackIndex p) b (tapeMode p)
           (trackListVisible p) (isMuted p) (lastVolume p) (savedTimestamp p)
           (audioPlayer p) (page p) (sent p).
Definition set_tapeMode (v : JsVal) (p : Player) : Player :=
  mkPlayer (playlists p) (currentSide p) (currentTrackIndex p) (isPlaying p) v
           (trackListVisible p) (isMuted p) (lastVolume p) (savedTimestamp p)
           (audioPlayer p) (page p) (sent p).
Definition set_trackListVisible (b : bool) (p : Player) : Player :=
  mkPlayer (playlists p) (currentSide p) (currentTrackIndex p) (isPlaying p) (tapeMode p)
           b (isMuted p) (lastVolume p) (savedTimestamp p)
           (audioPlayer p) (page p) (sent p).

(** [if (isPlaying) audioPlayer.play()] *)
Definition playIfPlaying : DK unit :=
  let* p := getP in
  if isPlaying p then effect AudioPlay else ret tt.

(** [togglePlay] (lines 295-316); reading [length] of an undefined playlist
    throws. *)
Definition togglePlay (B : Browser) : DK unit :=
  let* p := getP in
  let* playlist := of_option (getCurrentPlaylist p) in
  if (length playlist =? 0)%nat then ret tt
  else
    run (if isPlaying p then
           run effect AudioPause in
           run lift (modify (set_isPlaying false)) in
           run effect (PlayButton false) in
           run effect (DiscSpin false) in
           effect (Visualization false)
         else
           run effect AudioPlay in
           run lift (modify (set_isPlaying true)) in
           run effect (PlayButton true) in
           run effect (DiscSpin true) in
           effect (Visualization true)) in
    lift (saveSession B).

(** [previousTrack] (lines 319-324) *)
Definition previousTrack (B : Browser) : DK unit :=
  let* p := getP in
  if (0 <? currentTrackIndex p)%nat then
    run lift (loadTrack B (currentTrackIndex p - 1) false) in
    playIfPlaying
  else ret tt.

(** [flipTape] (lines 368-390) *)
Definition flipTape (B : Browser) : DK unit :=
  let* p := getP in
  let newSide := if is_str (currentSide p) "A" then "B" else "A" in
  run lift (modify (set_savedTimestamp (audioTime (audioPlayer p)))) in
  run lift (modify (set_currentSide (JStr newSide))) in
  run lift (modify (set_currentTrackIndex 0)) in
  run lift updateSideUI in
  run lift updateTrackList in
  run lift (setStatus ("Flipped to Side " ++ newSide)) in
  let* p' := getP in
  let* playlist := of_option (getCurrentPlaylist p') in
  run (if (0 <? length playlist)%nat then
         run lift (loadTrack B 0 true) in
         let* p'' := getP in
         if isPlaying p'' then effect AudioPlayLater else ret tt
       else ret tt) in
  lift (saveSession B).

(** [nextTrack] (lines 327-343); [currentTrackIndex < playlist.length - 1]
    is [currentTrackIndex + 1 < playlist.length]. *)
Definition nextTrack (B : Browser) : DK unit :=
  let* p := getP in
  let* playlist := of_option (getCurrentPlaylist p) in
  if truthy (tapeMode p) then
    if (currentTrackIndex p + 1 <? length playlist)%nat then
      run lift (loadTrack B (currentTrackIndex p + 1) false) in
      playIfPlaying
    else flipTape B
  else
    if (currentTrackIndex p + 1 <? length playlist)%nat then
      run lift (loadTrack B (currentTrackIndex p + 1) false) in
      playIfPlaying
    else ret tt.

(** [selectTrack(index)] (lines 435-438) *)
Definition selectTrack (B : Browser) (index : nat) : DK unit :=
  run lift (loadTrack B index false) in
  playIfPlaying.

(** [toggleTapeMode] with [updateTapeModeUI] (lines 393-406, 447-452): the
    request is issued before the first [await]. *)
Definition toggleTapeMode : DK unit :=
  let* p := getP in
  let enabled := negb (truthy (tapeMode p)) in
  run lift (modify (set_tapeMode (JBool enabled))) in
  run effect (TapeModeView enabled) in
  run lift (setStatus ("Tape Mode: " ++ (if enabled then "ON" else "OFF"))) in
  effect (PutTapeModeRequest (JBool enabled)).

(** [toggleTrackList] (lines 136-140) *)
Definition toggleTrackList : DK unit :=
  let* p := getP in
  run lift (modify (set_trackListVisible (negb (trackListVisible p)))) in
  effect (TrackListDisplay (negb (trackListVisible p))).

(** The listeners of [setupAudioListeners] for [ended], [error] and
    [canplay] (lines 472-490). *)
Definition onEnded (B : Browser) : DK unit := nextTrack B.

Definition onError : DK unit :=
  run lift (setStatus "Error playing track") in
  run lift (modify (set_isPlaying false)) in
  run effect (PlayButton false) in
  run effect (DiscSpin false) in
  effect (Visualization false).

Definition onCanPlay : DK unit := playIfPlaying.

(** What the user and the audio element can do to the deck. *)
Inductive Action : Type :=
  | TogglePlay
  | Previous
  | Next
  | Select (index : nat)
  | SwitchSide (side : JsVal)
  | ToggleTapeMode
  | ToggleTrackList
  | Ended
  | AudioError
  | CanPlay.

Definition act (B : Browser) (a : Action) : DK unit :=
  match a with
  | TogglePlay => togglePlay B
  | Previous => previousTrack B
  | Next => nextTrack B
  | Select index => selectTrack B index
  | SwitchSide side => lift (switchSide B side)
  | ToggleTapeMode => toggleTapeMode
  | ToggleTrackList => toggleTrackList
  | Ended => onEnded B
  | AudioError => onError
  | CanPlay => onCanPlay
  end.

(** The current track index is 0 or a position of the current playlist. *)
Definition in_bounds (p : Player) : Prop :=
  match getCurrentPlaylist p with
  | Some playlist => currentTrackIndex p = 0 ∨ currentTrackIndex p < length playlist
  | None => True
  end.

End Deck.

(** Two players with the same script variables of the playback state (the
    audio element, the page and the requests sent may differ). *)
Definition same_core (p p' : PlayerUI.Player) : Prop :=
  PlayerUI.playlists p' = PlayerUI.playlists p
  ∧ PlayerUI.currentSide p' = PlayerUI.currentSide p
  ∧ PlayerUI.currentTrackIndex p' = PlayerUI.currentTrackIndex p
  ∧ PlayerUI.isPlaying p' = PlayerUI.isPlaying p
  ∧ PlayerUI.tapeMode p' = PlayerUI.tapeMode p
  ∧ PlayerUI.savedTimestamp p' = PlayerUI.savedTimestamp p.

(** The copy of a value that arrives when [JSON.stringify] writes it inside
    an object or an array and the server's JSON body parser reads it back: a
    number that is not finite arrives as [null], [undefined] in an array
    arrives as [null], and a property that holds [undefined] does not arrive
    (property lists are taken without repeated names). *)
Fixpoint json_copy (v : JsVal) : JsVal :=
  match v with
  | JNum (Fin _) => v
  | JNum _ => JNull
  | JArr items =>
      JArr (map (fun x => match json_copy x with JUndefined => JNull | y => y end) items)
  | JObj props =>
      JObj ((fix copy_props (l : list (string * JsVal)) : list (string * JsVal) :=
               match l with
               | [] => []
               | (k, x) :: rest =>
                   match json_copy x with
                   | JUndefined => copy_props rest
                   | y => (k, y) :: copy_props rest
                   end
               end) props)
  | _ => v
  end.

(** The request body that the server reads when the script sends
    [JSON.stringify] of an object literal with these properties, written
    from left to right. *)
Definition posted_props (props : list (string * JsVal)) : gmap string JsVal :=
  fold_left (fun body kv =>
               match json_copy kv.2 with
               | JUndefined => delete kv.1 body
               | y => <[kv.1 := y]> body
               end) props ∅.

(** A string made of white-space characters only (each read backwards
    when [backwards]). *)
Inductive white_run (backwards : bool) : string -> Prop :=
  | white_nil : white_run backwards ""
  | white_cons w r :
      Str.white backwards w = true -> white_run backwards r -> white_run backwards (w ++ r).

(** The state of the server after a sequence of requests. *)
Definition handle_all (W : World) (rs : list Request) (s : ServerState) : ServerState :=
  fold_left (fun q r => (handle W r q).2) rs s.

(** ** Loading the playlists into the player *)

Module Fetch.
Import PlayerUI.

(** [props.k] of a parsed JSON object. *)
Definition field (props : list (string * JsVal)) (k : string) : JsVal :=
  match List.find (fun kv => String.eqb kv.1 k) props with
  | Some kv => kv.2
  | None => JUndefined
  end.

Definition as_string (v : JsVal) : option string :=
  match v with JStr x => Some x | _ => None end.

Definition as_integer (v : JsVal) : option Z :=
  match v with
  | JNum (Fin q) => if Pos.eqb (Qden q) 1 then Some (Qnum q) else None
  | _ => None
  end.

(** The typed reading of the JSON that the server writes for a track, for
    a list of tracks and for the reply of GET /api/playlists.  A property
    that is not there, as in the error object of a 500 answer, reads as
    [undefined]. *)
Definition track_of_json (v : JsVal) : option Track :=
  match v with
  | JObj props =>
      id ← as_string (field props "id");
      title ← as_string (field props "title");
      artist ← as_string (field props "artist");
      album ← as_string (field props "album");
      filename ← as_string (field props "filename");
      url ← as_string (field props "url");
      size ← as_integer (field props "size");
      trackNumber ← as_integer (field props "trackNumber");
      Some (mkTrack id title artist album filename url
                    (as_string (field props "albumCover")) size (Z.to_nat trackNumber))
  | _ => None
  end.

Definition tracks_of_json (v : JsVal) : option (list Track) :=
  match v with
  | JArr items => mapM track_of_json items
  | _ => None
  end.

Definition playlists_of_json (v : JsVal) : Playlists :=
  match v with
  | JObj props =>
      mkPlaylists (tracks_of_json (field props "sideA")) (tracks_of_json (field props "sideB"))
  | _ => mkPlaylists None None
  end.

(** The body of an answer; a handler that lets its exception out sends
    none, and the request stays open. *)
Definition body_of (o : Outcome) : option JsVal :=
  match o with Responded _ body => Some body | Escaped => None end.

Definition set_playlists (data : Playlists) (p : Player) : Player :=
  mkPlayer data (currentSide p) (currentTrackIndex p) (isPlaying p) (tapeMode p)
           (trackListVisible p) (isMuted p) (lastVolume p) (savedTimestamp p)
           (audioPlayer p) (page p) (sent p).

(** [loadPlaylists] (lines 179-201), given what the two [await]s deliver:
    the parsed body of the reply, or [None] when [fetch] or
    [response.json()] rejects.  Reading [length] of a side that is undefined
    throws, inside the [try]. *)
Definition loadPlaylists (B : Browser) (reply : option JsVal) : UI unit :=
  try_catch
    (run setStatus "Loading tracks..." in
     let* data := of_option reply in
     run modify (set_playlists (playlists_of_json data)) in
     let* p := get in
     let* a := of_option (sideA (playlists p)) in
     let* none :=
       (if (length a =? 0)%nat
        then let* b := of_option (sideB (playlists p)) in ret (length b =? 0)%nat
        else ret false) in
     if none : bool then setStatus "No tracks found"
     else
       let* b := of_option (sideB (playlists p)) in
       run setStatus ("Loaded " ++ pretty (length a + length b) ++ " tracks") in
       run updateTrackList in
       let* p' := get in
       let* current := of_option (getCurrentPlaylist p') in
       if (0 <? length current)%nat then loadTrack B 0 false else ret tt)
    (setStatus "Error: Cannot connect to server").

End Fetch.

(** * Properties *)

(** ** Strings and paths *)

Lemma app_empty (x : string) : "" ++ x = x.
Proof. reflexivity. Qed.

Lemma app_String c (a x : string) : String c a ++ x = String c (a ++ x).
Proof. reflexivity. Qed.

Lemma join_eq a f : Path.join a f = a ++ String "/" f.
Proof. reflexivity. Qed.

Lemma has_slash_sep a b : has_slash (a ++ String "/" b) = true.
Proof.
  induction a as [|c a IH]; rewrite ?app_empty, ?app_String; simpl; [done|].
  rewrite IH. by rewrite orb_true_r.
Qed.

Lemma join_inj a a' f f' :
  has_slash f = false -> has_slash f' = false ->
  Path.join a f = Path.join a' f' -> a = a' ∧ f = f'.
Proof.
  rewrite !join_eq. revert a'.
  induction a as [|c a IH]; intros [|c' a'] Hf Hf' E;
    rewrite ?app_empty, ?app_String in E.
  - by injection E as ->.
  - injection E as <- ->. by rewrite has_slash_sep in Hf.
  - injection E as -> <-. by rewrite has_slash_sep in Hf'.
  - injection E as -> E. by destruct (IH a' Hf Hf' E) as [-> ->].
Qed.

Lemma trackIdOf_inj side i j : trackIdOf side i = trackIdOf side j -> i = j.
Proof.
  unfold trackIdOf. intros E.
  apply (inj (String.app side)) in E. apply (inj (String.app "-")) in E.
  by apply (inj pretty) in E.
Qed.

Lemma str_or_fixed a b : (a = "" -> b = "") -> str_or a b = a.
Proof.
  unfold str_or. destruct (String.eqb_spec a ""); [|done]. intros H. by rewrite H.
Qed.

Lemma str_or_blank_l a b : blank (Some a) = true -> str_or a b = b.
Proof. unfold str_or; simpl. by intros ->. Qed.

Lemma tag_or_blank tag b : blank tag = true -> tag_or tag b = b.
Proof. destruct tag; [apply str_or_blank_l | done]. Qed.

Lemma tag_or_fixed tag b : let x := tag_or tag b in x = "" -> b = "".
Proof.
  destruct tag as [a|]; simpl; [|done]. unfold str_or.
  destruct (String.eqb_spec a ""); [done|]. intros; by subst.
Qed.

(** ** One file of a scan *)

Lemma events_since_app s s' new :
  trace s' = (trace s ++ new)%list -> events_since s s' = new.
Proof. unfold events_since. intros ->. by rewrite drop_app_length. Qed.

Lemma scan_rel_intro s s' new :
  userSession s' = userSession s ->
  trace s' = (trace s ++ new)%list ->
  (forall k e, metadataCache s !! k = Some e -> metadataCache s' !! k = Some e) ->
  (forall k, IoParse k ∈ new -> metadataCache s !! k = None) ->
  (forall k, metadataCache s !! k = None -> is_Some (metadataCache s' !! k) -> IoParse k ∈ new) ->
  scan_rel s s'.
Proof.
  intros Hu Ht Hk Hp Hn. unfold scan_rel. rewrite (events_since_app _ _ _ Ht). done.
Qed.

Lemma scan_rel_refl s : scan_rel s s.
Proof.
  apply (scan_rel_intro s s []); try done.
  - by rewrite app_nil_r.
  - intros k Hk. by apply elem_of_nil in Hk.
  - intros k -> [? ?]. done.
Qed.

Lemma scan_rel_trans s1 s2 s3 : scan_rel s1 s2 -> scan_rel s2 s3 -> scan_rel s1 s3.
Proof.
  intros (Hu1 & Ht1 & Hk1 & Hp1 & Hn1) (Hu2 & Ht2 & Hk2 & Hp2 & Hn2).
  apply (scan_rel_intro s1 s3 (events_since s1 s2 ++ events_since s2 s3)%list).
  - congruence.
  - rewrite Ht2, Ht1. by rewrite app_assoc.
  - eauto.
  - intros k [Hk|Hk]%elem_of_app; [by apply Hp1|].
    destruct (metadataCache s1 !! k) as [e|] eqn:E; [|done].
    apply Hk1 in E. apply Hp2 in Hk. congruence.
  - intros k Hnone Hsome. apply elem_of_app.
    destruct (metadataCache s2 !! k) as [e|] eqn:E.
    + left. apply Hn1; [done|]. rewrite E. eauto.
    + right. by apply Hn2.
Qed.

Lemma events_since_trans s1 s2 s3 :
  scan_rel s1 s2 -> scan_rel s2 s3 ->
  events_since s1 s3 = (events_since s1 s2 ++ events_since s2 s3)%list.
Proof.
  intros (_ & Ht1 & _) (_ & Ht2 & _). apply events_since_app.
  rewrite Ht2, Ht1. by rewrite app_assoc.
Qed.

Lemma miss_facts s c new key :
  metadataCache s !! key = None ->
  IoParse key ∈ new ->
  (forall k, IoParse k ∈ new -> k = key) ->
  (c = metadataCache s ∨ exists e, c = <[key := e]> (metadataCache s)) ->
  let s' := mkState (userSession s) c (trace s ++ new) in
  scan_rel s s'
  ∧ (forall k, k ≠ key -> c !! k = metadataCache s !! k)
  ∧ (forall k, IoParse k ∈ events_since s s' -> k = key)
  ∧ IoParse key ∈ events_since s s'.
Proof.
  intros Hc Hin Honly Hcache s'.
  assert (Hev : events_since s s' = new) by by apply events_since_app.
  rewrite Hev. split_and!; try done.
  - apply (scan_rel_intro s s' new); try done.
    + intros k e Hk. simpl. destruct Hcache as [->|[e' ->]]; [done|].
      rewrite lookup_insert_ne; [done|]. congruence.
    + intros k Hk. by rewrite (Honly k Hk).
    + intros k Hk [e He]. simpl in He. destruct Hcache as [->|[e' ->]]; [congruence|].
      destruct (decide (key = k)) as [<-|Hne]; [done|].
      rewrite lookup_insert_ne in He; congruence.
  - intros k Hk. destruct Hcache as [->|[e' ->]]; [done|]. by rewrite lookup_insert_ne.
Qed.

Lemma scanFile_spec W folder side index file s r s' :
  scanFile W folder side index file s = (r, s') ->
  let key := Path.join folder file in
  scan_rel s s'
  ∧ (forall k, k ≠ key -> metadataCache s' !! k = metadataCache s !! k)
  ∧ (forall k, IoParse k ∈ events_since s s' -> k = key)
  ∧ match r with
    | Thrown => statSize W key = None ∧ s' = s
    | Ok t =>
        is_Some (statSize W key) ∧ id t = trackIdOf side index
        ∧ filename t = file ∧ trackNumber t = index + 1
        ∧ match metadataCache s !! key with
          | Some e =>
              s' = s
              ∧ title t = str_or (cached_title e) (default_title file)
              ∧ artist t = str_or (cached_artist e) "Unknown Artist"
              ∧ album t = str_or (cached_album e) "Unknown Album"
              ∧ albumCover t = cached_albumCover e
          | None =>
              IoParse key ∈ events_since s s'
              ∧ match parseFile W key with
                | None =>
                    metadataCache s' = metadataCache s
                    ∧ title t = default_title file ∧ artist t = "Unknown Artist"
                    ∧ album t = "Unknown Album" ∧ albumCover t = None
                | Some tags =>
                    title t = tag_or (tag_title tags) (default_title file)
                    ∧ artist t = tag_or (tag_artist tags) "Unknown Artist"
                    ∧ album t = tag_or (tag_album tags) "Unknown Album"
                    ∧ metadataCache s' =
                      <[key := mkEntry (title t) (artist t) (album t) (albumCover t)]>
                        (metadataCache s)
                end
          end
    end.
Proof.
  intros E key. revert E.
  unfold scanFile, readMetadata, extractAlbumCover, bind, try_catch, of_option, getCache,
    setCache, emit, ret, throw. fold key.
  assert (Hnil : forall k, IoParse k ∈ events_since s s -> k = key).
  { intros k Hk. unfold events_since in Hk. rewrite drop_all in Hk.
    by apply elem_of_nil in Hk. }
  destruct (statSize W key) as [sz|] eqn:Hst; simpl.
  2:{ intros [= <- <-]. split_and!; auto using scan_rel_refl. }
  destruct (metadataCache s !! key) as [e|] eqn:Hc; simpl.
  { intros [= <- <-]. simpl. split_and!; eauto using scan_rel_refl. }
  destruct (parseFile W key) as [tags|] eqn:Hp; simpl;
    [destruct (tag_picture tags); simpl; [destruct (writeFile W _); simpl|]|];
    intros [= <- <-]; simpl; rewrite <- ?(assoc_L (++)%list);
    (match goal with
     | |- context [mkState _ ?c (trace s ++ ?new)%list] =>
         destruct (miss_facts s c new key Hc) as (H1 & H2 & H3 & H4);
           [by apply list_elem_of_here
           |intros k Hk; repeat (apply elem_of_cons in Hk as [Hk|Hk]; [congruence|]);
            by apply elem_of_nil in Hk
           |eauto|]
     end);
    split_and!; eauto.
Qed.

(** ** The loop over a listing *)

Lemma scanLoop_skip W folder side index file rest :
  is_audio file = false ->
  scanLoop W folder side index (file :: rest) = scanLoop W folder side (S index) rest.
Proof. simpl. by intros ->. Qed.

Lemma scanLoop_audio W folder side index file rest s :
  is_audio file = true ->
  scanLoop W folder side index (file :: rest) s =
  match scanFile W folder side index file s with
  | (Ok track, s1) =>
      match scanLoop W folder side (S index) rest s1 with
      | (Ok tracks, s2) => (Ok (track :: tracks), s2)
      | (Thrown, s2) => (Thrown, s2)
      end
  | (Thrown, s1) => (Thrown, s1)
  end.
Proof.
  intros Ha. simpl. rewrite Ha. simpl. unfold bind at 1.
  destruct (scanFile W folder side index file s) as [[track|] s1]; [|done].
  unfold bind, ret. by destruct (scanLoop W folder side (S index) rest s1) as [[tracks|] s2].
Qed.

(** A case analysis of one round of the loop, for inductions over [files]. *)
Ltac loop_round W folder side index file rest s E :=
  destruct (is_audio file) eqn:Haudio;
  [ rewrite (scanLoop_audio W folder side index file rest s Haudio) in E;
    destruct (scanFile W folder side index file s) as [[track|] s1] eqn:Efile;
    [ destruct (scanLoop W folder side (S index) rest s1) as [[tracks|] s2] eqn:Erest | ]
  | rewrite (scanLoop_skip W folder side index file rest Haudio) in E ].

Lemma scanLoop_shape W folder side files : forall index s tracks s',
  scanLoop W folder side index files s = (Ok tracks, s') ->
  map (fun t => (id t, filename t, trackNumber t)) tracks =
  map (fun e => (trackIdOf side e.1, e.2, e.1 + 1)) (audioEntries index files).
Proof.
  induction files as [|file rest IH]; intros index s tracks0 s' E.
  - by injection E as <- <-.
  - simpl audioEntries. loop_round W folder side index file rest s E.
    + injection E as <- <-. simpl.
      destruct (scanFile_spec _ _ _ _ _ _ _ _ Efile) as (_ & _ & _ & _ & -> & -> & -> & _).
      f_equal. eauto.
    + discriminate.
    + discriminate.
    + eauto.
Qed.

(** Every returned track is the result of one round of the loop, run in a
    state between the start and the end of the scan; an invariant [I] that
    the rounds preserve holds there and at the end, also when the scan
    throws. *)
Lemma scanLoop_rounds (I : ServerState -> Prop) W folder side files :
  (forall f index s r s', f ∈ files -> is_audio f = true -> I s ->
     scanFile W folder side index f s = (r, s') -> I s') ->
  forall index s r s',
  I s -> scanLoop W folder side index files s = (r, s') ->
  I s' ∧ scan_rel s s'
  ∧ match r with
    | Thrown => True
    | Ok tracks =>
        Forall (fun t => exists i s1 s2,
                  filename t ∈ files ∧ I s1 ∧ scan_rel s s1
                  ∧ scanFile W folder side i (filename t) s1 = (Ok t, s2)
                  ∧ scan_rel s2 s') tracks
    end.
Proof.
  induction files as [|file rest IH]; intros Hstep index s r s' HI E.
  - injection E as <- <-. auto using scan_rel_refl.
  - assert (Hrest : forall f index s r s', f ∈ rest -> is_audio f = true -> I s ->
              scanFile W folder side index f s = (r, s') -> I s').
    { intros f i s0 r0 s0' Hf. apply Hstep. by right. }
    loop_round W folder side index file rest s E.
    + injection E as <- <-.
      assert (HI1 : I s1) by (eapply Hstep; [by left| | |]; eauto).
      destruct (scanFile_spec _ _ _ _ _ _ _ _ Efile) as (R1 & _ & _ & _ & _ & Hname & _).
      destruct (IH Hrest _ _ _ _ HI1 Erest) as (HI2 & R2 & Htracks).
      split_and!; [done|by eapply scan_rel_trans|].
      constructor.
      * exists index, s, s1. rewrite Hname.
        split_and!; [by left|done|apply scan_rel_refl|done|done].
      * eapply Forall_impl; [exact Htracks|]. intros t (i & sa & sb & Hin & HIa & Ra & Et & Rb).
        exists i, sa, sb. split_and!; [by right|done|by eapply scan_rel_trans|done|done].
    + injection E as <- <-.
      assert (HI1 : I s1) by (eapply Hstep; [by left| | |]; eauto).
      destruct (scanFile_spec _ _ _ _ _ _ _ _ Efile) as (R1 & _).
      destruct (IH Hrest _ _ _ _ HI1 Erest) as (HI2 & R2 & _).
      split_and!; [done|by eapply scan_rel_trans|done].
    + injection E as <- <-.
      destruct (scanFile_spec _ _ _ _ _ _ _ _ Efile) as (R1 & _).
      split_and!; [eapply Hstep; [by left| | |]; eauto|done|done].
    + destruct (IH Hrest _ _ _ _ HI E) as (HI2 & R2 & Htracks).
      split_and!; [done|done|]. destruct r as [tracks|]; [|done].
      eapply Forall_impl; [exact Htracks|]. intros t (i & sa & sb & Hin & Rest).
      exists i, sa, sb. split; [by right|done].
Qed.

Lemma scanLoop_rel W folder side files index s r s' :
  scanLoop W folder side index files s = (r, s') -> scan_rel s s'.
Proof.
  intros E. by destruct (scanLoop_rounds (fun _ => True) W folder side files
    (fun _ _ _ _ _ _ _ _ _ => Logic.I) index s r s' Logic.I E) as (_ & R & _).
Qed.

(** A scan that returns has parsed every audio file of the listing that the
    cache did not know when the scan began. *)
Lemma scanLoop_parses W folder side files : forall index s tracks s',
  scanLoop W folder side index files s = (Ok tracks, s') ->
  forall f, f ∈ files -> is_audio f = true ->
    metadataCache s !! Path.join folder f = None ->
    IoParse (Path.join folder f) ∈ events_since s s'.
Proof.
  induction files as [|file rest IH]; intros index s tracks0 s' E f Hf Ha Hmiss.
  - by apply elem_of_nil in Hf.
  - loop_round W folder side index file rest s E; try discriminate.
    + injection E as <- <-.
      pose proof (scanFile_spec _ _ _ _ _ _ _ _ Efile) as (R1 & _ & _ & _ & _ & _ & _ & Hmeta).
      pose proof (scanLoop_rel _ _ _ _ _ _ _ _ Erest) as R2.
      rewrite (events_since_trans _ _ _ R1 R2). apply elem_of_app.
      apply elem_of_cons in Hf as [->|Hf].
      * left. rewrite Hmiss in Hmeta. by destruct Hmeta.
      * destruct (metadataCache s1 !! Path.join folder f) as [e|] eqn:E1.
        -- left. destruct R1 as (_ & _ & _ & _ & Hnew). apply Hnew; [done|]. rewrite E1; eauto.
        -- right. eapply IH; eauto.
    + apply elem_of_cons in Hf as [->|Hf]; [congruence|]. eapply IH; eauto.
Qed.

(** The loop throws only when a file cannot be stat-ed: whatever the tag
    parser does, the scan of a listing whose audio files can be stat-ed
    returns. *)
Lemma scanLoop_returns W folder side files : forall index s,
  (forall f, f ∈ files -> is_audio f = true -> is_Some (statSize W (Path.join folder f))) ->
  exists tracks s', scanLoop W folder side index files s = (Ok tracks, s').
Proof.
  induction files as [|file rest IH]; intros index s Hstat.
  - by exists [], s.
  - assert (Hrest : forall f, f ∈ rest -> is_audio f = true ->
              is_Some (statSize W (Path.join folder f))).
    { intros f Hf. apply Hstat. by right. }
    destruct (is_audio file) eqn:Ha.
    + rewrite (scanLoop_audio _ _ _ _ _ _ _ Ha).
      destruct (scanFile W folder side index file s) as [[track|] s1] eqn:Efile.
      * destruct (IH (S index) s1 Hrest) as (tracks & s2 & ->). eauto.
      * destruct (scanFile_spec _ _ _ _ _ _ _ _ Efile) as (_ & _ & _ & Hnone & _).
        destruct (Hstat file) as [sz Hsz]; [by left|done|congruence].
    + rewrite (scanLoop_skip _ _ _ _ _ _ Ha). eauto.
Qed.

(** ** A folder, and the two folders *)

Lemma getSongs_cases W folder side s r s' :
  getSongsFromFolder W folder side s = (r, s') ->
  match readdir W folder with
  | DirMissing => r = Ok [] ∧ s' = s
  | DirError => r = Thrown ∧ s' = s
  | DirListing files => scanLoop W folder side 0 files s = (r, s')
  end.
Proof.
  unfold getSongsFromFolder. destruct (readdir W folder); [| |done];
    by intros [= <- <-].
Qed.

Lemma getSongs_rel W folder side s r s' :
  getSongsFromFolder W folder side s = (r, s') -> scan_rel s s'.
Proof.
  intros E%getSongs_cases. destruct (readdir W folder).
  - destruct E as [_ ->]. apply scan_rel_refl.
  - destruct E as [_ ->]. apply scan_rel_refl.
  - by eapply scanLoop_rel.
Qed.

Lemma getSongs_shape W folder side s tracks s' :
  getSongsFromFolder W folder side s = (Ok tracks, s') ->
  map (fun t => (id t, filename t, trackNumber t)) tracks =
  map (fun e => (trackIdOf side e.1, e.2, e.1 + 1)) (audioEntries 0 (listing W folder)).
Proof.
  intros E%getSongs_cases. unfold listing. destruct (readdir W folder).
  - by destruct E as [[= ->] _].
  - by destruct E.
  - by eapply scanLoop_shape.
Qed.

Lemma loadMusicFiles_cases W s r s' :
  loadMusicFiles W s = (r, s') ->
  match r with
  | Ok (sideA, sideB) =>
      exists s1, getSongsFromFolder W (sideAFolder W) "A" s = (Ok sideA, s1)
                 ∧ getSongsFromFolder W (sideBFolder W) "B" s1 = (Ok sideB, s')
  | Thrown =>
      getSongsFromFolder W (sideAFolder W) "A" s = (Thrown, s')
      ∨ exists sideA s1, getSongsFromFolder W (sideAFolder W) "A" s = (Ok sideA, s1)
                         ∧ getSongsFromFolder W (sideBFolder W) "B" s1 = (Thrown, s')
  end.
Proof.
  unfold loadMusicFiles, bind, ret.
  destruct (getSongsFromFolder W (sideAFolder W) "A" s) as [[sideA|] s1] eqn:EA.
  - destruct (getSongsFromFolder W (sideBFolder W) "B" s1) as [[sideB|] s2] eqn:EB;
      intros [= <- <-]; eauto.
  - intros [= <- <-]. by left.
Qed.

Lemma loadMusicFiles_rel W s r s' : loadMusicFiles W s = (r, s') -> scan_rel s s'.
Proof.
  intros E%loadMusicFiles_cases. destruct r as [[sideA sideB]|].
  - destruct E as (s1 & EA%getSongs_rel & EB%getSongs_rel). by eapply scan_rel_trans.
  - destruct E as [EA%getSongs_rel|(sideA & s1 & EA%getSongs_rel & EB%getSongs_rel)];
      [done|by eapply scan_rel_trans].
Qed.

(** ** Positions in a listing *)

Lemma audioEntries_names files : forall index,
  map snd (audioEntries index files) = List.filter is_audio files.
Proof.
  induction files as [|file rest IH]; intros index; simpl; [done|].
  destruct (is_audio file); simpl; by rewrite IH.
Qed.

Lemma audioEntries_lookup files : forall index i j f,
  audioEntries index files !! i = Some (j, f) ->
  index + i <= j ∧ files !! (j - index) = Some f ∧ is_audio f = true.
Proof.
  induction files as [|file rest IH]; intros index i j f; simpl; [done|].
  destruct (is_audio file) eqn:Ha.
  - destruct i as [|i]; simpl.
    + intros [= <- <-]. rewrite Nat.sub_diag. split_and!; [lia|done|done].
    + intros (Hle & Hf & Haf)%IH. split_and!; [lia| |done].
      by replace (j - index) with (S (j - S index)) by lia.
  - intros (Hle & Hf & Haf)%IH. split_and!; [lia| |done].
    by replace (j - index) with (S (j - S index)) by lia.
Qed.

Lemma audioEntries_all_audio files : forall index i e,
  forallb is_audio files = true ->
  audioEntries index files !! i = Some e -> e.1 = index + i.
Proof.
  induction files as [|file rest IH]; intros index i e; simpl; [done|].
  intros [Ha Hrest]%andb_true_iff. rewrite Ha. destruct i as [|i]; simpl.
  - intros [= <-]. simpl. lia.
  - intros He. rewrite (IH _ _ _ Hrest He). lia.
Qed.

Lemma audioEntries_positions_NoDup files : forall index,
  NoDup (map fst (audioEntries index files))
  ∧ forall j, j ∈ map fst (audioEntries index files) -> index <= j.
Proof.
  induction files as [|file rest IH]; intros index; simpl.
  - split; [constructor|]. by intros j Hj%elem_of_nil.
  - destruct (IH (S index)) as [Hnd Hge]. destruct (is_audio file); simpl.
    + split.
      * constructor; [|done]. intros Hin%Hge. lia.
      * intros j [->|Hj%Hge]%elem_of_cons; lia.
    + split; [done|]. intros j Hj%Hge. lia.
Qed.

Lemma getSongs_ids W folder side s tracks s' :
  getSongsFromFolder W folder side s = (Ok tracks, s') ->
  map id tracks = map (trackIdOf side) (map fst (audioEntries 0 (listing W folder))).
Proof.
  intros E%getSongs_shape.
  apply (f_equal (map (fun x : string * string * nat => x.1.1))) in E.
  rewrite !map_map in E. simpl in E. by rewrite map_map.
Qed.

Lemma getSongs_lookup W folder side s tracks s' i t :
  getSongsFromFolder W folder side s = (Ok tracks, s') ->
  tracks !! i = Some t ->
  exists index, audioEntries 0 (listing W folder) !! i = Some (index, filename t)
                ∧ id t = trackIdOf side index ∧ trackNumber t = index + 1.
Proof.
  intros E%getSongs_shape Ht.
  apply (f_equal (fun l => l !! i)) in E.
  change map with (@fmap list _) in E. rewrite !list_lookup_fmap, Ht in E. simpl in E.
  destruct (audioEntries 0 (listing W folder) !! i) as [[index f]|]; [|done].
  injection E as -> -> ->. eauto.
Qed.

(** ** Identifiers and ordinals (C1, C7) *)

(** C1, as the code has it: the tracks of a side are the audio entries of
    the directory listing, in listing order; the id of a track is
    "{side}-{index}" and its trackNumber is index+1, where index is the
    0-based position of the file in the directory listing itself (before the
    extension filter).  When every entry of the listing is an audio file,
    index is also the position in the returned list. *)
Theorem scan_ids_by_listing_position W folder side s files tracks s' :
  readdir W folder = DirListing files ->
  getSongsFromFolder W folder side s = (Ok tracks, s') ->
  map filename tracks = List.filter is_audio files
  ∧ (forall i t, tracks !! i = Some t ->
       exists index, i <= index ∧ files !! index = Some (filename t)
                     ∧ id t = trackIdOf side index ∧ trackNumber t = index + 1)
  ∧ (forallb is_audio files = true ->
     forall i t, tracks !! i = Some t ->
       id t = trackIdOf side i ∧ trackNumber t = i + 1).
Proof.
  intros Hdir E.
  assert (Hl : listing W folder = files) by (unfold listing; by rewrite Hdir).
  split_and!.
  - pose proof (getSongs_shape _ _ _ _ _ _ E) as Hs. rewrite Hl in Hs.
    apply (f_equal (map (fun x : string * string * nat => x.1.2))) in Hs.
    rewrite !map_map in Hs. simpl in Hs.
    etrans; [exact Hs|]. apply (audioEntries_names files 0).
  - intros i t Ht.
    destruct (getSongs_lookup _ _ _ _ _ _ _ _ E Ht) as (index & He & Hid & Hnum).
    rewrite Hl in He. apply audioEntries_lookup in He as (Hle & Hf & _).
    exists index. rewrite Nat.sub_0_r in Hf. split_and!; [lia|done..].
  - intros Hall i t Ht.
    destruct (getSongs_lookup _ _ _ _ _ _ _ _ E Ht) as (index & He & Hid & Hnum).
    rewrite Hl in He. apply (audioEntries_all_audio _ _ _ _ Hall) in He. simpl in He.
    subst index. done.
Qed.

(** The specification's example: side A holds "01_song.mp3" and
    "02-track.mp3" without embedded tags. *)
Example scan_two_songs :
  exists s',
    getSongsFromFolder Examples.twoSongs "/srv/musics/side a" "A" initialState =
    (Ok [mkTrack "A-0" "01 song" "Unknown Artist" "Unknown Album" "01_song.mp3"
                 "/musics/side a/01_song.mp3" None 1000 1;
         mkTrack "A-1" "02 track" "Unknown Artist" "Unknown Album" "02-track.mp3"
                 "/musics/side a/02-track.mp3" None 1000 2], s').
Proof. eexists. vm_compute. reflexivity. Qed.

(** C1 as the specification states it fails: in the listing
    ["cover.jpg"; "song.mp3"] the only audio file has position 0 in the
    filtered list, and the scan gives it the id "A-1" and trackNumber 2. *)
Lemma scan_ids_not_by_filtered_position :
  exists t s',
    getSongsFromFolder Examples.coverThenSong "/srv/musics/side a" "A" initialState
      = (Ok [t], s')
    ∧ List.filter is_audio ["cover.jpg"; "song.mp3"] = [filename t]
    ∧ id t = "A-1" ∧ id t ≠ trackIdOf "A" 0
    ∧ trackNumber t = 2 ∧ trackNumber t ≠ 0 + 1.
Proof. do 2 eexists. vm_compute. split_and!; try reflexivity; discriminate. Qed.

Lemma scan_ids_by_listing_position_witness :
  let W := Examples.coverThenSong in
  let res := getSongsFromFolder W "/srv/musics/side a" "A" initialState in
  let tracks := match res.1 with Ok ts => ts | Thrown => [] end in
  map filename tracks = List.filter is_audio ["cover.jpg"; "song.mp3"]
  ∧ (forall i t, tracks !! i = Some t ->
       exists index, i <= index ∧ ["cover.jpg"; "song.mp3"] !! index = Some (filename t)
                     ∧ id t = trackIdOf "A" index ∧ trackNumber t = index + 1)
  ∧ (forallb is_audio ["cover.jpg"; "song.mp3"] = true ->
     forall i t, tracks !! i = Some t ->
       id t = trackIdOf "A" i ∧ trackNumber t = i + 1).
Proof.
  intros W res tracks.
  apply (scan_ids_by_listing_position W "/srv/musics/side a" "A" initialState
           ["cover.jpg"; "song.mp3"] tracks res.2).
  - reflexivity.
  - vm_compute. reflexivity.
Defined.

Lemma trackIdOf_sides i j : trackIdOf "A" i ≠ trackIdOf "B" j.
Proof. unfold trackIdOf. rewrite !app_String. congruence. Qed.

Lemma getSongs_ids_NoDup W folder side s tracks s' :
  getSongsFromFolder W folder side s = (Ok tracks, s') -> NoDup (map id tracks).
Proof.
  intros ->%getSongs_ids.
  assert (Inj (=) (=) (trackIdOf side)) by (intros i j; apply trackIdOf_inj).
  apply (NoDup_fmap_2 (trackIdOf side)), audioEntries_positions_NoDup.
Qed.

(** C7: the ids of one scan, both sides together, are pairwise distinct,
    and two scans of the same directory listings give the same ids in the
    same order (whatever the cache, the tags and the sizes are). *)
Theorem track_ids_unique_and_stable W1 W2 s1 s2 A1 B1 A2 B2 s1' s2' :
  loadMusicFiles W1 s1 = (Ok (A1, B1), s1') ->
  loadMusicFiles W2 s2 = (Ok (A2, B2), s2') ->
  readdir W1 (sideAFolder W1) = readdir W2 (sideAFolder W2) ->
  readdir W1 (sideBFolder W1) = readdir W2 (sideBFolder W2) ->
  NoDup (map id (A1 ++ B1)) ∧ map id A1 = map id A2 ∧ map id B1 = map id B2.
Proof.
  intros (m1 & EA1 & EB1)%loadMusicFiles_cases (m2 & EA2 & EB2)%loadMusicFiles_cases HA HB.
  split_and!.
  - rewrite map_app. apply NoDup_app. split_and!.
    + by eapply getSongs_ids_NoDup.
    + intros x. rewrite (getSongs_ids _ _ _ _ _ _ EA1), (getSongs_ids _ _ _ _ _ _ EB1).
      change map with (@fmap list _).
      intros (i & -> & _)%list_elem_of_fmap (j & E & _)%list_elem_of_fmap.
      by apply trackIdOf_sides in E.
    + by eapply getSongs_ids_NoDup.
  - rewrite (getSongs_ids _ _ _ _ _ _ EA1), (getSongs_ids _ _ _ _ _ _ EA2).
    unfold listing. by rewrite HA.
  - rewrite (getSongs_ids _ _ _ _ _ _ EB1), (getSongs_ids _ _ _ _ _ _ EB2).
    unfold listing. by rewrite HB.
Qed.

Lemma track_ids_unique_and_stable_witness :
  let W := Examples.taggedAndBroken in
  let first := loadMusicFiles W initialState in
  let second := loadMusicFiles W first.2 in
  let tracks (r : Result (list Track * list Track)) :=
    match r with Ok p => p | Thrown => ([], []) end in
  NoDup (map id ((tracks first.1).1 ++ (tracks first.1).2))
  ∧ map id (tracks first.1).1 = map id (tracks second.1).1
  ∧ map id (tracks first.1).2 = map id (tracks second.1).2.
Proof.
  intros W first second tracks.
  apply (track_ids_unique_and_stable W W initialState first.2
           (tracks first.1).1 (tracks first.1).2 (tracks second.1).1 (tracks second.1).2
           first.2 second.2).
  - vm_compute. reflexivity.
  - vm_compute. reflexivity.
  - reflexivity.
  - reflexivity.
Defined.

(** ** Session store (C3, C4, C9, C10) *)

Lemma postSession_eq W body s :
  handle W (PostSession body) s =
  (Responded 200 (JObj [("success", JBool true); ("message", JStr "Session saved");
                        ("session", session_json (mergeSession body (userSession s)))]),
   setSession (mergeSession body (userSession s)) s).
Proof. reflexivity. Qed.

Lemma prop_absent (body : gmap string JsVal) k : body !! k = None -> prop body k = JUndefined.
Proof. unfold prop. by intros ->. Qed.

Lemma prop_present (body : gmap string JsVal) k v : body !! k = Some v -> prop body k = v.
Proof. unfold prop. by intros ->. Qed.

(** C3: a field that the body of POST /api/session does not carry keeps
    its value, and the response carries the session as it is after the
    update; nothing but the session changes. *)
Theorem post_session_keeps_absent_fields W (body : gmap string JsVal) s :
  let out := handle W (PostSession body) s in
  let u := userSession s in
  let u' := userSession out.2 in
  (body !! "currentSide" = None -> currentSide u' = currentSide u)
  ∧ (body !! "currentTrackId" = None -> currentTrackId u' = currentTrackId u)
  ∧ (body !! "currentTime" = None -> currentTime u' = currentTime u)
  ∧ (body !! "volume" = None -> volume u' = volume u)
  ∧ (body !! "tapeMode" = None -> tapeMode u' = tapeMode u)
  ∧ (body !! "isPlaying" = None -> isPlaying u' = isPlaying u)
  ∧ out.1 = Responded 200 (JObj [("success", JBool true); ("message", JStr "Session saved");
                                 ("session", session_json u')])
  ∧ metadataCache out.2 = metadataCache s ∧ trace out.2 = trace s.
Proof.
  rewrite postSession_eq. simpl.
  split_and!; try done; intros H; by rewrite (prop_absent _ _ H).
Qed.

(** The specification's example: [{volume: 40}] after an update that set
    side "B". *)
Example post_volume_after_side_B W s :
  let s1 := (handle W (PostSession {["currentSide" := JStr "B"]}) s).2 in
  let s2 := (handle W (PostSession {["volume" := JNum (Fin 40)]}) s1).2 in
  currentSide (userSession s2) = JStr "B" ∧ volume (userSession s2) = JNum (Fin 40).
Proof. done. Qed.

Lemma post_session_keeps_absent_fields_witness :
  let body : gmap string JsVal := {["volume" := JNum (Fin 40)]} in
  let s := setSession (mergeSession {["currentSide" := JStr "B"]} defaultSession) initialState in
  let out := handle Examples.twoSongs (PostSession body) s in
  currentSide (userSession out.2) = JStr "B" ∧ volume (userSession out.2) = JNum (Fin 40).
Proof.
  intros body s out.
  destruct (post_session_keeps_absent_fields Examples.twoSongs body s)
    as (Hside & _).
  split; [|reflexivity].
  etrans; [apply Hside|]; reflexivity.
Defined.

(** C10: POST /api/session takes [currentSide] only when it is truthy and
    then takes any value (no membership test); each of the other five
    fields is taken whenever it is not [undefined], whatever it is; the
    request is never rejected. *)
Theorem post_session_no_validation W (body : gmap string JsVal) s :
  let out := handle W (PostSession body) s in
  let u := userSession s in
  let u' := userSession out.2 in
  (truthy (prop body "currentSide") = false -> currentSide u' = currentSide u)
  ∧ (body !! "currentSide" = Some (JStr "") -> currentSide u' = currentSide u)
  ∧ (forall x, x ≠ "" -> body !! "currentSide" = Some (JStr x) -> currentSide u' = JStr x)
  ∧ (forall v, v ≠ JUndefined -> body !! "currentTrackId" = Some v -> currentTrackId u' = v)
  ∧ (forall v, v ≠ JUndefined -> body !! "currentTime" = Some v -> currentTime u' = v)
  ∧ (forall v, v ≠ JUndefined -> body !! "volume" = Some v -> volume u' = v)
  ∧ (forall v, v ≠ JUndefined -> body !! "tapeMode" = Some v -> tapeMode u' = v)
  ∧ (forall v, v ≠ JUndefined -> body !! "isPlaying" = Some v -> isPlaying u' = v)
  ∧ exists reply, out.1 = Responded 200 reply.
Proof.
  rewrite postSession_eq. simpl.
  split_and!; try (by eexists).
  - by intros ->.
  - intros H. by rewrite (prop_present _ _ _ H).
  - intros x Hx H. rewrite (prop_present _ _ _ H). simpl.
    by destruct (String.eqb_spec x "").
  - intros v Hv H. rewrite (prop_present _ _ _ H). by destruct v.
  - intros v Hv H. rewrite (prop_present _ _ _ H). by destruct v.
  - intros v Hv H. rewrite (prop_present _ _ _ H). by destruct v.
  - intros v Hv H. rewrite (prop_present _ _ _ H). by destruct v.
  - intros v Hv H. rewrite (prop_present _ _ _ H). by destruct v.
Qed.

Lemma post_session_no_validation_witness :
  let body : gmap string JsVal :=
    {["currentSide" := JStr "C"; "currentTrackId" := JNull;
      "volume" := JNum (Fin 1000)]} in
  let out := handle Examples.twoSongs (PostSession body) initialState in
  currentSide (userSession out.2) = JStr "C"
  ∧ currentTrackId (userSession out.2) = JNull
  ∧ volume (userSession out.2) = JNum (Fin 1000).
Proof.
  intros body out.
  destruct (post_session_no_validation Examples.twoSongs body initialState)
    as (_ & _ & Hside & Htrack & _ & Hvol & _).
  split_and!.
  - apply Hside; [discriminate | vm_compute; reflexivity].
  - apply Htrack; [discriminate | vm_compute; reflexivity].
  - apply Hvol; [discriminate | vm_compute; reflexivity].
Defined.

Lemma Qltb_lt x y : Qltb x y = true <-> (x < y)%Q.
Proof.
  unfold Qltb. rewrite negb_true_iff, <- not_true_iff_false, Qle_bool_iff.
  split; [apply Qnot_le_lt | apply Qlt_not_le].
Qed.

Lemma out_of_range_spec v :
  v ≠ NaN -> num_lt v (Fin 0) || num_lt (Fin 100) v = true <-> ¬ in_range v.
Proof.
  intros Hnan. destruct v as [| |q|]; simpl; [done|tauto| |tauto].
  rewrite orb_true_iff, !Qltb_lt. split.
  - intros [H|H] [H0 H100].
    + by apply (Qlt_not_le _ _ H).
    + by apply (Qlt_not_le _ _ H).
  - intros Hout. destruct (Qlt_le_dec q 0) as [?|H0]; [by left|].
    destruct (Qlt_le_dec 100 q) as [?|H100]; [by right|]. by destruct Hout.
Qed.

Lemma putVolume_rejected W (body : gmap string JsVal) s :
  js_lt W (prop body "volume") (Fin 0) || js_gt W (prop body "volume") (Fin 100) = true ->
  handle W (PutVolume body) s =
  (Responded 400 (error_json "Volume must be between 0 and 100"), s).
Proof. unfold handle, serve, route, putVolume. by intros ->. Qed.

Lemma putVolume_accepted W (body : gmap string JsVal) s :
  js_lt W (prop body "volume") (Fin 0) || js_gt W (prop body "volume") (Fin 100) = false ->
  handle W (PutVolume body) s =
  (Responded 200 (JObj [("success", JBool true); ("volume", prop body "volume")]),
   setSession (withVolume (prop body "volume") (userSession s)) s).
Proof. unfold handle, serve, route, putVolume. by intros ->. Qed.

(** C4: a number sent to PUT /api/session/volume is answered by 400, with
    the state left as it was, exactly when it is outside [0, 100]; a number
    inside is stored as the session volume and answered by 200.  The
    number is any that a JSON body can carry: every finite one and the two
    infinities (JSON has no NaN). *)
Theorem put_volume_rejects_out_of_range W (body : gmap string JsVal) s v :
  prop body "volume" = JNum v -> v ≠ NaN ->
  let out := handle W (PutVolume body) s in
  (((exists reply, out.1 = Responded 400 reply) ∧ out.2 = s) <-> ¬ in_range v)
  ∧ (in_range v ->
     out.1 = Responded 200 (JObj [("success", JBool true); ("volume", JNum v)])
     ∧ userSession out.2 = withVolume (JNum v) (userSession s)
     ∧ volume (userSession out.2) = JNum v).
Proof.
  intros Hv Hnan out. subst out.
  pose proof (out_of_range_spec v Hnan) as Hspec.
  destruct (num_lt v (Fin 0) || num_lt (Fin 100) v) eqn:Hcmp.
  - rewrite putVolume_rejected by (unfold js_lt, js_gt; by rewrite Hv).
    simpl. split.
    + split; [intros _; by apply Hspec | eauto].
    + intros Hin. by apply Hspec in Hin.
  - rewrite putVolume_accepted by (unfold js_lt, js_gt; by rewrite Hv).
    simpl. rewrite Hv. split; [|done].
    split.
    + by intros [[reply [=]] _].
    + intros Hout. apply Hspec in Hout. done.
Qed.

Lemma put_volume_rejects_out_of_range_witness :
  let body : gmap string JsVal := {["volume" := JNum (Fin 100)]} in
  let out := handle Examples.twoSongs (PutVolume body) initialState in
  out.1 = Responded 200 (JObj [("success", JBool true); ("volume", JNum (Fin 100))])
  ∧ userSession out.2 = withVolume (JNum (Fin 100)) defaultSession
  ∧ volume (userSession out.2) = JNum (Fin 100).
Proof.
  intros body out.
  apply (put_volume_rejects_out_of_range Examples.twoSongs body initialState (Fin 100)).
  - reflexivity.
  - discriminate.
  - split; discriminate.
Defined.

(** The four values named by the specification. *)
Example put_volume_boundaries W s :
  let put q := handle W (PutVolume {["volume" := JNum (Fin q)]}) s in
  (put (-1)%Q).1 = Responded 400 (error_json "Volume must be between 0 and 100")
  ∧ (put (-1)%Q).2 = s
  ∧ (put 101%Q).1 = Responded 400 (error_json "Volume must be between 0 and 100")
  ∧ (put 101%Q).2 = s
  ∧ volume (userSession (put 0%Q).2) = JNum (Fin 0)
  ∧ volume (userSession (put 100%Q).2) = JNum (Fin 100).
Proof. done. Qed.

(** C9: a body without [volume] passes the range test of
    PUT /api/session/volume (both comparisons with [undefined] are false);
    the handler answers 200 and the session volume becomes [undefined]. *)
Theorem put_volume_undefined_accepted W (body : gmap string JsVal) s :
  body !! "volume" = None ->
  js_lt W (prop body "volume") (Fin 0) = false
  ∧ js_gt W (prop body "volume") (Fin 100) = false
  ∧ handle W (PutVolume body) s =
    (Responded 200 (JObj [("success", JBool true); ("volume", JUndefined)]),
     setSession (withVolume JUndefined (userSession s)) s)
  ∧ volume (userSession (handle W (PutVolume body) s).2) = JUndefined.
Proof.
  intros H%prop_absent.
  assert (Hlt : js_lt W (prop body "volume") (Fin 0) = false) by by rewrite H.
  assert (Hgt : js_gt W (prop body "volume") (Fin 100) = false) by by rewrite H.
  rewrite putVolume_accepted by by rewrite Hlt, Hgt.
  rewrite H. done.
Qed.

Lemma put_volume_undefined_accepted_witness :
  volume (userSession (handle Examples.twoSongs (PutVolume ∅) initialState).2) = JUndefined.
Proof.
  apply (put_volume_undefined_accepted Examples.twoSongs ∅ initialState).
  reflexivity.
Defined.

(** ** Invariants of the cache *)

Lemma cache_inv_ext G s s' :
  metadataCache s' = metadataCache s -> cache_inv G s -> cache_inv G s'.
Proof. unfold cache_inv. by intros ->. Qed.

Lemma scanFile_inv G W folder side index file s r s' :
  fresh_ok G W -> has_slash file = false -> cache_inv G s ->
  scanFile W folder side index file s = (r, s') -> cache_inv G s'.
Proof.
  intros Hfresh Hfile Hinv E.
  destruct (scanFile_spec _ _ _ _ _ _ _ _ E) as (_ & Hother & _ & Hr).
  destruct r as [t|]; [|by destruct Hr as [_ ->]].
  destruct Hr as (_ & _ & _ & _ & Hmeta).
  destruct (metadataCache s !! Path.join folder file) as [e|] eqn:Hc;
    [by destruct Hmeta as [-> _]|].
  destruct Hmeta as [_ Hmeta].
  destruct (parseFile W (Path.join folder file)) as [tags|] eqn:Hp.
  - destruct Hmeta as (Ht & Ha & Hal & Hcache).
    intros folder' file' e' Hfile' He'.
    destruct (decide (Path.join folder' file' = Path.join folder file)) as [Heq|Hne].
    + destruct (join_inj _ _ _ _ Hfile' Hfile Heq) as [-> ->].
      rewrite Hcache, lookup_insert_eq in He'. injection He' as <-.
      rewrite Ht, Ha, Hal. by apply Hfresh.
    + rewrite (Hother _ Hne) in He'. by apply Hinv.
  - destruct Hmeta as [Hcache _]. by eapply cache_inv_ext.
Qed.

Lemma getSongs_rounds (I : ServerState -> Prop) W folder side s r s' :
  (forall f index s r s', f ∈ listing W folder -> is_audio f = true -> I s ->
     scanFile W folder side index f s = (r, s') -> I s') ->
  I s -> getSongsFromFolder W folder side s = (r, s') ->
  I s' ∧ match r with
         | Ok tracks => Forall (round_of I W folder side s s') tracks
         | Thrown => True
         end.
Proof.
  intros Hstep HI E%getSongs_cases. unfold round_of, listing in *.
  destruct (readdir W folder) as [| |files].
  - destruct E as [-> ->]. by split.
  - destruct E as [-> ->]. by split.
  - destruct (scanLoop_rounds I W folder side files Hstep 0 s r s' HI E) as (HI' & _ & Hr).
    split; [done|]. destruct r as [tracks|]; [|done].
    eapply Forall_impl; [exact Hr|]. intros t (i & s1 & s2 & H). by exists i, s1, s2.
Qed.

Lemma round_of_weaken I W folder side s0 s s' s1' t :
  scan_rel s0 s -> scan_rel s' s1' ->
  round_of I W folder side s s' t -> round_of I W folder side s0 s1' t.
Proof.
  intros R0 R1 (i & s1 & s2 & Hin & HI & Ra & E & Rb).
  exists i, s1, s2. split_and!; eauto using scan_rel_trans.
Qed.

Lemma loadMusicFiles_rounds (I : ServerState -> Prop) W s r s' :
  (forall folder side f index s r s', f ∈ listing W folder -> is_audio f = true -> I s ->
     scanFile W folder side index f s = (r, s') -> I s') ->
  I s -> loadMusicFiles W s = (r, s') ->
  I s' ∧ match r with
         | Ok (sideA, sideB) =>
             Forall (round_of I W (sideAFolder W) "A" s s') sideA
             ∧ Forall (round_of I W (sideBFolder W) "B" s s') sideB
         | Thrown => True
         end.
Proof.
  intros Hstep HI E%loadMusicFiles_cases. destruct r as [[sideA sideB]|].
  - destruct E as (s1 & EA & EB).
    destruct (getSongs_rounds I _ _ _ _ _ _ (Hstep _ _) HI EA) as [HI1 HA].
    destruct (getSongs_rounds I _ _ _ _ _ _ (Hstep _ _) HI1 EB) as [HI2 HB].
    apply getSongs_rel in EA, EB.
    split_and!; [done| |].
    + eapply Forall_impl; [exact HA|]. intros t.
      apply round_of_weaken; [apply scan_rel_refl|done].
    + eapply Forall_impl; [exact HB|]. intros t.
      apply round_of_weaken; [done|apply scan_rel_refl].
  - destruct E as [EA|(sideA & s1 & EA & EB)].
    + by destruct (getSongs_rounds I _ _ _ _ _ _ (Hstep _ _) HI EA) as [HI1 _].
    + destruct (getSongs_rounds I _ _ _ _ _ _ (Hstep _ _) HI EA) as [HI1 _].
      by destruct (getSongs_rounds I _ _ _ _ _ _ (Hstep _ _) HI1 EB) as [HI2 _].
Qed.

Lemma listing_no_slash W folder f :
  entries_ok W -> f ∈ listing W folder -> has_slash f = false.
Proof.
  unfold listing. intros Hok Hf.
  destruct (readdir W folder) as [| |files] eqn:Hdir; try by apply elem_of_nil in Hf.
  by eapply Hok.
Qed.

Lemma scan_step_inv G W :
  fresh_ok G W -> entries_ok W ->
  forall folder side f index s r s', f ∈ listing W folder -> is_audio f = true ->
    cache_inv G s -> scanFile W folder side index f s = (r, s') -> cache_inv G s'.
Proof.
  intros Hfresh Hok folder side f index s r s' Hf _ Hinv E.
  eapply scanFile_inv; eauto using listing_no_slash.
Qed.

Lemma loadMusicFiles_inv G W s r s' :
  fresh_ok G W -> entries_ok W -> cache_inv G s ->
  loadMusicFiles W s = (r, s') -> cache_inv G s'.
Proof.
  intros Hfresh Hok Hinv E.
  by destruct (loadMusicFiles_rounds (cache_inv G) W s r s'
                 (scan_step_inv G W Hfresh Hok) Hinv E) as [H _].
Qed.

Lemma cache_inv_empty G s : metadataCache s = ∅ -> cache_inv G s.
Proof. intros Hc folder file e _. by rewrite Hc, lookup_empty. Qed.

Lemma handle_inv G W r s :
  fresh_ok G W -> entries_ok W -> cache_inv G s -> cache_inv G (handle W r s).2.
Proof.
  intros Hfresh Hok Hinv.
  destruct r; unfold handle, serve, route; try done.
  - unfold getHealth, bind, ret.
    destruct (loadMusicFiles W s) as [[p|] s1] eqn:E; simpl;
      by eapply loadMusicFiles_inv.
  - unfold getPlaylists, try_catch, bind, ret, emit.
    destruct (loadMusicFiles W s) as [[p|] s1] eqn:E; simpl;
      apply (loadMusicFiles_inv G) in E; try done; by eapply cache_inv_ext.
  - unfold getPlaylistsSide, try_catch, bind, ret, emit.
    destruct (loadMusicFiles W s) as [[p|] s1] eqn:E; simpl;
      apply (loadMusicFiles_inv G) in E; try done;
      try (by eapply cache_inv_ext);
      destruct (String.eqb _ "A"); [done|]; by destruct (String.eqb _ "B").
  - unfold putVolume. by destruct (_ || _).
  - unfold postRefresh, try_catch, bind, ret, emit, setCache. simpl.
    match goal with |- context [loadMusicFiles W ?s0] =>
      destruct (loadMusicFiles W s0) as [[p|] s1] eqn:E; simpl;
        apply (loadMusicFiles_inv G) in E; try done;
        try (by apply cache_inv_empty); by eapply cache_inv_ext
    end.
Qed.

Lemma startup_inv G W s :
  fresh_ok G W -> entries_ok W -> cache_inv G s -> cache_inv G (startup W s).2.
Proof.
  intros Hfresh Hok Hinv. unfold startup, try_catch, bind, ret, emit.
  destruct (loadMusicFiles W s) as [[p|] s1] eqn:E; simpl;
    apply (loadMusicFiles_inv G) in E; try done; by eapply cache_inv_ext.
Qed.

Lemma reachable_inv G (P : World -> Prop) s :
  (forall W, P W -> fresh_ok G W ∧ entries_ok W) ->
  reachable P s -> cache_inv G s.
Proof.
  intros HP. induction 1 as [|W s HW _ IH|W r s HW _ IH].
  - by apply cache_inv_empty.
  - destruct (HP W HW). by apply startup_inv.
  - destruct (HP W HW). by apply handle_inv.
Qed.

Lemma tag_or_nonempty tag b : b ≠ "" -> tag_or tag b ≠ "".
Proof. intros Hb H. by apply tag_or_fixed in H. Qed.

Lemma fresh_stable W : fresh_ok entry_stable W.
Proof.
  intros folder file tags cover _ _. unfold entry_stable; simpl. split_and!.
  - apply tag_or_fixed.
  - by apply tag_or_nonempty.
  - by apply tag_or_nonempty.
Qed.

Lemma fresh_default W path : untagged W path = true -> fresh_ok (entry_default path) W.
Proof.
  unfold untagged. intros Hun folder file tags cover _ Hp Heq.
  rewrite Heq in Hp. rewrite Hp in Hun.
  apply andb_true_iff in Hun as [[Ht Ha]%andb_true_iff Hal]. simpl.
  by rewrite !tag_or_blank.
Qed.

Lemma getSongs_parses W folder side s tracks s' f :
  getSongsFromFolder W folder side s = (Ok tracks, s') ->
  f ∈ listing W folder -> is_audio f = true ->
  metadataCache s !! Path.join folder f = None ->
  IoParse (Path.join folder f) ∈ events_since s s'.
Proof.
  intros E%getSongs_cases. unfold listing. destruct (readdir W folder) as [| |files].
  - by intros ?%elem_of_nil.
  - by intros ?%elem_of_nil.
  - by eapply scanLoop_parses.
Qed.

Lemma loadMusicFiles_parses W s sideA sideB s' folder f :
  loadMusicFiles W s = (Ok (sideA, sideB), s') ->
  folder = sideAFolder W ∨ folder = sideBFolder W ->
  f ∈ listing W folder -> is_audio f = true ->
  metadataCache s !! Path.join folder f = None ->
  IoParse (Path.join folder f) ∈ events_since s s'.
Proof.
  intros (s1 & EA & EB)%loadMusicFiles_cases Hfolder Hf Ha Hmiss.
  pose proof (getSongs_rel _ _ _ _ _ _ EA) as RA.
  pose proof (getSongs_rel _ _ _ _ _ _ EB) as RB.
  rewrite (events_since_trans _ _ _ RA RB). apply elem_of_app.
  destruct Hfolder as [->| ->].
  - left. by eapply getSongs_parses.
  - destruct (metadataCache s1 !! Path.join (sideBFolder W) f) as [e|] eqn:E1.
    + left. destruct RA as (_ & _ & _ & _ & Hnew). apply Hnew; [done|]. rewrite E1; eauto.
    + right. by eapply getSongs_parses.
Qed.

(** A track whose file had a stable entry when the scan began carries the
    values of that entry. *)
Lemma round_reads_entry W folder side s s' t e :
  entries_ok W -> cache_inv entry_stable s ->
  round_of (fun _ => True) W folder side s s' t ->
  metadataCache s !! Path.join folder (filename t) = Some e ->
  same_metadata t e.
Proof.
  intros Hok Hinv (i & s1 & s2 & Hin & _ & (_ & _ & Hkeep & _) & E & _) He.
  destruct (scanFile_spec _ _ _ _ _ _ _ _ E) as (_ & _ & _ & _ & _ & _ & _ & Hmeta).
  rewrite (Hkeep _ _ He) in Hmeta. destruct Hmeta as (_ & Ht & Ha & Hal & Hc).
  destruct (Hinv folder (filename t) e (listing_no_slash _ _ _ Hok Hin) He)
    as (Gt & Ga & Gal).
  unfold same_metadata. rewrite Ht, Ha, Hal, Hc. split_and!; [| | |done].
  - by apply str_or_fixed.
  - apply str_or_fixed. by intros ?.
  - apply str_or_fixed. by intros ?.
Qed.

(** A track of an untagged file carries the defaults, whether its entry
    was read from the cache or made by this round. *)
Lemma round_defaults W folder side s s' t :
  entries_ok W -> untagged W (Path.join folder (filename t)) = true ->
  round_of (cache_inv (entry_default (Path.join folder (filename t)))) W folder side s s' t ->
  has_defaults t.
Proof.
  intros Hok Hun (i & s1 & s2 & Hin & Hinv & _ & E & _).
  destruct (scanFile_spec _ _ _ _ _ _ _ _ E) as (_ & _ & _ & _ & _ & _ & _ & Hmeta).
  unfold has_defaults.
  destruct (metadataCache s1 !! Path.join folder (filename t)) as [e|] eqn:He.
  - destruct Hmeta as (_ & -> & -> & -> & _).
    destruct (Hinv folder (filename t) e (listing_no_slash _ _ _ Hok Hin) He eq_refl)
      as (-> & -> & ->).
    unfold str_or. split_and!; by case_match.
  - destruct Hmeta as [_ Hmeta]. unfold untagged in Hun.
    destruct (parseFile W (Path.join folder (filename t))) as [tags|].
    + apply andb_true_iff in Hun as [[Ht Ha]%andb_true_iff Hal].
      destruct Hmeta as (-> & -> & -> & _). by rewrite !tag_or_blank.
    + by destruct Hmeta as (_ & -> & -> & -> & _).
Qed.

Lemma handle_keeps W r s k e :
  r ≠ PostRefresh ->
  metadataCache s !! k = Some e -> metadataCache (handle W r s).2 !! k = Some e.
Proof.
  intros Hr He.
  assert (Hscan : forall p s1, loadMusicFiles W s = (p, s1) ->
                    metadataCache s1 !! k = Some e).
  { intros p s1 (_ & _ & Hkeep & _)%loadMusicFiles_rel. by apply Hkeep. }
  destruct r; unfold handle, serve, route; try done.
  - unfold getHealth, bind, ret.
    destruct (loadMusicFiles W s) as [[p|] s1] eqn:E; simpl; by eapply Hscan.
  - unfold getPlaylists, try_catch, bind, ret, emit.
    destruct (loadMusicFiles W s) as [[p|] s1] eqn:E; simpl; by eapply Hscan.
  - unfold getPlaylistsSide, try_catch, bind, ret, emit.
    destruct (loadMusicFiles W s) as [[p|] s1] eqn:E; simpl; [|by eapply Hscan].
    destruct (String.eqb _ "A"); [by eapply Hscan|].
    destruct (String.eqb _ "B"); by eapply Hscan.
  - unfold putVolume. by destruct (_ || _).
Qed.

Lemma postRefresh_cases W s :
  let s0 := mkState (userSession s) ∅ (trace s) in
  match loadMusicFiles W s0 with
  | (Ok p, s1) =>
      exists reply, handle W PostRefresh s = (Responded 200 reply, s1)
  | (Thrown, s1) =>
      exists reply s2, handle W PostRefresh s = (Responded 500 reply, s2)
                       ∧ metadataCache s2 = metadataCache s1
                       ∧ trace s2 = (trace s1 ++ [IoConsoleError "Error refreshing playlists:"])%list
  end.
Proof.
  unfold handle, serve, route, postRefresh, try_catch, bind, ret, emit, setCache. simpl.
  destruct (loadMusicFiles W _) as [[p|] s1]; simpl; eauto.
Qed.

(** ** Metadata cache (C5) *)

(** C5: in a running server, a scan neither changes nor re-parses what the
    cache holds: every entry present when the scan begins is still there,
    unchanged, when it ends, its file is not parsed, and the track of that
    file carries exactly the four stored values.  No request other than
    POST /api/refresh removes or changes an entry.  POST /api/refresh
    rescans from the empty cache: the entries it leaves were all extracted
    during that request, and when it answers 200 every audio file of both
    listings has been parsed again. *)
Theorem cache_entries_reused_verbatim W s :
  entries_ok W -> reachable entries_ok s ->
  (forall r s', loadMusicFiles W s = (r, s') ->
     (forall k e, metadataCache s !! k = Some e ->
        metadataCache s' !! k = Some e ∧ IoParse k ∉ events_since s s')
     ∧ forall sideA sideB, r = Ok (sideA, sideB) ->
         (forall t e, t ∈ sideA ->
            metadataCache s !! Path.join (sideAFolder W) (filename t) = Some e ->
            same_metadata t e)
         ∧ (forall t e, t ∈ sideB ->
            metadataCache s !! Path.join (sideBFolder W) (filename t) = Some e ->
            same_metadata t e))
  ∧ (forall r k e, r ≠ PostRefresh -> metadataCache s !! k = Some e ->
       metadataCache (handle W r s).2 !! k = Some e)
  ∧ (let out := handle W PostRefresh s in
     (forall k, is_Some (metadataCache out.2 !! k) -> IoParse k ∈ events_since s out.2)
     ∧ (forall reply folder f,
          out.1 = Responded 200 reply ->
          folder = sideAFolder W ∨ folder = sideBFolder W ->
          f ∈ listing W folder -> is_audio f = true ->
          IoParse (Path.join folder f) ∈ events_since s out.2)).
Proof.
  intros Hok Hreach.
  assert (Hinv : cache_inv entry_stable s).
  { eapply reachable_inv; [|exact Hreach]. intros W' HW'. split; [apply fresh_stable|done]. }
  split_and!.
  - intros r s' E. split.
    + intros k e He. destruct (loadMusicFiles_rel _ _ _ _ E) as (_ & _ & Hkeep & Hmiss & _).
      split; [by apply Hkeep|]. intros Hin%Hmiss. congruence.
    + intros sideA sideB ->.
      destruct (loadMusicFiles_rounds (fun _ => True) W s _ s'
                  (fun _ _ _ _ _ _ _ _ _ _ _ => Logic.I) Logic.I E) as (_ & HA & HB).
      rewrite Forall_forall in HA, HB.
      split; intros t e Ht He; eapply round_reads_entry; eauto.
  - intros r k e. apply handle_keeps.
  - simpl. pose proof (postRefresh_cases W s) as Hcases. simpl in Hcases.
    set (s0 := mkState (userSession s) ∅ (trace s)) in *.
    assert (Hev : forall s1, events_since s s1 = events_since s0 s1) by done.
    destruct (loadMusicFiles W s0) as [[[sideA sideB]|] s1] eqn:E.
    + destruct Hcases as [reply ->]. simpl.
      pose proof (loadMusicFiles_rel _ _ _ _ E) as (_ & _ & _ & _ & Hnew).
      split.
      * intros k Hk. rewrite Hev. by apply Hnew.
      * intros _ folder f _ Hfolder Hf Ha. rewrite Hev.
        by eapply loadMusicFiles_parses.
    + destruct Hcases as (reply & s2 & -> & Hc2 & Ht2). simpl.
      pose proof (loadMusicFiles_rel _ _ _ _ E) as (_ & Ht1 & _ & _ & Hnew).
      split; [|done].
      intros k Hk. rewrite Hc2 in Hk.
      assert (Hs2 : events_since s s2 =
                    (events_since s0 s1 ++ [IoConsoleError "Error refreshing playlists:"])%list).
      { apply events_since_app. rewrite Ht2, Ht1. by rewrite <- (assoc_L (++)%list). }
      rewrite Hs2. apply elem_of_app. left. by apply Hnew.
Qed.

Lemma world_entries_ok listA listB stat parse :
  (forall files, listA = DirListing files -> Forall (fun f => has_slash f = false) files) ->
  (forall files, listB = DirListing files -> Forall (fun f => has_slash f = false) files) ->
  entries_ok (Examples.world listA listB stat parse).
Proof.
  intros HA HB folder files f. unfold Examples.world; simpl.
  destruct (String.eqb folder "/srv/musics/side a").
  - intros Hl Hf. specialize (HA _ Hl). rewrite Forall_forall in HA. by apply HA.
  - destruct (String.eqb folder "/srv/musics/side b"); [|done].
    intros Hl Hf. specialize (HB _ Hl). rewrite Forall_forall in HB. by apply HB.
Qed.

Lemma taggedAndBroken_entries_ok : entries_ok Examples.taggedAndBroken.
Proof.
  apply world_entries_ok; intros files [= <-]; repeat constructor.
Qed.

Lemma cache_entries_reused_verbatim_witness :
  let W := Examples.taggedAndBroken in
  let s := (handle W GetPlaylists initialState).2 in
  let t := mkTrack "A-0" "Song" "Band" "Unknown Album" "a_b.mp3"
                   "/musics/side a/a_b.mp3" (Some "/covers/A-0.jpg") 42 1 in
  metadataCache s !! "/srv/musics/side a/a_b.mp3"
    = Some (mkEntry "Song" "Band" "Unknown Album" (Some "/covers/A-0.jpg"))
  ∧ same_metadata t (mkEntry "Song" "Band" "Unknown Album" (Some "/covers/A-0.jpg")).
Proof.
  intros W s t.
  assert (Hentry : metadataCache s !! "/srv/musics/side a/a_b.mp3"
            = Some (mkEntry "Song" "Band" "Unknown Album" (Some "/covers/A-0.jpg")))
    by (vm_compute; reflexivity).
  split; [exact Hentry|].
  assert (Hok : entries_ok W) by exact taggedAndBroken_entries_ok.
  assert (Hreach : reachable entries_ok s) by (apply reach_request; [exact Hok | apply reach_init]).
  destruct (cache_entries_reused_verbatim W s Hok Hreach) as (Hscan & _).
  destruct (Hscan (loadMusicFiles W s).1 (loadMusicFiles W s).2) as [_ Hread];
    [vm_compute; reflexivity|].
  edestruct Hread as [HsideA _]; [vm_compute; reflexivity|].
  apply HsideA; [apply list_elem_of_here | exact Hentry].
Defined.

(** A second scan of the example library: the tagged song is served from
    the cache, the unreadable one is parsed again. *)
Example second_scan_parses_only_misses :
  let W := Examples.taggedAndBroken in
  let s := (handle W GetPlaylists initialState).2 in
  events_since s (loadMusicFiles W s).2 =
  [IoParse "/srv/musics/side a/bad-file.MP3";
   IoConsoleError "Error reading metadata for bad-file.MP3:"].
Proof. vm_compute. reflexivity. Qed.

(** ** Tag reader failures (C6) *)

(** C6, as the code has it: let the parse of a file fail, or find none
    of the three text tags, and let the scan start either without a cache
    entry for that file (so that the file is parsed) or in a server that has
    seen the file in no other condition.  Then every track that the scan returns for that file
    has the default title (file name without extension, "_" and "-" replaced
    by spaces, trimmed), the artist "Unknown Artist" and the album
    "Unknown Album".  The tag parser cannot make a scan fail: when both
    folders can be listed and every audio entry can be stat-ed, the scan
    returns one track per audio entry and GET /api/playlists answers 200,
    whatever the parser does. *)
Theorem parse_failure_gives_defaults W s path :
  entries_ok W -> untagged W path = true ->
  metadataCache s !! path = None
  ∨ reachable (fun W' => entries_ok W' ∧ untagged W' path = true) s ->
  (forall sideA sideB s', loadMusicFiles W s = (Ok (sideA, sideB), s') ->
     (forall t, t ∈ sideA -> Path.join (sideAFolder W) (filename t) = path -> has_defaults t)
     ∧ (forall t, t ∈ sideB -> Path.join (sideBFolder W) (filename t) = path ->
          has_defaults t))
  ∧ (stat_ok W (sideAFolder W) -> stat_ok W (sideBFolder W) ->
     exists sideA sideB s',
       loadMusicFiles W s = (Ok (sideA, sideB), s')
       ∧ map filename sideA = List.filter is_audio (listing W (sideAFolder W))
       ∧ map filename sideB = List.filter is_audio (listing W (sideBFolder W))
       ∧ exists reply, (handle W GetPlaylists s).1 = Responded 200 reply).
Proof.
  intros Hok Hun Hreach. split.
  - intros sideA sideB s' E.
    assert (Hinv : cache_inv (entry_default path) s).
    { destruct Hreach as [Hmiss|Hreach].
      - intros folder file e _ He Hkey. rewrite Hkey in He. congruence.
      - eapply reachable_inv; [|exact Hreach].
        intros W' [HW' Hun']. split; [by apply fresh_default|done]. }
    destruct (loadMusicFiles_rounds _ W s _ s'
                (scan_step_inv _ W (fresh_default W path Hun) Hok) Hinv E) as (_ & HA & HB).
    rewrite Forall_forall in HA, HB.
    split; intros t Ht Hpath.
    + specialize (HA t Ht). rewrite <- Hpath in HA, Hun. by eapply round_defaults.
    + specialize (HB t Ht). rewrite <- Hpath in HB, Hun. by eapply round_defaults.
  - intros HA HB.
    assert (Hfolder : forall folder side s0, stat_ok W folder ->
              exists tracks s1, getSongsFromFolder W folder side s0 = (Ok tracks, s1)
                ∧ map filename tracks = List.filter is_audio (listing W folder)).
    { intros folder side s0 Hst. unfold stat_ok in Hst.
      assert (exists tracks s1, getSongsFromFolder W folder side s0 = (Ok tracks, s1))
        as (tracks & s1 & E).
      { unfold getSongsFromFolder. destruct (readdir W folder) as [| |files]; [by eexists _, _|done|].
        by apply scanLoop_returns. }
      exists tracks, s1. split; [done|].
      pose proof (getSongs_shape _ _ _ _ _ _ E) as Hs.
      apply (f_equal (map (fun x : string * string * nat => x.1.2))) in Hs.
      rewrite !map_map in Hs. simpl in Hs.
      etrans; [exact Hs|]. apply (audioEntries_names _ 0). }
    destruct (Hfolder _ "A" s HA) as (sideA & s1 & EA & HnA).
    destruct (Hfolder _ "B" s1 HB) as (sideB & s2 & EB & HnB).
    assert (E : loadMusicFiles W s = (Ok (sideA, sideB), s2)).
    { unfold loadMusicFiles, bind, ret. by rewrite EA, EB. }
    exists sideA, sideB, s2. split_and!; try done.
    unfold handle, serve, route, getPlaylists, try_catch, bind, ret. rewrite E. simpl.
    by eexists.
Qed.

(** C6 as the specification states it fails for a file that failed to
    parse only after it was cached: "a_b.mp3" is tagged during the first
    scan and unreadable afterwards; the next scan does not parse it and
    returns the stored title "Song" and artist "Band", not the defaults. *)
Lemma parse_failure_serves_cached_tags :
  let before := Examples.taggedAndBroken in
  let after :=
    Examples.world (DirListing ["a_b.mp3"]) (DirListing [])
                   (fun _ => Some 42%Z) (fun _ => None) in
  let s := (handle before GetPlaylists initialState).2 in
  let t := mkTrack "A-0" "Song" "Band" "Unknown Album" "a_b.mp3"
                   "/musics/side a/a_b.mp3" (Some "/covers/A-0.jpg") 42 1 in
  reachable entries_ok s
  ∧ entries_ok after
  ∧ parseFile after "/srv/musics/side a/a_b.mp3" = None
  ∧ untagged after "/srv/musics/side a/a_b.mp3" = true
  ∧ loadMusicFiles after s = (Ok ([t], []), s)
  ∧ Path.join (sideAFolder after) (filename t) = "/srv/musics/side a/a_b.mp3"
  ∧ default_title (filename t) = "a b"
  ∧ ¬ has_defaults t.
Proof.
  intros before after s t. split_and!.
  - apply reach_request; [exact taggedAndBroken_entries_ok|apply reach_init].
  - apply world_entries_ok; intros files [= <-]; repeat constructor.
  - reflexivity.
  - reflexivity.
  - vm_compute. reflexivity.
  - reflexivity.
  - vm_compute. reflexivity.
  - intros (Ht & _). vm_compute in Ht. discriminate Ht.
Qed.

Lemma parse_failure_gives_defaults_witness :
  let t := mkTrack "A-1" "bad file" "Unknown Artist" "Unknown Album" "bad-file.MP3"
                   "/musics/side a/bad-file.MP3" None 42 2 in
  has_defaults t.
Proof.
  intros t.
  pose (W := Examples.taggedAndBroken).
  pose (s := (handle W GetPlaylists initialState).2).
  assert (Hok : entries_ok W) by exact taggedAndBroken_entries_ok.
  assert (Hreach : reachable (fun W' => entries_ok W'
            ∧ untagged W' "/srv/musics/side a/bad-file.MP3" = true) s).
  { apply reach_request; [split; [exact Hok | reflexivity] | apply reach_init]. }
  destruct (parse_failure_gives_defaults W s "/srv/musics/side a/bad-file.MP3"
              Hok eq_refl (or_intror Hreach)) as (Hscan & _).
  edestruct Hscan as [HsideA _]; [vm_compute; reflexivity|].
  apply HsideA; [apply list_elem_of_further, list_elem_of_here | reflexivity].
Defined.

(** The unreadable file of the example library, as GET /api/playlists
    reports it. *)
Example broken_file_track :
  exists first rest sideB s',
    loadMusicFiles Examples.taggedAndBroken initialState = (Ok (first :: rest, sideB), s')
    ∧ rest = [mkTrack "A-1" "bad file" "Unknown Artist" "Unknown Album" "bad-file.MP3"
                      "/musics/side a/bad-file.MP3" None 42 2].
Proof. do 4 eexists. vm_compute. split; reflexivity. Qed.

(** ** Handler failures (C2) *)

Lemma health_escapes W s s' :
  loadMusicFiles W s = (Thrown, s') -> handle W GetHealth s = (Escaped, s').
Proof. unfold handle, serve, route, getHealth, bind. by intros ->. Qed.

(** Every handler other than GET /api/health always produces a response:
    those that scan wrap the scan in [try]/[catch]. *)
Lemma other_routes_respond W r s :
  r ≠ GetHealth -> exists status reply, (handle W r s).1 = Responded status reply.
Proof.
  intros Hr. destruct r; unfold handle, serve, route; try done; try (by eexists _, _).
  - unfold getPlaylists, try_catch, bind, ret, emit.
    destruct (loadMusicFiles W s) as [[p|] s1]; by eexists _, _.
  - unfold getPlaylistsSide, try_catch, bind, ret, emit.
    destruct (loadMusicFiles W s) as [[p|] s1]; simpl; [|by eexists _, _].
    destruct (String.eqb _ "A"); [by eexists _, _|].
    destruct (String.eqb _ "B"); by eexists _, _.
  - unfold putVolume. destruct (_ || _); by eexists _, _.
  - unfold postRefresh, try_catch, bind, ret, emit, setCache. simpl.
    destruct (loadMusicFiles W _) as [[p|] s1]; by eexists _, _.
Qed.

(** C2 fails for GET /api/health: with a song in side A that cannot be
    stat-ed the scan throws; GET /api/playlists turns that into a 500, while
    the handler of GET /api/health, which has no [try]/[catch], lets the
    exception out and produces no response. *)
Theorem health_scan_failure_escapes :
  loadMusicFiles Examples.danglingLink initialState = (Thrown, initialState)
  ∧ handle Examples.danglingLink GetHealth initialState = (Escaped, initialState)
  ∧ (handle Examples.danglingLink GetPlaylists initialState).1
    = Responded 500 (error_json "Failed to load playlists").
Proof. vm_compute. done. Qed.

(** ** Player UI: switching sides (C8) *)

Lemma switchSide_blocked B side p :
  truthy (PlayerUI.tapeMode p) && PlayerUI.isPlaying p = true ->
  PlayerUI.switchSide B side p = PlayerUI.setStatus "Stop playback to flip tape" p.
Proof. unfold PlayerUI.switchSide, bind, PlayerUI.get. by intros ->. Qed.

Lemma updateSideUI_keeps p :
  PlayerUI.currentSide (PlayerUI.updateSideUI p).2 = PlayerUI.currentSide p
  ∧ PlayerUI.currentTrackIndex (PlayerUI.updateSideUI p).2 = PlayerUI.currentTrackIndex p
  ∧ exists p', PlayerUI.updateSideUI p = (Ok tt, p').
Proof. split_and!; [done|done|by eexists]. Qed.

Lemma updateTrackList_keeps p :
  PlayerUI.currentSide (PlayerUI.updateTrackList p).2 = PlayerUI.currentSide p
  ∧ PlayerUI.currentTrackIndex (PlayerUI.updateTrackList p).2 = PlayerUI.currentTrackIndex p.
Proof.
  unfold PlayerUI.updateTrackList, bind, PlayerUI.get, of_option, PlayerUI.modify.
  by destruct (PlayerUI.getCurrentPlaylist p).
Qed.

Lemma saveSession_keeps B p :
  PlayerUI.currentSide (PlayerUI.saveSession B p).2 = PlayerUI.currentSide p
  ∧ PlayerUI.currentTrackIndex (PlayerUI.saveSession B p).2 = PlayerUI.currentTrackIndex p.
Proof.
  unfold PlayerUI.saveSession, try_catch, bind, PlayerUI.get, of_option, PlayerUI.modify.
  by destruct (PlayerUI.getCurrentPlaylist p).
Qed.

Lemma loadTrack_keeps B index restoreTime p r p' :
  PlayerUI.loadTrack B index restoreTime p = (r, p') ->
  PlayerUI.currentSide p' = PlayerUI.currentSide p
  ∧ (PlayerUI.currentTrackIndex p' = index
     ∨ PlayerUI.currentTrackIndex p' = PlayerUI.currentTrackIndex p).
Proof.
  unfold PlayerUI.loadTrack. unfold bind at 1 2. unfold PlayerUI.get, of_option.
  destruct (PlayerUI.getCurrentPlaylist p) as [playlist|];
    [|intros [= <- <-]; by split; [|right]].
  unfold ret at 1.
  destruct (playlist !! index) as [track|]; [|intros [= <- <-]; by split; [|right]].
  unfold bind, PlayerUI.modify.
  destruct (restoreTime && num_lt (Fin 0) (PlayerUI.savedTimestamp p)); unfold ret;
    match goal with
    | |- context [PlayerUI.updateTrackList ?q] =>
        pose proof (updateTrackList_keeps q) as [Hs Hi];
        destruct (PlayerUI.updateTrackList q) as [[[]|] q1]; simpl in Hs, Hi;
        [pose proof (saveSession_keeps B q1) as [Hs' Hi'];
         intros E; rewrite E in Hs', Hi'; simpl in Hs', Hi';
         split; [congruence|left; congruence]
        |intros [= <- <-]; split; [congruence|left; congruence]]
    end.
Qed.

Lemma switchSide_unblocked B side p r p' :
  truthy (PlayerUI.tapeMode p) && PlayerUI.isPlaying p = false ->
  PlayerUI.switchSide B side p = (r, p') ->
  PlayerUI.currentSide p' = side ∧ PlayerUI.currentTrackIndex p' = 0.
Proof.
  intros H. unfold PlayerUI.switchSide. unfold bind at 1. unfold PlayerUI.get. rewrite H.
  unfold bind at 1 2 3 4. unfold PlayerUI.modify at 1 2 3.
  set (p0 := PlayerUI.set_currentTrackIndex 0 _).
  assert (H0 : PlayerUI.currentSide p0 = side ∧ PlayerUI.currentTrackIndex p0 = 0) by done.
  clearbody p0. destruct H0 as [Hside Hindex].
  destruct (updateSideUI_keeps p0) as (Hs1 & Hi1 & p1 & E1). rewrite E1 in Hs1, Hi1 |- *.
  simpl in Hs1, Hi1.
  unfold bind at 1.
  pose proof (updateTrackList_keeps p1) as [Hs2 Hi2].
  destruct (PlayerUI.updateTrackList p1) as [[[]|] p2]; simpl in Hs2, Hi2;
    [|intros [= <- <-]; split; congruence].
  unfold bind at 1. unfold bind at 1. unfold of_option.
  destruct (PlayerUI.getCurrentPlaylist p2) as [playlist|];
    [|intros [= <- <-]; split; congruence].
  unfold ret at 1. unfold bind.
  pose proof (saveSession_keeps B) as Hsave.
  destruct (0 <? length playlist)%nat.
  - destruct (PlayerUI.loadTrack B 0 true p2) as [r3 p3] eqn:E3.
    destruct (loadTrack_keeps B 0 true p2 r3 p3 E3) as [Hs3 Hi3].
    destruct r3 as [[]|].
    + intros E. destruct (Hsave p3) as [Hs4 Hi4]. rewrite E in Hs4, Hi4.
      simpl in Hs4, Hi4. split; [congruence|destruct Hi3; congruence].
    + intros [= <- <-]. split; [congruence|destruct Hi3; congruence].
  - unfold ret. intros E. destruct (Hsave p2) as [Hs4 Hi4]. rewrite E in Hs4, Hi4.
    simpl in Hs4, Hi4. split; congruence.
Qed.

(** C8: while tape mode is on and a track is playing, [switchSide] changes
    nothing but the text of the status bar: every variable of the script,
    the audio element, the rest of the page and the list of requests sent
    are as before.  Otherwise it leaves the requested side as the current
    side and 0 as the current track index (also when it ends with an
    exception because no playlist is loaded). *)
Theorem switch_side_blocked_while_playing B side p :
  let p' := (PlayerUI.switchSide B side p).2 in
  (truthy (PlayerUI.tapeMode p) && PlayerUI.isPlaying p = true ->
     PlayerUI.switchSide B side p = (Ok tt, p')
     ∧ PlayerUI.playlists p' = PlayerUI.playlists p
     ∧ PlayerUI.currentSide p' = PlayerUI.currentSide p
     ∧ PlayerUI.currentTrackIndex p' = PlayerUI.currentTrackIndex p
     ∧ PlayerUI.isPlaying p' = PlayerUI.isPlaying p
     ∧ PlayerUI.tapeMode p' = PlayerUI.tapeMode p
     ∧ PlayerUI.trackListVisible p' = PlayerUI.trackListVisible p
     ∧ PlayerUI.isMuted p' = PlayerUI.isMuted p
     ∧ PlayerUI.lastVolume p' = PlayerUI.lastVolume p
     ∧ PlayerUI.savedTimestamp p' = PlayerUI.savedTimestamp p
     ∧ PlayerUI.audioPlayer p' = PlayerUI.audioPlayer p
     ∧ PlayerUI.sent p' = PlayerUI.sent p
     ∧ PlayerUI.page p' =
       PlayerUI.mkPage "Stop playback to flip tape"
         (PlayerUI.trackTitle (PlayerUI.page p)) (PlayerUI.trackArtist (PlayerUI.page p))
         (PlayerUI.albumCoverImg (PlayerUI.page p))
         (PlayerUI.sideABtnActive (PlayerUI.page p))
         (PlayerUI.sideBBtnActive (PlayerUI.page p))
         (PlayerUI.trackList (PlayerUI.page p)))
  ∧ (truthy (PlayerUI.tapeMode p) && PlayerUI.isPlaying p = false ->
     PlayerUI.currentSide p' = side ∧ PlayerUI.currentTrackIndex p' = 0).
Proof.
  split; intros H; [by rewrite (switchSide_blocked B side p H)|].
  destruct (PlayerUI.switchSide B side p) as [r q] eqn:E.
  by eapply switchSide_unblocked.
Qed.

Lemma switch_side_blocked_while_playing_witness :
  let B := PlayerUI.mkBrowser (fun n => n) in
  let song := mkTrack "B-0" "x" "Unknown Artist" "Unknown Album" "x.flac"
                      "/musics/side b/x.flac" None 42 1 in
  let p := PlayerUI.mkPlayer (PlayerUI.mkPlaylists (Some []) (Some [song]))
             (JStr "A") 0 true (JBool true) false false (Fin 75) (Fin 0)
             (PlayerUI.mkAudio None (Fin 12) (Fin (3 # 4)) 0)
             (PlayerUI.mkPage "" "" "" None true false []) [] in
  let p' := (PlayerUI.switchSide B (JStr "B") p).2 in
  PlayerUI.currentSide p' = JStr "A" ∧ PlayerUI.currentTrackIndex p' = 0
  ∧ PlayerUI.sent p' = [].
Proof.
  intros B song p p'.
  destruct (switch_side_blocked_while_playing B (JStr "B") p) as [Hblocked _].
  destruct (Hblocked eq_refl) as (_ & _ & Hside & Hindex & _ & _ & _ & _ & _ & _ & _ & Hsent & _).
  split_and!; [exact Hside | exact Hindex | exact Hsent].
Defined.

(** The same player once playback is stopped: the switch goes through. *)
Example switch_side_after_stop :
  let B := PlayerUI.mkBrowser (fun n => n) in
  let song := mkTrack "B-0" "x" "Unknown Artist" "Unknown Album" "x.flac"
                      "/musics/side b/x.flac" None 42 1 in
  let p := PlayerUI.mkPlayer (PlayerUI.mkPlaylists (Some []) (Some [song]))
             (JStr "A") 3 false (JBool true) false false (Fin 75) (Fin 0)
             (PlayerUI.mkAudio None (Fin 12) (Fin (3 # 4)) 0)
             (PlayerUI.mkPage "" "" "" None true false []) [] in
  let p' := (PlayerUI.switchSide B (JStr "B") p).2 in
  PlayerUI.currentSide p' = JStr "B" ∧ PlayerUI.currentTrackIndex p' = 0
  ∧ PlayerUI.savedTimestamp p' = Fin 12
  ∧ PlayerUI.src (PlayerUI.audioPlayer p') = Some "http://localhost:5000/musics/side b/x.flac"
  ∧ length (PlayerUI.sent p') = 2.
Proof. vm_compute. done. Qed.

(** ** A stale entry

    The cache is not told when a file changes.  Here "a_b.mp3" is tagged
    during the first scan and unreadable afterwards: until POST /api/refresh
    the scan keeps serving the stored tags and does not parse the file;
    the refresh parses it again and falls back to the defaults. *)
Example stale_entry_is_served_until_refresh :
  let before := Examples.taggedAndBroken in
  let after :=
    Examples.world (DirListing ["a_b.mp3"]) (DirListing [])
                   (fun _ => Some 42%Z) (fun _ => None) in
  let s := (handle before GetPlaylists initialState).2 in
  let stale := loadMusicFiles after s in
  let refreshed := handle after PostRefresh s in
  (exists t sideB, stale.1 = Ok ([t], sideB) ∧ title t = "Song" ∧ artist t = "Band")
  ∧ events_since s stale.2 = []
  ∧ (exists reply, refreshed.1 = Responded 200 reply)
  ∧ (exists t sideB, (loadMusicFiles after refreshed.2).1 = Ok ([t], sideB)
                     ∧ title t = "a b" ∧ artist t = "Unknown Artist").
Proof.
  vm_compute. split_and!.
  - by eexists _, _.
  - done.
  - by eexists.
  - by eexists _, _.
Qed.

(** * Further properties of the server *)

(** ** When a scan fails *)

Lemma scannable_stat_ok W folder : scannable W folder = true <-> stat_ok W folder.
Proof.
  unfold scannable, stat_ok. destruct (readdir W folder) as [| |files]; [done|done|].
  rewrite forallb_forall. split.
  - intros H f Hf Ha. specialize (H f (proj1 (list_elem_of_In _ _) Hf)).
    rewrite Ha in H. simpl in H. by apply bool_decide_eq_true in H.
  - intros H f Hf%list_elem_of_In. destruct (is_audio f) eqn:Ha; [|done]. simpl.
    apply bool_decide_eq_true. by apply H.
Qed.

Lemma scanLoop_thrown W folder side files : forall index s s',
  scanLoop W folder side index files s = (Thrown, s') ->
  exists f, f ∈ files ∧ is_audio f = true ∧ statSize W (Path.join folder f) = None.
Proof.
  induction files as [|file rest IH]; intros index s s' E; [done|].
  loop_round W folder side index file rest s E.
  - done.
  - injection E as <-. destruct (IH _ _ _ Erest) as (f & Hf & Ha & Hst).
    exists f. split_and!; [by right|done|done].
  - injection E as <-.
    destruct (scanFile_spec _ _ _ _ _ _ _ _ Efile) as (_ & _ & _ & Hst & _).
    exists file. split_and!; [by left|done|done].
  - destruct (IH _ _ _ E) as (f & Hf & Ha & Hst).
    exists f. split_and!; [by right|done|done].
Qed.

Lemma scanLoop_ok_stat W folder side files : forall index s ts s',
  scanLoop W folder side index files s = (Ok ts, s') ->
  forall f, f ∈ files -> is_audio f = true -> is_Some (statSize W (Path.join folder f)).
Proof.
  induction files as [|file rest IH]; intros index s ts s' E f Hf Ha;
    [by apply elem_of_nil in Hf|].
  loop_round W folder side index file rest s E; try discriminate.
  - destruct (scanFile_spec _ _ _ _ _ _ _ _ Efile) as (_ & _ & _ & Hsz & _).
    apply elem_of_cons in Hf as [->|Hf]; [done|]. by eapply IH.
  - apply elem_of_cons in Hf as [->|Hf]; [congruence|]. by eapply IH.
Qed.

Lemma getSongs_outcome W folder side s :
  if scannable W folder
  then exists tracks s', getSongsFromFolder W folder side s = (Ok tracks, s')
                         ∧ map filename tracks = List.filter is_audio (listing W folder)
  else exists s', getSongsFromFolder W folder side s = (Thrown, s').
Proof.
  destruct (scannable W folder) eqn:Hsc.
  - apply scannable_stat_ok in Hsc.
    assert (exists tracks s', getSongsFromFolder W folder side s = (Ok tracks, s'))
      as (tracks & s' & E).
    { unfold stat_ok in Hsc. unfold getSongsFromFolder.
      destruct (readdir W folder) as [| |files]; [by eexists _, _|done|].
      by apply scanLoop_returns. }
    exists tracks, s'. split; [done|].
    pose proof (getSongs_shape _ _ _ _ _ _ E) as Hs.
    apply (f_equal (map (fun x : string * string * nat => x.1.2))) in Hs.
    rewrite !map_map in Hs. simpl in Hs.
    etrans; [exact Hs|]. apply (audioEntries_names _ 0).
  - destruct (getSongsFromFolder W folder side s) as [[tracks|] s'] eqn:E; [|by eexists].
    assert (scannable W folder = true); [|congruence].
    apply scannable_stat_ok. unfold stat_ok.
    apply getSongs_cases in E. destruct (readdir W folder) as [| |files]; [done|by destruct E|].
    by eapply scanLoop_ok_stat.
Qed.

(** The scan of both folders returns exactly when both are scannable; the
    lists then hold one track per audio entry, in listing order. *)
Lemma loadMusicFiles_outcome W s :
  if scannable W (sideAFolder W) && scannable W (sideBFolder W)
  then exists sideA sideB s',
         loadMusicFiles W s = (Ok (sideA, sideB), s')
         ∧ map filename sideA = List.filter is_audio (listing W (sideAFolder W))
         ∧ map filename sideB = List.filter is_audio (listing W (sideBFolder W))
  else exists s', loadMusicFiles W s = (Thrown, s').
Proof.
  unfold loadMusicFiles, bind, ret.
  pose proof (getSongs_outcome W (sideAFolder W) "A" s) as HA.
  destruct (scannable W (sideAFolder W)); simpl.
  - destruct HA as (sideA & s1 & -> & HnA).
    pose proof (getSongs_outcome W (sideBFolder W) "B" s1) as HB.
    destruct (scannable W (sideBFolder W)).
    + destruct HB as (sideB & s2 & -> & HnB). by exists sideA, sideB, s2.
    + destruct HB as (s2 & ->). by eexists.
  - destruct HA as (s1 & ->). by eexists.
Qed.

(** X1: GET /api/playlists answers 200 with both lists exactly when both
    folders are scannable (missing, or listable with every audio entry
    stat-able), and 500 with the fixed error body otherwise; the two lists
    hold one track per audio entry of the listings, in listing order. *)
Theorem playlists_status_by_scannable W s :
  let out := handle W GetPlaylists s in
  if scannable W (sideAFolder W) && scannable W (sideBFolder W)
  then exists sideA sideB,
         out.1 = Responded 200 (JObj [("sideA", tracks_json sideA); ("sideB", tracks_json sideB)])
         ∧ map filename sideA = List.filter is_audio (listing W (sideAFolder W))
         ∧ map filename sideB = List.filter is_audio (listing W (sideBFolder W))
  else out.1 = Responded 500 (error_json "Failed to load playlists").
Proof.
  simpl. unfold handle, serve, route, getPlaylists, try_catch, bind, ret, emit.
  pose proof (loadMusicFiles_outcome W s) as H.
  destruct (scannable W (sideAFolder W) && scannable W (sideBFolder W)).
  - destruct H as (sideA & sideB & s' & -> & HA & HB). by exists sideA, sideB.
  - by destruct H as (s' & ->).
Qed.

(** X2: GET /api/health reports, for each side, the number of audio
    entries of its folder (0 for a missing folder) when both folders are
    scannable; otherwise its handler lets the exception out. *)
Theorem health_counts_audio_entries W s :
  (handle W GetHealth s).1 =
  if scannable W (sideAFolder W) && scannable W (sideBFolder W)
  then Responded 200
         (JObj [("status", JStr "Server is running!"); ("timestamp", JStr (now W));
                ("sideA", JStr (pretty (audioCount W (sideAFolder W)) ++ " tracks"));
                ("sideB", JStr (pretty (audioCount W (sideBFolder W)) ++ " tracks"))])
  else Escaped.
Proof.
  unfold handle, serve, route, getHealth, bind, ret, audioCount.
  pose proof (loadMusicFiles_outcome W s) as H.
  destruct (scannable W (sideAFolder W) && scannable W (sideBFolder W)).
  - destruct H as (sideA & sideB & s' & -> & HA & HB). simpl.
    by rewrite <- HA, <- HB, !length_map.
  - by destruct H as (s' & ->).
Qed.

(** ** What a route touches *)

Lemma scan_keeps_session W s : userSession (loadMusicFiles W s).2 = userSession s.
Proof.
  destruct (loadMusicFiles W s) as [r s'] eqn:E.
  by destruct (loadMusicFiles_rel _ _ _ _ E) as (Hu & _).
Qed.


(** X4: the scan that [startServer] makes cannot stop the server: its
    failure is caught, the session is untouched and the cache keeps what it
    held. *)
Theorem startup_never_throws W s :
  (startup W s).1 = Ok tt
  ∧ userSession (startup W s).2 = userSession s
  ∧ forall k e, metadataCache s !! k = Some e -> metadataCache (startup W s).2 !! k = Some e.
Proof.
  unfold startup, try_catch, bind, ret, emit.
  destruct (loadMusicFiles W s) as [[p|] s1] eqn:E;
    destruct (loadMusicFiles_rel _ _ _ _ E) as (Hu & _ & Hkeep & _); simpl;
    split_and!; auto.
Qed.

(** ** One side *)

Lemma upper_lower_char c : Str.upper_char (Str.lower_char c) = Str.upper_char c.
Proof. by destruct c as [[] [] [] [] [] [] [] []]. Qed.

Lemma toUpperCase_toLowerCase x : Str.toUpperCase (Str.toLowerCase x) = Str.toUpperCase x.
Proof.
  unfold Str.toUpperCase, Str.toLowerCase.
  induction x as [|c x IH]; simpl; [done|]. by rewrite IH, upper_lower_char.
Qed.

(** X5: GET /api/playlists/:side scans first (so the scan's effects are
    there even for an unknown side) and then answers by the upper-cased
    parameter: the tracks of side A, those of side B, or 404; a failed scan
    gives 500.  The parameter is read without regard to case. *)
Theorem side_route_by_uppercased_param W param s :
  let out := handle W (GetPlaylistsSide param) s in
  metadataCache out.2 = metadataCache (loadMusicFiles W s).2
  ∧ handle W (GetPlaylistsSide (Str.toLowerCase param)) s = out
  ∧ match (loadMusicFiles W s).1 with
    | Ok (sideA, sideB) =>
        out.1 =
        if String.eqb (Str.toUpperCase param) "A"
        then Responded 200 (JObj [("side", JStr "A"); ("tracks", tracks_json sideA)])
        else if String.eqb (Str.toUpperCase param) "B"
        then Responded 200 (JObj [("side", JStr "B"); ("tracks", tracks_json sideB)])
        else Responded 404 (error_json "Side not found. Use A or B")
    | Thrown => out.1 = Responded 500 (error_json "Failed to load side")
    end.
Proof.
  simpl. unfold handle, serve, route, getPlaylistsSide, try_catch, bind, ret, emit.
  rewrite toUpperCase_toLowerCase.
  destruct (loadMusicFiles W s) as [[[sideA sideB]|] s1]; simpl; [|done].
  destruct (String.eqb _ "A"); [done|]. by destruct (String.eqb _ "B").
Qed.

(** ** Session store *)

Lemma session_route_frame W r s :
  session_route r = true ->
  (handle W r s).2 = setSession (userSession (handle W r s).2) s.
Proof.
  destruct s as [u c tr]. destruct r; try done; intros _; try reflexivity.
  unfold handle, serve, route, putVolume. by destruct (_ || _).
Qed.

Lemma scan_route_session W r s :
  session_route r = false -> userSession (handle W r s).2 = userSession s.
Proof.
  pose proof (scan_keeps_session W s) as Hscan.
  destruct r; try done; intros _; unfold handle, serve, route.
  - unfold getHealth, bind, ret.
    destruct (loadMusicFiles W s) as [[p|] s1]; simpl in *; exact Hscan.
  - unfold getPlaylists, try_catch, bind, ret, emit.
    destruct (loadMusicFiles W s) as [[p|] s1]; simpl in *; exact Hscan.
  - unfold getPlaylistsSide, try_catch, bind, ret, emit.
    destruct (loadMusicFiles W s) as [[p|] s1]; simpl in *; [|done].
    destruct (String.eqb _ "A"); [done|]. by destruct (String.eqb _ "B").
  - unfold postRefresh, try_catch, bind, ret, emit, setCache.
    pose proof (scan_keeps_session W (mkState (userSession s) ∅ (trace s))) as Hscan'.
    destruct (loadMusicFiles W (mkState (userSession s) ∅ (trace s))) as [[p|] s1];
      simpl in *; exact Hscan'.
Qed.

(** X6: POST /api/session/reset puts the six defaults back whatever
    requests came before; GET /api/session right after returns them and a
    second reset changes nothing.  When only session requests came before,
    the server is exactly as if the reset had been the first request, so
    nothing of them survives; and no sequence of scanning requests after the
    reset (health, playlists, a side, refresh) moves the session away from
    the defaults. *)
Theorem reset_restores_defaults W rs s :
  let s1 := (handle W PostSessionReset (handle_all W rs s)).2 in
  userSession s1 = defaultSession
  ∧ handle W GetSession s1 = (Responded 200 (session_json defaultSession), s1)
  ∧ (handle W PostSessionReset s1).2 = s1
  ∧ (forallb session_route rs = true -> s1 = setSession defaultSession s)
  ∧ (forall scans, forallb (fun r => negb (session_route r)) scans = true ->
       userSession (handle_all W scans s1) = defaultSession).
Proof.
  intros s1. split_and!; try done.
  - subst s1. revert s. induction rs as [|r rs IH]; intros s Hrs; [done|].
    cbn [forallb] in Hrs. apply andb_true_iff in Hrs as [Hr Hrs].
    cbn [handle_all fold_left]. etrans; [apply (IH _ Hrs)|].
    rewrite (session_route_frame W r s Hr). by destruct s.
  - assert (Hu : userSession s1 = defaultSession) by done. clearbody s1.
    intros scans. revert s1 Hu. induction scans as [|r scans IH]; intros q Hu Hsc; [done|].
    cbn [forallb] in Hsc. apply andb_true_iff in Hsc as [Hr%negb_true_iff Hsc].
    cbn [handle_all fold_left]. apply IH; [|done].
    by rewrite (scan_route_session W r q Hr).
Qed.

(** X7: PUT /api/session/tape-mode stores whatever [enabled] is, without
    a test: any JSON value, and [undefined] when the body has no [enabled].
    The other five fields are kept and the reply echoes the stored
    value. *)
Theorem put_tape_mode_stores_anything W (body : gmap string JsVal) s :
  let out := handle W (PutTapeMode body) s in
  let u := userSession s in
  let u' := userSession out.2 in
  (forall v, body !! "enabled" = Some v -> tapeMode u' = v)
  ∧ (body !! "enabled" = None -> tapeMode u' = JUndefined)
  ∧ currentSide u' = currentSide u ∧ currentTrackId u' = currentTrackId u
  ∧ currentTime u' = currentTime u ∧ volume u' = volume u ∧ isPlaying u' = isPlaying u
  ∧ out.1 = Responded 200 (JObj [("success", JBool true); ("tapeMode", tapeMode u')]).
Proof.
  simpl. split_and!; try done.
  - intros v H. by rewrite (prop_present _ _ _ H).
  - intros H. by rewrite (prop_absent _ _ H).
Qed.

Lemma put_tape_mode_stores_anything_witness :
  tapeMode (userSession (handle Examples.twoSongs (PutTapeMode ∅) initialState).2)
  = JUndefined.
Proof.
  apply (put_tape_mode_stores_anything Examples.twoSongs ∅ initialState).
  reflexivity.
Defined.

(** ** One round of the scan, as an equation *)

Lemma extractAlbumCover_eq W filePath trackId s :
  extractAlbumCover W filePath trackId s =
  (Ok (coverOf W filePath trackId), addEvents (coverEvents W filePath trackId) s).
Proof.
  unfold extractAlbumCover, coverOf, coverEvents, addEvents, try_catch, bind, emit,
    of_option, ret, throw. simpl.
  destruct (parseFile W filePath) as [tags|]; simpl;
    [destruct (tag_picture tags); simpl; [destruct (writeFile W _); simpl|]|];
    by rewrite <- ?(assoc_L (++)%list).
Qed.

Lemma scanFile_eq W folder side index file s :
  let filePath := Path.join folder file in
  let entry := metadataCache s !! filePath in
  let t size := trackOf side index file size
                  (metadataOf W filePath (trackIdOf side index) file entry) in
  scanFile W folder side index file s =
  match statSize W filePath with
  | None => (Thrown, s)
  | Some size =>
      match entry, parseFile W filePath with
      | Some _, _ => (Ok (t size), s)
      | None, None =>
          (Ok (t size),
           addEvents [IoParse filePath;
                      IoConsoleError ("Error reading metadata for " ++ file ++ ":")] s)
      | None, Some tags =>
          (Ok (t size),
           {| userSession := userSession s;
              metadataCache :=
                <[filePath := mkEntry (title (t size)) (artist (t size)) (album (t size))
                                      (albumCover (t size))]> (metadataCache s);
              trace := trace s ++ IoParse filePath
                         :: coverEvents W filePath (trackIdOf side index) |})
      end
  end.
Proof.
  intros filePath entry t. subst t entry.
  unfold scanFile, readMetadata, bind, try_catch, of_option, getCache, setCache, emit,
    ret, throw. fold filePath.
  destruct (statSize W filePath) as [size|]; [|done].
  destruct (metadataCache s !! filePath) as [cached|] eqn:Hc; [done|].
  unfold metadataOf, trackOf, addEvents.
  destruct (parseFile W filePath) as [tags|] eqn:Hp.
  - rewrite extractAlbumCover_eq. unfold addEvents. simpl.
    by rewrite <- ?(assoc_L (++)%list).
  - simpl. by rewrite <- ?(assoc_L (++)%list).
Qed.

(** X8: [extractAlbumCover] never throws and touches neither the session
    nor the cache.  It answers "/covers/{trackId}.jpg" exactly when the
    parse succeeds, finds a picture and the write of the cover file
    succeeds, and [null] in every other case; the only file it can write is
    "{trackId}.jpg" in the covers folder, and only when a picture was
    found. *)
Theorem extractAlbumCover_never_throws W filePath trackId s :
  let out := extractAlbumCover W filePath trackId s in
  let coverPath := Path.join (coversFolder W) (trackId ++ ".jpg") in
  (exists cover, out.1 = Ok cover
     ∧ (cover = Some ("/covers/" ++ trackId ++ ".jpg") ∨ cover = None)
     ∧ (is_Some cover <->
        exists tags, parseFile W filePath = Some tags ∧ tag_picture tags = true
                     ∧ writeFile W coverPath = true))
  ∧ userSession out.2 = userSession s ∧ metadataCache out.2 = metadataCache s
  ∧ (forall p, IoWriteCover p ∈ events_since s out.2 ->
       p = coverPath ∧ exists tags, parseFile W filePath = Some tags ∧ tag_picture tags = true).
Proof.
  simpl. rewrite extractAlbumCover_eq. simpl.
  rewrite (events_since_app s (addEvents _ s) (coverEvents W filePath trackId) eq_refl).
  unfold coverOf, coverEvents.
  destruct (parseFile W filePath) as [tags|]; [destruct (tag_picture tags) eqn:Hpic|].
  - destruct (writeFile W _) eqn:Hw; simpl.
    + split_and!; try done.
      * eexists. split_and!; [done|by left|]. split; [by exists tags|by eexists].
      * intros p [?|[[= ->]|?%elem_of_nil]%elem_of_cons]%elem_of_cons; [done| |done].
        split; [done|by exists tags].
    + split_and!; try done.
      * eexists. split_and!; [done|by right|].
        split; [by intros [? ?]|]. intros (tags' & [= <-] & _ & ?). congruence.
      * intros p [?|[[= ->]|[?|?%elem_of_nil]%elem_of_cons]%elem_of_cons]%elem_of_cons;
          try done. split; [done|by exists tags].
  - simpl. split_and!; try done.
    + eexists. split_and!; [done|by right|].
      split; [by intros [? ?]|]. intros (tags' & [= <-] & ? & _). congruence.
    + intros p [?|?%elem_of_nil]%elem_of_cons; done.
  - simpl. split_and!; try done.
    + eexists. split_and!; [done|by right|].
      split; [by intros [? ?]|]. by intros (tags' & ? & _).
    + intros p [?|[?|?%elem_of_nil]%elem_of_cons]%elem_of_cons; done.
Qed.

(** ** Scanning again *)

Lemma metadataOf_cached W filePath trackId file tags :
  parseFile W filePath = Some tags ->
  let m := metadataOf W filePath trackId file None in
  metadataOf W filePath trackId file (Some (mkEntry m.1.1.1 m.1.1.2 m.1.2 m.2)) = m.
Proof.
  intros Hp. unfold metadataOf. rewrite Hp. simpl.
  rewrite !str_or_fixed; [done|..].
  - intros H. by apply tag_or_fixed in H.
  - intros H. by apply tag_or_fixed in H.
  - apply tag_or_fixed.
Qed.

Lemma scanFile_unparsable W folder side index file s r s' k :
  scanFile W folder side index file s = (r, s') ->
  parseFile W k = None -> metadataCache s' !! k = metadataCache s !! k.
Proof.
  rewrite scanFile_eq. intros E Hk.
  destruct (statSize W _) as [size|]; [|by injection E as <- <-].
  destruct (metadataCache s !! Path.join folder file) as [e|]; [by injection E as <- <-|].
  destruct (parseFile W (Path.join folder file)) as [tags|] eqn:Hp;
    injection E as <- <-; simpl; [|done].
  apply lookup_insert_ne. congruence.
Qed.

Lemma scan_unparsable W s r s' k :
  loadMusicFiles W s = (r, s') ->
  parseFile W k = None -> metadataCache s' !! k = metadataCache s !! k.
Proof.
  intros E Hk.
  by destruct (loadMusicFiles_rounds (fun s1 => metadataCache s1 !! k = metadataCache s !! k)
                 W s r s'
                 (fun _ _ _ _ s1 r1 s1' _ _ HI E1 =>
                    eq_trans (scanFile_unparsable _ _ _ _ _ _ _ _ _ E1 Hk) HI)
                 eq_refl E) as [H _].
Qed.

Lemma getSongs_unparsable W folder side s r s' k :
  getSongsFromFolder W folder side s = (r, s') ->
  parseFile W k = None -> metadataCache s' !! k = metadataCache s !! k.
Proof.
  intros E Hk.
  by destruct (getSongs_rounds (fun s1 => metadataCache s1 !! k = metadataCache s !! k)
                 W folder side s r s'
                 (fun _ _ s1 r1 s1' _ _ HI E1 =>
                    eq_trans (scanFile_unparsable _ _ _ _ _ _ _ _ _ E1 Hk) HI)
                 eq_refl E) as [H _].
Qed.

(** The loop, run again in a state whose cache holds what the first run
    left and nothing for the files that cannot be parsed, returns the same
    tracks and only adds to the trace. *)
Lemma rescan_loop W folder side files : forall index s tracks s',
  scanLoop W folder side index files s = (Ok tracks, s') ->
  forall q,
  (forall k e, metadataCache s' !! k = Some e -> metadataCache q !! k = Some e) ->
  (forall k, parseFile W k = None -> metadataCache s !! k = None ->
             metadataCache q !! k = None) ->
  exists new,
    scanLoop W folder side index files q = (Ok tracks, addEvents new q)
    ∧ (forall c, IoWriteCover c ∉ new)
    ∧ (forall k, IoParse k ∈ new -> parseFile W k = None).
Proof.
  induction files as [|file rest IH]; intros index s tracks0 s' E q H1 H2.
  - injection E as <- <-. exists []. unfold addEvents. rewrite app_nil_r.
    split_and!; [by destruct q|by intros c ?%elem_of_nil|by intros k ?%elem_of_nil].
  - loop_round W folder side index file rest s E; try discriminate;
      [|rewrite (scanLoop_skip _ _ _ _ _ _ Haudio); by eapply IH].
    injection E as <- <-.
    pose proof (scanLoop_rel _ _ _ _ _ _ _ _ Erest) as (_ & _ & Hkeep & _).
    rewrite (scanLoop_audio _ _ _ _ _ _ _ Haudio).
    rewrite scanFile_eq in Efile. rewrite scanFile_eq.
    destruct (statSize W (Path.join folder file)) as [size|]; [|done].
    destruct (metadataCache s !! Path.join folder file) as [e|] eqn:Hc.
    + injection Efile as <- <-.
      rewrite (H1 _ _ (Hkeep _ _ Hc)).
      destruct (IH _ _ _ _ Erest q H1 H2) as (new & -> & Hw & Hp).
      by exists new.
    + set (m := metadataOf W (Path.join folder file) (trackIdOf side index) file None) in *.
      destruct (parseFile W (Path.join folder file)) as [tags|] eqn:Hp.
      * injection Efile as <- <-.
        rewrite (H1 _ _ (Hkeep _ _ (lookup_insert_eq _ _ _))).
        cbn [trackOf title artist album albumCover]. subst m.
        rewrite (metadataOf_cached _ _ _ _ _ Hp).
        destruct (IH _ _ _ _ Erest q H1) as (new & -> & Hw & Hp').
        { intros k Hk. simpl. destruct (decide (Path.join folder file = k)) as [<-|Hne].
          - by rewrite lookup_insert_eq.
          - rewrite lookup_insert_ne by done. by apply H2. }
        by exists new.
      * injection Efile as <- <-.
        rewrite (H2 _ Hp Hc).
        set (ev := [IoParse (Path.join folder file);
                    IoConsoleError ("Error reading metadata for " ++ file ++ ":")]).
        destruct (IH _ _ _ _ Erest (addEvents ev q) H1 H2) as (new & -> & Hw & Hp').
        exists (ev ++ new)%list. split_and!.
        -- unfold addEvents. simpl. by rewrite <- (assoc_L (++)%list).
        -- intros c [Hin|Hin]%elem_of_app; [|by eapply Hw].
           apply elem_of_cons in Hin as [?|Hin]; [done|].
           apply elem_of_cons in Hin as [?|Hin]; [done|]. by apply elem_of_nil in Hin.
        -- intros k [Hin|Hin]%elem_of_app; [|by apply Hp'].
           apply elem_of_cons in Hin as [[= ->]|Hin]; [done|].
           apply elem_of_cons in Hin as [?|Hin]; [done|]. by apply elem_of_nil in Hin.
Qed.

Lemma getSongs_rescan W folder side s tracks s' q :
  getSongsFromFolder W folder side s = (Ok tracks, s') ->
  (forall k e, metadataCache s' !! k = Some e -> metadataCache q !! k = Some e) ->
  (forall k, parseFile W k = None -> metadataCache s !! k = None ->
             metadataCache q !! k = None) ->
  exists new,
    getSongsFromFolder W folder side q = (Ok tracks, addEvents new q)
    ∧ (forall c, IoWriteCover c ∉ new)
    ∧ (forall k, IoParse k ∈ new -> parseFile W k = None).
Proof.
  intros E%getSongs_cases H1 H2. unfold getSongsFromFolder.
  destruct (readdir W folder) as [| |files].
  - destruct E as [[= <-] _]. exists []. unfold addEvents, ret. rewrite app_nil_r.
    split_and!; [by destruct q|by intros c ?%elem_of_nil|by intros k ?%elem_of_nil].
  - by destruct E.
  - by eapply rescan_loop.
Qed.

(** X9: a scan that has returned can be repeated in the same world with
    the same result: the second scan returns the same two lists, field for
    field, changes neither the cache nor the session, writes no cover, and
    parses only the files whose parse fails. *)
Theorem rescan_returns_same_playlists W s playlists s' :
  loadMusicFiles W s = (Ok playlists, s') ->
  exists new,
    loadMusicFiles W s' = (Ok playlists, addEvents new s')
    ∧ (forall c, IoWriteCover c ∉ new)
    ∧ (forall k, IoParse k ∈ new -> parseFile W k = None).
Proof.
  intros E. pose proof E as Ecases. destruct playlists as [sideA sideB].
  apply loadMusicFiles_cases in Ecases as (sA & EA & EB).
  pose proof (getSongs_rel _ _ _ _ _ _ EB) as (_ & _ & HkeepB & _).
  destruct (getSongs_rescan _ _ _ _ _ _ s' EA) as (newA & EA2 & HwA & HpA).
  { intros k e He. by apply HkeepB. }
  { intros k Hk Hnone. by rewrite (scan_unparsable _ _ _ _ _ E Hk). }
  destruct (getSongs_rescan _ _ _ _ _ _ (addEvents newA s') EB) as (newB & EB2 & HwB & HpB).
  { done. }
  { intros k Hk Hnone. simpl. by rewrite (getSongs_unparsable _ _ _ _ _ _ _ EB Hk). }
  exists (newA ++ newB)%list. split_and!.
  - unfold loadMusicFiles, bind, ret. rewrite EA2, EB2. unfold addEvents. simpl.
    by rewrite <- (assoc_L (++)%list).
  - intros c [?|?]%elem_of_app; [by eapply HwA|by eapply HwB].
  - intros k [?|?]%elem_of_app; [by apply HpA|by apply HpB].
Qed.

Lemma rescan_returns_same_playlists_witness :
  let W := Examples.taggedAndBroken in
  let first := loadMusicFiles W initialState in
  let second := loadMusicFiles W first.2 in
  second.1 = first.1
  ∧ events_since first.2 second.2 =
    [IoParse "/srv/musics/side a/bad-file.MP3";
     IoConsoleError "Error reading metadata for bad-file.MP3:"].
Proof.
  intros W first second.
  destruct (rescan_returns_same_playlists W initialState
              (match first.1 with Ok p => p | Thrown => ([], []) end) first.2)
    as (new & E & _).
  - vm_compute. reflexivity.
  - split; [|vm_compute; reflexivity].
    subst second. rewrite E. vm_compute. reflexivity.
Defined.

(** X10: a file that no parse has ever read successfully is never in the
    cache, so every scan that lists it and returns parses it again (failures
    are not remembered). *)
Theorem unparsable_file_never_cached W folder file s :
  has_slash file = false ->
  reachable (fun W' => entries_ok W' ∧ parseFile W' (Path.join folder file) = None) s ->
  metadataCache s !! Path.join folder file = None
  ∧ (entries_ok W -> parseFile W (Path.join folder file) = None ->
     folder = sideAFolder W ∨ folder = sideBFolder W ->
     file ∈ listing W folder -> is_audio file = true ->
     forall sideA sideB s', loadMusicFiles W s = (Ok (sideA, sideB), s') ->
       IoParse (Path.join folder file) ∈ events_since s s'
       ∧ metadataCache s' !! Path.join folder file = None).
Proof.
  intros Hfile Hreach.
  assert (Hnone : metadataCache s !! Path.join folder file = None).
  { pose (G := fun (key _ : string) (_ : CacheEntry) => key ≠ Path.join folder file).
    assert (Hinv : cache_inv G s).
    { eapply reachable_inv; [|exact Hreach]. intros W' [Hok Hp]. split; [|done].
      intros folder' file' tags cover _ Hp' Heq. rewrite Heq in Hp'. congruence. }
    destruct (metadataCache s !! Path.join folder file) as [e|] eqn:He; [|done].
    by destruct (Hinv folder file e Hfile He). }
  split; [done|].
  intros Hok Hp Hfolder Hin Ha sideA sideB s' E. split.
  - by eapply loadMusicFiles_parses.
  - by rewrite (scan_unparsable _ _ _ _ _ E Hp).
Qed.

Lemma unparsable_file_never_cached_witness :
  let W := Examples.taggedAndBroken in
  let s := (handle W GetPlaylists initialState).2 in
  metadataCache s !! "/srv/musics/side a/bad-file.MP3" = None.
Proof.
  intros W s.
  apply (unparsable_file_never_cached W "/srv/musics/side a" "bad-file.MP3" s).
  - reflexivity.
  - apply reach_request; [split; [exact taggedAndBroken_entries_ok | reflexivity]
                         | apply reach_init].
Defined.

(** ** Covers *)

Lemma join_name_inj folder f f' : Path.join folder f = Path.join folder f' -> f = f'.
Proof.
  unfold Path.join. intros E. apply (inj (String.app folder)) in E.
  by apply (inj (String.app "/")) in E.
Qed.

Lemma side_folders_differ W f f' :
  has_slash f = false -> has_slash f' = false ->
  Path.join (sideAFolder W) f ≠ Path.join (sideBFolder W) f'.
Proof.
  intros Hf Hf' E. destruct (join_inj _ _ _ _ Hf Hf' E) as [Hfolder _].
  unfold sideAFolder, sideBFolder in Hfolder. by apply join_name_inj in Hfolder.
Qed.

Lemma coverOf_by_id W side index file size filePath entry :
  entry = None ->
  cover_by_id (trackOf side index file size
                 (metadataOf W filePath (trackIdOf side index) file entry)).
Proof.
  intros ->. unfold cover_by_id, metadataOf, coverOf; simpl.
  destruct (parseFile W filePath) as [tags|]; simpl; [|by left].
  destruct (_ && _); [by right|by left].
Qed.

Lemma scanFile_other_keys W folder side index file s r s' k :
  scanFile W folder side index file s = (r, s') ->
  k ≠ Path.join folder file -> metadataCache s' !! k = metadataCache s !! k.
Proof.
  intros E. by destruct (scanFile_spec _ _ _ _ _ _ _ _ E) as (_ & H & _); auto.
Qed.

Lemma scanFile_miss_cover W folder side index file s t s' :
  scanFile W folder side index file s = (Ok t, s') ->
  metadataCache s !! Path.join folder file = None -> cover_by_id t.
Proof.
  rewrite scanFile_eq. intros E Hmiss. rewrite Hmiss in E.
  pose proof (coverOf_by_id W side index file) as Hc.
  destruct (statSize W _) as [size|]; [|done].
  specialize (Hc size (Path.join folder file) None eq_refl).
  set (t0 := trackOf _ _ _ _ _) in *. clearbody t0.
  destruct (parseFile W (Path.join folder file)); by injection E as <- <-.
Qed.

Lemma fresh_loop W folder side files : forall index s ts s',
  scanLoop W folder side index files s = (Ok ts, s') ->
  NoDup files ->
  (forall f, f ∈ files -> metadataCache s !! Path.join folder f = None) ->
  Forall cover_by_id ts.
Proof.
  induction files as [|file rest IH]; intros index s ts s' E Hnd Hmiss.
  - injection E as <- <-. constructor.
  - apply NoDup_cons in Hnd as [Hnotin Hnd].
    loop_round W folder side index file rest s E; try discriminate.
    + injection E as <- <-. constructor.
      * eapply scanFile_miss_cover; [exact Efile|]. apply Hmiss. by left.
      * eapply IH; [exact Erest|done|]. intros f Hf.
        rewrite (scanFile_other_keys _ _ _ _ _ _ _ _ _ Efile).
        -- apply Hmiss. by right.
        -- intros ->%join_name_inj. done.
    + eapply IH; [exact E|done|]. intros f Hf. apply Hmiss. by right.
Qed.

Lemma scanLoop_parse_keys W folder side files : forall index s r s' k,
  scanLoop W folder side index files s = (r, s') ->
  IoParse k ∈ events_since s s' -> exists f, f ∈ files ∧ k = Path.join folder f.
Proof.
  induction files as [|file rest IH]; intros index s r s' k E Hk.
  - injection E as <- <-. unfold events_since in Hk. rewrite drop_all in Hk.
    by apply elem_of_nil in Hk.
  - assert (Hrest : forall index s r s', scanLoop W folder side index rest s = (r, s') ->
              IoParse k ∈ events_since s s' -> exists f, f ∈ file :: rest ∧ k = Path.join folder f).
    { intros i0 s0 r0 s0' E0 H0. destruct (IH _ _ _ _ _ E0 H0) as (f & Hf & ->).
      exists f. split; [by right|done]. }
    assert (Hhead : forall index s r s', scanFile W folder side index file s = (r, s') ->
              IoParse k ∈ events_since s s' -> exists f, f ∈ file :: rest ∧ k = Path.join folder f).
    { intros i0 s0 r0 s0' E0 H0.
      destruct (scanFile_spec _ _ _ _ _ _ _ _ E0) as (_ & _ & Honly & _).
      exists file. split; [by left|by apply Honly]. }
    loop_round W folder side index file rest s E.
    + injection E as <- <-.
      pose proof (scanFile_spec _ _ _ _ _ _ _ _ Efile) as (R1 & _).
      pose proof (scanLoop_rel _ _ _ _ _ _ _ _ Erest) as R2.
      rewrite (events_since_trans _ _ _ R1 R2) in Hk.
      apply elem_of_app in Hk as [Hk|Hk]; eauto.
    + injection E as <- <-.
      pose proof (scanFile_spec _ _ _ _ _ _ _ _ Efile) as (R1 & _).
      pose proof (scanLoop_rel _ _ _ _ _ _ _ _ Erest) as R2.
      rewrite (events_since_trans _ _ _ R1 R2) in Hk.
      apply elem_of_app in Hk as [Hk|Hk]; eauto.
    + injection E as <- <-. eauto.
    + eauto.
Qed.

(** X11: in a scan that starts without cache entries for the listed files
    (the first scan of a server, or the one of POST /api/refresh), every
    track's cover is either absent or "/covers/{id}.jpg" for the track's own
    id.  The listings are those of a directory: names without separator, and
    no name twice. *)
Theorem fresh_scan_covers_named_by_id W s sideA sideB s' :
  entries_ok W -> listings_distinct W -> metadataCache s = ∅ ->
  loadMusicFiles W s = (Ok (sideA, sideB), s') ->
  Forall cover_by_id (sideA ++ sideB).
Proof.
  intros Hok [HndA HndB] Hempty (sA & EA & EB)%loadMusicFiles_cases.
  apply Forall_app. split.
  - apply getSongs_cases in EA. unfold listing in HndA.
    destruct (readdir W (sideAFolder W)) as [| |files].
    + destruct EA as [[= ->] _]. constructor.
    + by destruct EA.
    + eapply fresh_loop; [exact EA|done|]. intros f _. by rewrite Hempty, lookup_empty.
  - pose proof (getSongs_rel _ _ _ _ _ _ EA) as (_ & _ & _ & _ & Hnew).
    pose proof EA as EA'. apply getSongs_cases in EA'. apply getSongs_cases in EB.
    unfold listing in HndB.
    destruct (readdir W (sideBFolder W)) as [| |filesB] eqn:HdirB.
    + destruct EB as [[= ->] _]. constructor.
    + by destruct EB.
    + eapply fresh_loop; [exact EB|done|]. intros f Hf.
      destruct (metadataCache sA !! Path.join (sideBFolder W) f) as [e|] eqn:He; [|done].
      exfalso.
      assert (Hparsed : IoParse (Path.join (sideBFolder W) f) ∈ events_since s sA).
      { apply Hnew; [by rewrite Hempty, lookup_empty|]. rewrite He. eauto. }
      destruct (readdir W (sideAFolder W)) as [| |filesA] eqn:HdirA.
      * destruct EA' as [_ ->]. unfold events_since in Hparsed.
        rewrite drop_all in Hparsed. by apply elem_of_nil in Hparsed.
      * by destruct EA'.
      * destruct (scanLoop_parse_keys _ _ _ _ _ _ _ _ _ EA' Hparsed) as (f' & Hf' & Heq).
        symmetry in Heq. revert Heq. apply side_folders_differ.
        -- exact (Hok _ _ _ HdirA Hf').
        -- exact (Hok _ _ _ HdirB Hf).
Qed.

Lemma taggedAndBroken_distinct : listings_distinct Examples.taggedAndBroken.
Proof.
  split; vm_compute; apply NoDup_ListNoDup; repeat constructor; simpl; intuition congruence.
Qed.

Lemma fresh_scan_covers_named_by_id_witness :
  let t := mkTrack "A-0" "Song" "Band" "Unknown Album" "a_b.mp3"
                   "/musics/side a/a_b.mp3" (Some "/covers/A-0.jpg") 42 1 in
  cover_by_id t.
Proof.
  intros t.
  pose (W := Examples.taggedAndBroken).
  assert (H : Forall cover_by_id
                ((match (loadMusicFiles W initialState).1 with
                  | Ok p => p | Thrown => ([], []) end).1 ++
                 (match (loadMusicFiles W initialState).1 with
                  | Ok p => p | Thrown => ([], []) end).2)).
  { apply (fresh_scan_covers_named_by_id W initialState _ _ (loadMusicFiles W initialState).2).
    - exact taggedAndBroken_entries_ok.
    - exact taggedAndBroken_distinct.
    - reflexivity.
    - vm_compute. reflexivity. }
  rewrite Forall_forall in H. apply H. vm_compute. apply list_elem_of_here.
Defined.

(** ** Track urls *)

Lemma percent_decode_plain c r :
  Ascii.eqb c "%" = false -> percent_decode (String c r) = String c (percent_decode r).
Proof. intros H. simpl. rewrite H. by destruct r as [|h [|l r']]. Qed.

Lemma percent_decode_encoded c r :
  Str.uri_unreserved c = false ->
  percent_decode (String "%" (String (Str.hex_digit (Str.code c / 16))
                    (String (Str.hex_digit (Str.code c mod 16)) r)))
  = String c (percent_decode r).
Proof.
  intros _. cbn [percent_decode]. rewrite Ascii.eqb_refl. f_equal.
  by destruct c as [[] [] [] [] [] [] [] []].
Qed.

Lemma unreserved_not_percent c : Str.uri_unreserved c = true -> Ascii.eqb c "%" = false.
Proof. by destruct c as [[] [] [] [] [] [] [] []]. Qed.

Lemma percent_decode_encode x : percent_decode (Str.encodeURIComponent x) = x.
Proof.
  induction x as [|c x IH]; [done|]. cbn [Str.encodeURIComponent].
  destruct (Str.uri_unreserved c) eqn:Hc.
  - rewrite percent_decode_plain by by apply unreserved_not_percent. by rewrite IH.
  - rewrite percent_decode_encoded by done. by rewrite IH.
Qed.

Lemma percent_decode_app_plain a b :
  (forall c, c ∈ Str.chars a -> Ascii.eqb c "%" = false) ->
  percent_decode (a ++ b) = a ++ percent_decode b.
Proof.
  induction a as [|c a IH]; intros Ha; [done|]. rewrite !app_String.
  rewrite percent_decode_plain by (apply Ha; by left). rewrite IH; [done|].
  intros c' Hc'. apply Ha. by right.
Qed.

Lemma scanLoop_urls W folder side files index s ts s' :
  scanLoop W folder side index files s = (Ok ts, s') ->
  Forall (fun t => url t = "/musics/side " ++ Str.toLowerCase side ++ "/"
                             ++ Str.encodeURIComponent (filename t)) ts.
Proof.
  intros E.
  destruct (scanLoop_rounds (fun _ => True) W folder side files
              (fun _ _ _ _ _ _ _ _ _ => Logic.I) index s _ s' Logic.I E) as (_ & _ & Hr).
  eapply Forall_impl; [exact Hr|]. intros t (i & s1 & s2 & _ & _ & _ & Et & _).
  rewrite scanFile_eq in Et.
  destruct (statSize W _) as [size|]; [|done].
  set (t0 := trackOf side i (filename t) size _) in *.
  assert (Hurl : url t0 = "/musics/side " ++ Str.toLowerCase side ++ "/"
                           ++ Str.encodeURIComponent (filename t)) by done.
  assert (Hname : filename t0 = filename t) by done.
  clearbody t0.
  assert (t = t0) as ->; [|done].
  destruct (metadataCache s1 !! _); [by injection Et|].
  destruct (parseFile W _); by injection Et.
Qed.

(** X12: the url of a track leads back to its file: percent-decoded and
    read below [__dirname] (where the static route for "/musics" is mounted
    on the music folder), the url of a track of side A or B is the path of
    the file the scan read.  So two tracks of a side with the same url are
    the same file. *)
Theorem track_url_resolves_to_file W s sideA sideB s' :
  loadMusicFiles W s = (Ok (sideA, sideB), s') ->
  (forall t, t ∈ sideA ->
     dirname W ++ percent_decode (url t) = Path.join (sideAFolder W) (filename t))
  ∧ (forall t, t ∈ sideB ->
     dirname W ++ percent_decode (url t) = Path.join (sideBFolder W) (filename t))
  ∧ (forall t t', (t ∈ sideA ∧ t' ∈ sideA) ∨ (t ∈ sideB ∧ t' ∈ sideB) ->
     url t = url t' -> filename t = filename t').
Proof.
  intros (sA & EA & EB)%loadMusicFiles_cases.
  assert (Hurls : forall folder side q tracks q',
            getSongsFromFolder W folder side q = (Ok tracks, q') ->
            forall t, t ∈ tracks ->
              url t = "/musics/side " ++ Str.toLowerCase side ++ "/"
                        ++ Str.encodeURIComponent (filename t)).
  { intros folder side q tracks q' E%getSongs_cases t Ht.
    destruct (readdir W folder) as [| |files].
    - destruct E as [[= ->] _]. by apply elem_of_nil in Ht.
    - by destruct E.
    - pose proof (scanLoop_urls _ _ _ _ _ _ _ _ E) as H.
      rewrite Forall_forall in H. by apply H. }
  assert (Hplain : forall (prefix : string),
            (prefix = "/musics/side a/" ∨ prefix = "/musics/side b/") ->
            forall x, percent_decode (prefix ++ Str.encodeURIComponent x) = prefix ++ x).
  { intros prefix Hprefix x. rewrite percent_decode_app_plain.
    - by rewrite percent_decode_encode.
    - intros c Hc. destruct Hprefix as [-> | ->]; vm_compute in Hc;
        repeat (apply elem_of_cons in Hc as [->|Hc]; [done|]); by apply elem_of_nil in Hc. }
  assert (HdecA : forall t,
            url t = "/musics/side " ++ Str.toLowerCase "A" ++ "/"
                      ++ Str.encodeURIComponent (filename t) ->
            percent_decode (url t) = "/musics/side a/" ++ filename t).
  { intros t ->. apply (Hplain "/musics/side a/"). by left. }
  assert (HdecB : forall t,
            url t = "/musics/side " ++ Str.toLowerCase "B" ++ "/"
                      ++ Str.encodeURIComponent (filename t) ->
            percent_decode (url t) = "/musics/side b/" ++ filename t).
  { intros t ->. apply (Hplain "/musics/side b/"). by right. }
  assert (Happ : forall a b c : string, (a ++ b) ++ c = a ++ b ++ c).
  { intros a b c. induction a as [|x a IH]; [done|]. by rewrite !app_String, IH. }
  split_and!.
  - intros t Ht. rewrite (HdecA t (Hurls _ _ _ _ _ EA t Ht)).
    unfold sideAFolder, musicFolder. rewrite !join_eq, !Happ. done.
  - intros t Ht. rewrite (HdecB t (Hurls _ _ _ _ _ EB t Ht)).
    unfold sideBFolder, musicFolder. rewrite !join_eq, !Happ. done.
  - intros t t' [[Ht Ht']|[Ht Ht']] Heq.
    + pose proof (HdecA t (Hurls _ _ _ _ _ EA t Ht)) as H1.
      pose proof (HdecA t' (Hurls _ _ _ _ _ EA t' Ht')) as H2.
      rewrite Heq, H2 in H1. by apply (inj (String.app _)) in H1.
    + pose proof (HdecB t (Hurls _ _ _ _ _ EB t Ht)) as H1.
      pose proof (HdecB t' (Hurls _ _ _ _ _ EB t' Ht')) as H2.
      rewrite Heq, H2 in H1. by apply (inj (String.app _)) in H1.
Qed.

Lemma track_url_resolves_to_file_witness :
  let W := Examples.world (DirListing ["my song%.mp3"]) DirMissing
             (fun _ => Some 7%Z) (fun _ => Some Examples.noTags) in
  let sideA := match (loadMusicFiles W initialState).1 with
               | Ok playlists => playlists.1
               | Thrown => []
               end in
  map url sideA = ["/musics/side a/my%20song%25.mp3"]
  ∧ forall t, t ∈ sideA ->
      "/srv" ++ percent_decode (url t) = Path.join "/srv/musics/side a" (filename t).
Proof.
  intros W sideA. split; [vm_compute; reflexivity|].
  destruct (track_url_resolves_to_file W initialState sideA []
              (loadMusicFiles W initialState).2) as (HA & _).
  - vm_compute. reflexivity.
  - exact HA.
Defined.


(** ** Which entries are audio files *)

Lemma length_app_string (a b : string) :
  String.length (a ++ b) = String.length a + String.length b.
Proof. induction a as [|c a IH]; [done|]. rewrite app_String. simpl. by rewrite IH. Qed.

Lemma length_map_chars g x : String.length (Str.map_chars g x) = String.length x.
Proof. induction x as [|c x IH]; simpl; by rewrite ?IH. Qed.

Lemma map_chars_app g (a b : string) :
  Str.map_chars g (a ++ b) = Str.map_chars g a ++ Str.map_chars g b.
Proof. induction a as [|c a IH]; [done|]. rewrite !app_String. simpl. by rewrite IH. Qed.

Lemma substring_split x : forall d,
  d <= String.length x ->
  x = String.substring 0 d x ++ String.substring d (String.length x - d) x
  ∧ String.length (String.substring 0 d x) = d.
Proof.
  induction x as [|c x IH]; intros [|d] Hd; simpl in *; try lia.
  - done.
  - split; [|done]. rewrite app_empty. f_equal.
    destruct (IH 0) as [H _]; [lia|]. simpl in H.
    replace (String.length x - 0) with (String.length x) in H by lia.
    destruct x; simpl in *; [done|]. by rewrite app_empty in H.
  - destruct (IH d) as [H1 H2]; [lia|]. rewrite app_String. split; [by f_equal|by f_equal].
Qed.

Lemma substring_suffix (a b : string) :
  String.substring (String.length a) (String.length (a ++ b) - String.length a) (a ++ b) = b.
Proof.
  rewrite length_app_string.
  replace (String.length a + String.length b - String.length a) with (String.length b) by lia.
  induction a as [|c a IH]; [|rewrite app_String; simpl; exact IH].
  rewrite app_empty. change (String.length "") with 0.
  clear. induction b as [|c b IH]; [done|]. simpl. by rewrite IH.
Qed.

Lemma last_dot_bounds x : forall pos d,
  Str.last_dot_from pos x = Some d -> pos <= d < pos + String.length x.
Proof.
  induction x as [|c x IH]; intros pos d; simpl; [done|].
  destruct (Str.last_dot_from (S pos) x) as [d'|] eqn:E.
  - intros [= <-]. apply IH in E. lia.
  - destruct (Ascii.eqb c "."); [|done]. intros [= <-]. lia.
Qed.

Lemma last_dot_app (a : string) e : forall pos,
  (exists d, Str.last_dot_from 0 e = Some d) ->
  Str.last_dot_from pos (a ++ e) =
  option_map (fun d => pos + String.length a + d) (Str.last_dot_from 0 e).
Proof.
  assert (Hshift : forall x pos, Str.last_dot_from pos x
                     = option_map (fun d => pos + d) (Str.last_dot_from 0 x)).
  { induction x as [|c x IH]; intros pos; simpl; [done|].
    rewrite (IH (S pos)), (IH 1).
    destruct (Str.last_dot_from 0 x) as [d|]; simpl; [f_equal; lia|].
    destruct (Ascii.eqb c "."); simpl; [f_equal; lia|done]. }
  induction a as [|c a IH]; intros pos [d Hd].
  - rewrite app_empty, Hshift, Hd. simpl. f_equal. lia.
  - rewrite app_String. simpl. rewrite IH by eauto. rewrite Hd. simpl. f_equal. lia.
Qed.

Lemma lower_char_dot c : Ascii.eqb (Str.lower_char c) "." = Ascii.eqb c ".".
Proof. by destruct c as [[] [] [] [] [] [] [] []]. Qed.

Lemma last_dot_lower x : forall pos,
  Str.last_dot_from pos (Str.toLowerCase x) = Str.last_dot_from pos x.
Proof.
  unfold Str.toLowerCase. induction x as [|c x IH]; intros pos; simpl; [done|].
  by rewrite IH, lower_char_dot.
Qed.

Lemma audio_extension_dot e :
  e ∈ audioExtensions -> exists d, Str.last_dot_from 0 e = Some 0 ∧ d = String.length e ∧ 4 <= d.
Proof.
  unfold audioExtensions. intros He.
  repeat (apply elem_of_cons in He as [->|He]; [eexists; split_and!; [done|done|simpl; lia]|]).
  by apply elem_of_nil in He.
Qed.

Lemma is_audio_extname f :
  is_audio f = true <-> Str.toLowerCase (Path.extname f) ∈ audioExtensions.
Proof.
  unfold is_audio. rewrite existsb_exists. split.
  - intros (e & He%list_elem_of_In & Heq%String.eqb_eq). by rewrite Heq.
  - intros He. exists (Str.toLowerCase (Path.extname f)).
    split; [by apply list_elem_of_In|apply String.eqb_refl].
Qed.

(** X13: a directory entry (a name without a slash) is taken as an audio
    file exactly when it is a non-empty stem followed by one of ".mp3",
    ".wav", ".ogg", ".m4a", ".flac" in any mix of upper and lower case.  A
    name that is nothing but the extension (a hidden file ".mp3") is not
    taken. *)
Theorem is_audio_by_suffix f :
  has_slash f = false ->
  (is_audio f = true <->
   exists stem ext, f = stem ++ ext ∧ stem ≠ "" ∧ Str.toLowerCase ext ∈ audioExtensions).
Proof.
  intros _. rewrite is_audio_extname. split.
  - intros He. unfold Path.extname in *.
    destruct (Str.last_dot_from 0 f) as [d|] eqn:Hd;
      [|by destruct (audio_extension_dot _ He) as (? & ? & ? & ?)].
    destruct ((d =? 0)%nat || String.eqb f "..") eqn:Hedge;
      [by destruct (audio_extension_dot _ He) as (? & ? & ? & ?)|].
    apply orb_false_iff in Hedge as [Hd0%Nat.eqb_neq _].
    apply last_dot_bounds in Hd as Hb.
    destruct (substring_split f d) as [Hsplit Hlen]; [lia|].
    eexists _, _. split_and!; [exact Hsplit| |exact He].
    intros Hempty. rewrite Hempty in Hlen. simpl in Hlen. lia.
  - intros (stem & ext & -> & Hstem & He).
    destruct (audio_extension_dot _ He) as (n & Hdot & -> & Hn).
    unfold Str.toLowerCase in Hn. rewrite length_map_chars in Hn.
    rewrite last_dot_lower in Hdot.
    unfold Path.extname. rewrite last_dot_app by eauto. rewrite Hdot. simpl.
    replace (String.length stem + 0) with (String.length stem) by lia.
    destruct (String.length stem =? 0)%nat eqn:Hz.
    { apply Nat.eqb_eq in Hz. by destruct stem. }
    destruct (String.eqb_spec (stem ++ ext) "..") as [Heq|_].
    { apply (f_equal String.length) in Heq. rewrite length_app_string in Heq.
      simpl in Heq. lia. }
    simpl. by rewrite substring_suffix.
Qed.

Lemma is_audio_by_suffix_witness :
  is_audio "a.MP3" = true
  ∧ exists stem ext,
      "a.MP3" = stem ++ ext ∧ stem ≠ "" ∧ Str.toLowerCase ext ∈ audioExtensions.
Proof.
  split; [reflexivity|].
  apply (is_audio_by_suffix "a.MP3"); reflexivity.
Defined.

Example hidden_extension_is_not_audio :
  is_audio ".mp3" = false ∧ is_audio "a.MP3" = true ∧ is_audio "song.mp3.txt" = false.
Proof. done. Qed.

(** ** Default titles *)

Lemma chars_app (a b : string) : Str.chars (a ++ b) = (Str.chars a ++ Str.chars b)%list.
Proof. induction a as [|c a IH]; [done|]. rewrite app_String. simpl. by f_equal. Qed.

Lemma of_chars_app (l k : list ascii) :
  Str.of_chars (l ++ k) = Str.of_chars l ++ Str.of_chars k.
Proof. induction l as [|c l IH]; [done|]. simpl. rewrite app_String. by f_equal. Qed.

Lemma chars_rev x : Str.chars (Str.rev x) = List.rev (Str.chars x).
Proof. unfold Str.rev, Str.chars, Str.of_chars. apply list_ascii_of_string_of_list_ascii. Qed.

Lemma rev_app_string (a b : string) : Str.rev (a ++ b) = Str.rev b ++ Str.rev a.
Proof. unfold Str.rev. by rewrite chars_app, rev_app_distr, of_chars_app. Qed.

Lemma prefix_app (a b : string) : String.prefix a (a ++ b) = true.
Proof.
  induction a as [|c a IH]; [by destruct b|]. rewrite app_String. simpl.
  by destruct (ascii_dec c c).
Qed.

Lemma extname_app stem ext :
  stem ≠ "" -> Str.toLowerCase ext ∈ audioExtensions -> Path.extname (stem ++ ext) = ext.
Proof.
  intros Hstem He.
  destruct (audio_extension_dot _ He) as (n & Hdot & -> & Hn).
  unfold Str.toLowerCase in Hn. rewrite length_map_chars in Hn.
  rewrite last_dot_lower in Hdot.
  unfold Path.extname. rewrite last_dot_app by eauto. rewrite Hdot. simpl.
  replace (String.length stem + 0) with (String.length stem) by lia.
  destruct (String.length stem =? 0)%nat eqn:Hz.
  { apply Nat.eqb_eq in Hz. by destruct stem. }
  destruct (String.eqb_spec (stem ++ ext) "..") as [Heq|_].
  { apply (f_equal String.length) in Heq. rewrite length_app_string in Heq.
    simpl in Heq. lia. }
  simpl. by rewrite substring_suffix.
Qed.

Lemma basename_app stem ext :
  stem ≠ "" -> ext ≠ "" -> Path.basename (stem ++ ext) ext = stem.
Proof.
  intros Hstem Hext. unfold Path.basename.
  destruct (String.length ext =? 0)%nat eqn:Hz.
  { apply Nat.eqb_eq in Hz. by destruct ext. }
  destruct (String.eqb_spec ext (stem ++ ext)) as [Heq|_].
  { apply (f_equal String.length) in Heq. rewrite length_app_string in Heq.
    destruct stem; [done|]. simpl in Heq. lia. }
  unfold Str.ends_with. rewrite rev_app_string, prefix_app.
  unfold Str.drop_end. rewrite length_app_string.
  replace (String.length stem + String.length ext - String.length ext)
    with (String.length stem) by lia.
  clear. induction stem as [|c stem IH]; [by destruct ext|].
  rewrite app_String. simpl. by rewrite IH.
Qed.

Lemma app_nil_r_string (x : string) : x ++ "" = x.
Proof. induction x as [|c x IH]; [done|]. by rewrite app_String, IH. Qed.

Lemma app_assoc_string (x y z : string) : (x ++ y) ++ z = x ++ (y ++ z).
Proof. induction x as [|c x IH]; [done|]. by rewrite !app_String, IH. Qed.

Lemma rev_rev_string (x : string) : Str.rev (Str.rev x) = x.
Proof.
  unfold Str.rev, Str.chars, Str.of_chars.
  by rewrite list_ascii_of_string_of_list_ascii, rev_involutive, string_of_list_ascii_of_string.
Qed.

Lemma length_of_chars l : String.length (Str.of_chars l) = length l.
Proof. induction l as [|c l IH]; simpl; [done|by rewrite IH]. Qed.

Lemma length_chars x : length (Str.chars x) = String.length x.
Proof. induction x as [|c x IH]; simpl; [done|by rewrite IH]. Qed.

Lemma length_rev_string x : String.length (Str.rev x) = String.length x.
Proof. unfold Str.rev. by rewrite length_of_chars, length_rev, length_chars. Qed.

Lemma white_length b w : Str.white b w = true -> 1 <= String.length w <= 3.
Proof.
  intros H.
  assert (Hl : 1 <= String.length (if b then Str.rev w else w) <= 3).
  { unfold Str.white in H. destruct (if b then Str.rev w else w) as [|a1 [|a2 [|a3 [|a4 r]]]];
      simpl in *; try done; lia. }
  destruct b; [|done]. by rewrite length_rev_string in Hl.
Qed.

Lemma white_run_app b x y : white_run b x -> white_run b y -> white_run b (x ++ y).
Proof.
  induction 1 as [|w r Hw Hr IH]; intros Hy; [done|].
  rewrite app_assoc_string. apply white_cons; auto.
Qed.

Lemma white_run_one b w : Str.white b w = true -> white_run b w.
Proof.
  intros Hw. rewrite <- (app_nil_r_string w). apply white_cons; [done|apply white_nil].
Qed.

Lemma white_run_rev p : white_run true p -> white_run false (Str.rev p).
Proof.
  induction 1 as [|w r Hw Hr IH]; [apply white_nil|].
  rewrite rev_app_string. apply white_run_app; [done|]. by apply white_run_one.
Qed.

(** What [strip] returns is a suffix of its argument, what it removes is
    white space, and it removes nothing from its own result. *)
Lemma strip_spec b : forall n s, String.length s <= n ->
  exists pre, white_run b pre ∧ s = pre ++ Str.strip b s
              ∧ Str.strip b (Str.strip b s) = Str.strip b s.
Proof.
  induction n as [|n IH]; intros s Hlen.
  { destruct s; [|simpl in Hlen; lia]. exists "". split_and!; [apply white_nil|done|done]. }
  destruct s as [|a1 r1]; [exists ""; split_and!; [apply white_nil|done|done]|].
  simpl in Hlen. cbn [Str.strip].
  destruct (Str.white b (String a1 "")) eqn:H1.
  { destruct (IH r1) as (pre & Hpre & Hr & Hid); [lia|].
    exists (String a1 "" ++ pre). split_and!; [by apply white_cons| |done].
    rewrite !app_String, app_empty. by rewrite <- Hr. }
  destruct r1 as [|a2 r2].
  { exists "". split_and!; [apply white_nil|done|]. cbn [Str.strip]. by rewrite H1. }
  simpl in Hlen.
  destruct (Str.white b (String a1 (String a2 ""))) eqn:H2.
  { destruct (IH r2) as (pre & Hpre & Hr & Hid); [lia|].
    exists (String a1 (String a2 "") ++ pre). split_and!; [by apply white_cons| |done].
    rewrite !app_String, app_empty. by rewrite <- Hr. }
  destruct r2 as [|a3 r3].
  { exists "". split_and!; [apply white_nil|done|]. cbn [Str.strip]. by rewrite H1, H2. }
  simpl in Hlen.
  destruct (Str.white b (String a1 (String a2 (String a3 "")))) eqn:H3.
  { destruct (IH r3) as (pre & Hpre & Hr & Hid); [lia|].
    exists (String a1 (String a2 (String a3 "")) ++ pre).
    split_and!; [by apply white_cons| |done].
    rewrite !app_String, app_empty. by rewrite <- Hr. }
  exists "". split_and!; [apply white_nil|done|]. cbn [Str.strip]. by rewrite H1, H2, H3.
Qed.

Lemma strip_shorter b s : String.length (Str.strip b s) <= String.length s.
Proof.
  destruct (strip_spec b _ s (le_n _)) as (pre & _ & Hs & _).
  rewrite Hs at 2. rewrite length_app_string. lia.
Qed.

Lemma strip_cons b a r :
  Str.strip b (String a r) =
  if Str.white b (String a "") then Str.strip b r
  else match r with
       | "" => String a r
       | String a2 r2 =>
           if Str.white b (String a (String a2 "")) then Str.strip b r2
           else match r2 with
                | "" => String a r
                | String a3 r3 =>
                    if Str.white b (String a (String a2 (String a3 ""))) then Str.strip b r3
                    else String a r
                end
       end.
Proof. reflexivity. Qed.

(** A string that [strip] leaves as it is does not begin with white
    space. *)
Lemma strip_fixed b t w r :
  Str.strip b t = t -> Str.white b w = true -> t ≠ w ++ r.
Proof.
  intros Hfix Hw ->. pose proof (white_length _ _ Hw) as Hl.
  assert (Hshort : forall x, String.length x < String.length (w ++ r) ->
            Str.strip b x ≠ w ++ r).
  { intros x Hx E. pose proof (strip_shorter b x) as Hs. rewrite E in Hs. lia. }
  destruct w as [|a1 [|a2 [|a3 [|a4 w]]]]; simpl in Hl; try lia;
    rewrite ?app_String, ?app_empty in *; revert Hfix; rewrite strip_cons; cbv beta iota.
  - rewrite Hw. apply Hshort. simpl. lia.
  - destruct (Str.white b (String a1 "")); [|rewrite Hw]; apply Hshort; simpl; lia.
  - destruct (Str.white b (String a1 ""));
      [|destruct (Str.white b (String a1 (String a2 ""))); [|rewrite Hw]];
      apply Hshort; simpl; lia.
Qed.

(** [trim] removes white space, and only white space, from both ends. *)
Lemma trim_spec x :
  (exists pre post, x = pre ++ Str.trim x ++ post
                    ∧ white_run false pre ∧ white_run false post)
  ∧ (forall w r, Str.is_white w = true -> Str.trim x ≠ w ++ r ∧ Str.trim x ≠ r ++ w).
Proof.
  unfold Str.trim, Str.trim_end, Str.trim_start.
  destruct (strip_spec false _ x (le_n _)) as (pre & Hpre & Hx & Hfix).
  set (y := Str.strip false x) in *.
  destruct (strip_spec true _ (Str.rev y) (le_n _)) as (p & Hp & Hy & Hfix').
  set (z := Str.strip true (Str.rev y)) in *.
  assert (Hyz : y = Str.rev z ++ Str.rev p).
  { rewrite <- (rev_rev_string y). rewrite Hy at 1. apply rev_app_string. }
  split.
  - exists pre, (Str.rev p). split_and!; [|done|by apply white_run_rev].
    rewrite <- Hyz. exact Hx.
  - intros w r Hw. split.
    + intros E. apply (strip_fixed false y w (r ++ Str.rev p) Hfix Hw).
      by rewrite Hyz, E, app_assoc_string.
    + intros E. apply (strip_fixed true z (Str.rev w) (Str.rev r) Hfix').
      * unfold Str.white. by rewrite rev_rev_string.
      * rewrite <- rev_app_string, <- E. by rewrite rev_rev_string.
Qed.

Lemma chars_replace_all x y z c :
  c ∈ Str.chars (Str.replace_all x y z) -> (c = y ∨ c ∈ Str.chars z) ∧ (x ≠ y -> c ≠ x).
Proof.
  unfold Str.replace_all. induction z as [|c0 z IH]; simpl; [by intros ?%elem_of_nil|].
  intros [->|Hc]%elem_of_cons.
  - destruct (Ascii.eqb_spec c0 x) as [->|Hne].
    + split; [by left|by intros ? ->].
    + split; [right; by left|by intros _].
  - destruct (IH Hc) as [[->|H1] H2]; (split; [|done]); [by left|right; by right].
Qed.

(** X14: the default title of an audio file is made from the name without
    its extension: for a stem followed by an audio extension it is the stem
    with "_" and "-" replaced by spaces, trimmed.  What the trim removes at
    either end is white space only (that of ECMAScript, U+00A0 and U+FEFF
    included); the title holds no "_" and no "-", and neither begins nor
    ends with a white-space character. *)
Theorem default_title_of_audio_file stem ext :
  stem ≠ "" -> Str.toLowerCase ext ∈ audioExtensions ->
  let bare := Str.replace_all "-" " " (Str.replace_all "_" " " stem) in
  let title := default_title (stem ++ ext) in
  title = Str.trim bare
  ∧ (exists pre post, bare = pre ++ title ++ post
                      ∧ white_run false pre ∧ white_run false post)
  ∧ (forall c, c ∈ Str.chars title -> c ≠ "_"%char ∧ c ≠ "-"%char)
  ∧ (forall w r, Str.is_white w = true -> title ≠ w ++ r ∧ title ≠ r ++ w).
Proof.
  intros Hstem He bare title.
  assert (Hext : ext ≠ "").
  { intros ->. destruct (audio_extension_dot _ He) as (? & ? & ? & ?). done. }
  assert (Htitle : title = Str.trim bare).
  { unfold title, default_title. by rewrite extname_app, basename_app. }
  destruct (trim_spec bare) as ((pre & post & Hbare & Hpre & Hpost) & Hends).
  rewrite <- Htitle in Hbare, Hends.
  split_and!; [done|by exists pre, post| |done].
  intros c Hc.
  assert (Hin : c ∈ Str.chars bare).
  { rewrite Hbare, !chars_app, !elem_of_app. right. by left. }
  apply chars_replace_all in Hin as [Hin Hdash].
  split; [|by apply Hdash].
  destruct Hin as [->|Hin]; [done|].
  apply chars_replace_all in Hin as [_ Hunder]. by apply Hunder.
Qed.

Lemma default_title_of_audio_file_witness :
  default_title ("01_my-song" ++ ".MP3") = "01 my song"
  ∧ default_title (String.append "t" (String (ascii_of_nat 194) (String (ascii_of_nat 160) ""))
                     ++ ".mp3") = "t".
Proof.
  split.
  - etrans; [apply (default_title_of_audio_file "01_my-song" ".MP3")|reflexivity].
    + discriminate.
    + vm_compute. apply list_elem_of_here.
  - vm_compute. reflexivity.
Defined.

(** * Further properties of the player *)

Lemma same_core_refl p : same_core p p.
Proof. by repeat split. Qed.

Lemma same_core_trans p1 p2 p3 : same_core p1 p2 -> same_core p2 p3 -> same_core p1 p3.
Proof. unfold same_core. intros (?&?&?&?&?&?) (?&?&?&?&?&?). split_and!; congruence. Qed.

Lemma same_core_playlist p p' :
  same_core p p' -> PlayerUI.getCurrentPlaylist p' = PlayerUI.getCurrentPlaylist p.
Proof. unfold PlayerUI.getCurrentPlaylist. intros (-> & -> & _). done. Qed.

Lemma setStatus_core msg p : PlayerUI.setStatus msg p = (Ok tt, (PlayerUI.setStatus msg p).2)
                             ∧ same_core p (PlayerUI.setStatus msg p).2.
Proof. split; [done|by repeat split]. Qed.

Lemma updateSideUI_core p : PlayerUI.updateSideUI p = (Ok tt, (PlayerUI.updateSideUI p).2)
                            ∧ same_core p (PlayerUI.updateSideUI p).2.
Proof. split; [done|by repeat split]. Qed.

Lemma updateTrackList_core p :
  same_core p (PlayerUI.updateTrackList p).2
  ∧ (PlayerUI.updateTrackList p).1
    = match PlayerUI.getCurrentPlaylist p with Some _ => Ok tt | None => Thrown end
  ∧ (PlayerUI.getCurrentPlaylist p = None -> (PlayerUI.updateTrackList p).2 = p).
Proof.
  unfold PlayerUI.updateTrackList, bind, PlayerUI.get, of_option, PlayerUI.modify.
  destruct (PlayerUI.getCurrentPlaylist p); simpl; split_and!; try done; by repeat split.
Qed.

Lemma saveSession_core B p :
  (PlayerUI.saveSession B p).1 = Ok tt ∧ same_core p (PlayerUI.saveSession B p).2
  ∧ PlayerUI.audioPlayer (PlayerUI.saveSession B p).2 = PlayerUI.audioPlayer p
  ∧ PlayerUI.page (PlayerUI.saveSession B p).2 = PlayerUI.page p.
Proof.
  unfold PlayerUI.saveSession, try_catch, bind, PlayerUI.get, of_option, PlayerUI.modify.
  destruct (PlayerUI.getCurrentPlaylist p); simpl; split_and!; try done; by repeat split.
Qed.

(** [loadTrack] leaves everything as it is when the index is not a
    position of the current playlist, and throws before any change when no
    playlist is loaded; otherwise it makes [index] the current index and
    changes no other variable of the playback state. *)
Lemma loadTrack_spec B index restoreTime p r p' :
  PlayerUI.loadTrack B index restoreTime p = (r, p') ->
  match PlayerUI.getCurrentPlaylist p with
  | None => r = Thrown ∧ p' = p
  | Some playlist =>
      if (index <? length playlist)%nat
      then r = Ok tt ∧ same_core (PlayerUI.set_currentTrackIndex index p) p'
      else r = Ok tt ∧ p' = p
  end.
Proof.
  unfold PlayerUI.loadTrack. unfold bind at 1 2. unfold PlayerUI.get, of_option.
  destruct (PlayerUI.getCurrentPlaylist p) as [playlist|] eqn:Hl; [|by intros [= <- <-]].
  unfold ret at 1.
  destruct (index <? length playlist)%nat eqn:Hi.
  - apply Nat.ltb_lt in Hi. destruct (lookup_lt_is_Some_2 playlist index Hi) as [track ->].
    unfold bind, PlayerUI.modify.
    destruct (restoreTime && num_lt (Fin 0) (PlayerUI.savedTimestamp p)); unfold ret;
      match goal with
      | |- context [PlayerUI.updateTrackList ?q] =>
          pose proof (updateTrackList_core q) as (Hc & Hr & _);
          assert (Hq : PlayerUI.getCurrentPlaylist q = Some playlist) by exact Hl;
          rewrite Hq in Hr;
          destruct (PlayerUI.updateTrackList q) as [r1 q1]; simpl in Hc, Hr; subst r1;
          pose proof (saveSession_core B q1) as (Hr2 & Hc2 & _);
          intros E; rewrite E in Hr2, Hc2; simpl in Hr2, Hc2;
          split; [exact Hr2|];
          eapply same_core_trans; [|exact Hc2];
          eapply same_core_trans; [|exact Hc]; by repeat split
      end.
  - apply Nat.ltb_ge in Hi. rewrite (lookup_ge_None_2 playlist index Hi).
    by intros [= <- <-].
Qed.

Lemma lift_bind {A B} (m : PlayerUI.UI A) (k : A -> Deck.DK B) d :
  bind (Deck.lift m) k d =
  match m (Deck.player d) with
  | (Ok a, p') => k a (Deck.mkDeck p' (Deck.effects d))
  | (Thrown, p') => (Thrown, Deck.mkDeck p' (Deck.effects d))
  end.
Proof.
  unfold bind, Deck.lift. by destruct (m (Deck.player d)) as [[a|] p'].
Qed.

Lemma deck_eta d : Deck.mkDeck (Deck.player d) (Deck.effects d) = d.
Proof. by destruct d. Qed.

(** Loading a track and resuming playback, as [previousTrack], [nextTrack]
    and [selectTrack] do. *)
Lemma load_and_play_spec B index d r d' :
  bind (Deck.lift (PlayerUI.loadTrack B index false)) (fun _ => Deck.playIfPlaying) d
    = (r, d') ->
  let p := Deck.player d in
  match PlayerUI.getCurrentPlaylist p with
  | None => r = Thrown ∧ d' = d
  | Some playlist =>
      r = Ok tt
      ∧ Deck.effects d' =
        (Deck.effects d ++ if PlayerUI.isPlaying p then [Deck.AudioPlay] else [])%list
      ∧ if (index <? length playlist)%nat
        then same_core (PlayerUI.set_currentTrackIndex index p) (Deck.player d')
        else Deck.player d' = p
  end.
Proof.
  rewrite lift_bind.
  destruct (PlayerUI.loadTrack B index false (Deck.player d)) as [r0 p'] eqn:E.
  apply loadTrack_spec in E. simpl.
  destruct (PlayerUI.getCurrentPlaylist (Deck.player d)) as [playlist|].
  - destruct (index <? length playlist)%nat.
    + destruct E as [-> Hcore].
      assert (Hplay : PlayerUI.isPlaying p' = PlayerUI.isPlaying (Deck.player d))
        by (by destruct Hcore as (_ & _ & _ & H & _)).
      unfold Deck.playIfPlaying, bind, Deck.getP, Deck.effect, ret. simpl. rewrite Hplay.
      destruct (PlayerUI.isPlaying (Deck.player d)); intros [= <- <-]; simpl;
        by rewrite ?app_nil_r.
    + destruct E as [-> ->].
      unfold Deck.playIfPlaying, bind, Deck.getP, Deck.effect, ret. simpl.
      destruct (PlayerUI.isPlaying (Deck.player d)); intros [= <- <-]; simpl;
        by rewrite ?app_nil_r.
  - destruct E as [-> ->]. rewrite deck_eta. by intros [= <- <-].
Qed.

(** ** Previous, next, select *)

(** X15: [previousTrack] never wraps: at index 0 it does nothing at all.
    Above 0 it moves to the index just below when that is a position of the
    current playlist (and calls [play] again if the deck is playing); the
    side, the playlists and the playing flag are never changed. *)
Theorem previous_track_never_wraps B d :
  let out := Deck.previousTrack B d in
  let p := Deck.player d in
  let p' := Deck.player out.2 in
  (PlayerUI.currentTrackIndex p = 0 -> out = (Ok tt, d))
  ∧ PlayerUI.currentSide p' = PlayerUI.currentSide p
  ∧ PlayerUI.playlists p' = PlayerUI.playlists p
  ∧ PlayerUI.isPlaying p' = PlayerUI.isPlaying p
  ∧ (PlayerUI.currentTrackIndex p' = PlayerUI.currentTrackIndex p
     ∨ PlayerUI.currentTrackIndex p' = PlayerUI.currentTrackIndex p - 1)
  ∧ (forall playlist,
       PlayerUI.getCurrentPlaylist p = Some playlist ->
       0 < PlayerUI.currentTrackIndex p <= length playlist ->
       PlayerUI.currentTrackIndex p' = PlayerUI.currentTrackIndex p - 1).
Proof.
  intros out p p'.
  assert (E : Deck.previousTrack B d = out) by reflexivity.
  clearbody out. destruct out as [r d']. subst p'. simpl. revert E.
  unfold Deck.previousTrack. unfold bind at 1. unfold Deck.getP.
  fold p. destruct (0 <? PlayerUI.currentTrackIndex p)%nat eqn:Hpos.
  - apply Nat.ltb_lt in Hpos. intros E. apply load_and_play_spec in E.
    fold p in E. simpl in E.
    split; [lia|].
    destruct (PlayerUI.getCurrentPlaylist p) as [playlist|] eqn:Hl.
    + destruct E as (-> & _ & E).
      destruct (PlayerUI.currentTrackIndex p - 1 <? length playlist)%nat eqn:Hin.
      * destruct E as (Hpl & Hside & Hidx & Hplay & _). simpl in Hpl, Hside, Hidx, Hplay.
        split_and!; [done|done|done|by right|done].
      * rewrite E. split_and!; [done|done|done|by left|].
        intros l [= <-] Hrange. apply Nat.ltb_ge in Hin. lia.
    + destruct E as [-> ->]. split_and!; [done|done|done|by left|done].
  - apply Nat.ltb_ge in Hpos. unfold ret. intros [= <- <-].
    split_and!; [done|done|done|done|by left|]. intros l _ ?. lia.
Qed.

Lemma previous_track_never_wraps_witness :
  let B := PlayerUI.mkBrowser (fun n => n) in
  let song i := mkTrack ("A-" ++ pretty i) "x" "Unknown Artist" "Unknown Album" "x.mp3"
                        "/musics/side a/x.mp3" None 42 (i + 1) in
  let p := PlayerUI.mkPlayer (PlayerUI.mkPlaylists (Some [song 0; song 1]) (Some []))
             (JStr "A") 1 true (JBool true) false false (Fin 75) (Fin 0)
             (PlayerUI.mkAudio None (Fin 12) (Fin (3 # 4)) 0)
             (PlayerUI.mkPage "" "" "" None true false []) [] in
  PlayerUI.currentTrackIndex (Deck.player (Deck.previousTrack B (Deck.mkDeck p [])).2) = 0.
Proof.
  intros B song p.
  destruct (previous_track_never_wraps B (Deck.mkDeck p [])) as (_ & _ & _ & _ & _ & H).
  apply (H [song 0; song 1]); [reflexivity|simpl; lia].
Defined.

(** ** Flipping the tape *)

Lemma lift_last {A} (m : PlayerUI.UI A) d :
  Deck.lift m d = ((m (Deck.player d)).1,
                   Deck.mkDeck (m (Deck.player d)).2 (Deck.effects d)).
Proof. unfold Deck.lift. by destruct (m (Deck.player d)). Qed.

Lemma same_core_index0 p q :
  PlayerUI.currentTrackIndex p = 0 ->
  same_core (PlayerUI.set_currentTrackIndex 0 p) q -> same_core p q.
Proof. unfold same_core. simpl. intros H (?&?&?&?&?&?). split_and!; congruence. Qed.

Lemma flipTape_spec B d r d' :
  Deck.flipTape B d = (r, d') ->
  let p := Deck.player d in
  let newSide := if PlayerUI.is_str (PlayerUI.currentSide p) "A" then "B" else "A" in
  same_core
    (PlayerUI.set_currentTrackIndex 0
       (PlayerUI.set_currentSide (JStr newSide)
          (PlayerUI.set_savedTimestamp (PlayerUI.audioTime (PlayerUI.audioPlayer p)) p)))
    (Deck.player d').
Proof.
  intros E p newSide. revert E.
  unfold Deck.flipTape. unfold bind at 1. unfold Deck.getP. fold p. fold newSide.
  rewrite !lift_bind. unfold PlayerUI.modify at 1. cbn [Deck.player Deck.effects].
  rewrite !lift_bind. unfold PlayerUI.modify at 1. cbn [Deck.player Deck.effects].
  rewrite !lift_bind. unfold PlayerUI.modify at 1. cbn [Deck.player Deck.effects].
  set (p0 := PlayerUI.set_currentTrackIndex 0 _).
  assert (Hi0 : PlayerUI.currentTrackIndex p0 = 0) by done.
  rewrite lift_bind. cbn [Deck.player Deck.effects].
  destruct (updateSideUI_core p0) as [E1 C1]. rewrite E1.
  set (q1 := (PlayerUI.updateSideUI p0).2) in *. clearbody q1.
  rewrite lift_bind. cbn [Deck.player Deck.effects].
  destruct (updateTrackList_core q1) as (C2 & R2 & _).
  destruct (PlayerUI.updateTrackList q1) as [r2 q2]. simpl in C2, R2.
  assert (Hq2 : same_core p0 q2) by eauto using same_core_trans.
  destruct r2 as [[]|]; [|by intros [= <- <-]].
  rewrite lift_bind. cbn [Deck.player Deck.effects].
  destruct (setStatus_core ("Flipped to Side " ++ newSide) q2) as [E3 C3].
  rewrite E3. set (q3 := (PlayerUI.setStatus _ q2).2) in *. clearbody q3.
  assert (Hq3 : same_core p0 q3) by eauto using same_core_trans.
  unfold bind at 1. unfold Deck.getP. cbn [Deck.player Deck.effects].
  unfold bind at 1. unfold of_option.
  destruct (PlayerUI.getCurrentPlaylist q3) as [playlist|] eqn:Hl; [|by intros [= <- <-]].
  unfold ret at 1. unfold bind at 1.
  destruct (0 <? length playlist)%nat eqn:Hlen.
  - rewrite lift_bind. cbn [Deck.player Deck.effects].
    destruct (PlayerUI.loadTrack B 0 true q3) as [r4 q4] eqn:E4.
    apply loadTrack_spec in E4. rewrite Hl, Hlen in E4. destruct E4 as [-> C4].
    assert (Hq4 : same_core p0 q4).
    { eapply same_core_trans; [exact Hq3|]. apply same_core_index0; [|done].
      destruct Hq3 as (_ & _ & -> & _). done. }
    unfold bind at 1. unfold Deck.getP. cbn [Deck.player Deck.effects].
    destruct (saveSession_core B q4) as (R5 & C5 & _).
    destruct (PlayerUI.isPlaying q4); unfold Deck.effect, ret; rewrite lift_last;
      intros [= <- <-]; cbn [Deck.player]; eauto using same_core_trans.
  - unfold ret at 1. rewrite lift_last.
    destruct (saveSession_core B q3) as (R5 & C5 & _).
    intros [= <- <-]. cbn [Deck.player]. eauto using same_core_trans.
Qed.

(** X16: [flipTape] always goes through, playing or not: the current side
    becomes "B" if it was "A" and "A" in every other case, the index becomes
    0 and the position of the audio element is kept in [savedTimestamp]; the
    playlists, the playing flag and the tape mode are unchanged.  From side
    "A" or "B", two flips lead back to the side. *)
Theorem flip_tape_goes_to_other_side B d :
  let p := Deck.player d in
  let p' := Deck.player (Deck.flipTape B d).2 in
  PlayerUI.currentSide p'
    = JStr (if PlayerUI.is_str (PlayerUI.currentSide p) "A" then "B" else "A")
  ∧ PlayerUI.currentTrackIndex p' = 0
  ∧ PlayerUI.savedTimestamp p' = PlayerUI.audioTime (PlayerUI.audioPlayer p)
  ∧ PlayerUI.playlists p' = PlayerUI.playlists p
  ∧ PlayerUI.isPlaying p' = PlayerUI.isPlaying p
  ∧ PlayerUI.tapeMode p' = PlayerUI.tapeMode p
  ∧ (PlayerUI.currentSide p = JStr "A" ∨ PlayerUI.currentSide p = JStr "B" ->
     PlayerUI.currentSide (Deck.player (Deck.flipTape B (Deck.flipTape B d).2).2)
     = PlayerUI.currentSide p).
Proof.
  intros p p'.
  subst p'.
  destruct (Deck.flipTape B d) as [r d1] eqn:E1. apply flipTape_spec in E1.
  cbn [snd].
  destruct (Deck.flipTape B d1) as [r2 d2] eqn:E2. apply flipTape_spec in E2.
  cbn [snd]. fold p in E1.
  destruct E1 as (Hpl & Hside & Hidx & Hplay & Htape & Hts).
  destruct E2 as (_ & Hside2 & _).
  cbn in Hpl, Hside, Hidx, Hplay, Htape, Hts, Hside2.
  split_and!; try done.
  intros [HA|HB]; rewrite Hside2, Hside.
  - by rewrite HA.
  - by rewrite HB.
Qed.

Lemma flip_tape_goes_to_other_side_witness :
  let B := PlayerUI.mkBrowser (fun n => n) in
  let p := PlayerUI.mkPlayer (PlayerUI.mkPlaylists (Some []) (Some []))
             (JStr "B") 0 true (JBool true) false false (Fin 75) (Fin 0)
             (PlayerUI.mkAudio None (Fin 12) (Fin (3 # 4)) 0)
             (PlayerUI.mkPage "" "" "" None true false []) [] in
  let d := Deck.mkDeck p [] in
  PlayerUI.currentSide (Deck.player (Deck.flipTape B (Deck.flipTape B d).2).2) = JStr "B".
Proof.
  intros B p d.
  destruct (flip_tape_goes_to_other_side B d) as (_ & _ & _ & _ & _ & _ & H).
  apply H. by right.
Defined.

(** X17: [nextTrack] advances by one inside the side (and calls [play]
    again if the deck is playing).  On the last track it does nothing at all
    when tape mode is off, and is exactly [flipTape] when tape mode is on;
    on an empty side, too, the index counts as last.  With no playlist
    loaded it throws before any change. *)
Theorem next_track_rule B d :
  let out := Deck.nextTrack B d in
  let p := Deck.player d in
  match PlayerUI.getCurrentPlaylist p with
  | None => out = (Thrown, d)
  | Some playlist =>
      if (PlayerUI.currentTrackIndex p + 1 <? length playlist)%nat
      then out.1 = Ok tt
           ∧ same_core (PlayerUI.set_currentTrackIndex (PlayerUI.currentTrackIndex p + 1) p)
                       (Deck.player out.2)
           ∧ Deck.effects out.2 =
             (Deck.effects d ++ if PlayerUI.isPlaying p then [Deck.AudioPlay] else [])%list
      else if truthy (PlayerUI.tapeMode p) then out = Deck.flipTape B d
      else out = (Ok tt, d)
  end.
Proof.
  intros out p.
  assert (E : Deck.nextTrack B d = out) by reflexivity.
  clearbody out. destruct out as [r d']. revert E.
  unfold Deck.nextTrack. unfold bind at 1. unfold Deck.getP. fold p.
  unfold bind at 1. unfold of_option.
  destruct (PlayerUI.getCurrentPlaylist p) as [playlist|] eqn:Hl; [|by intros [= <- <-]].
  unfold ret at 1.
  destruct (PlayerUI.currentTrackIndex p + 1 <? length playlist)%nat eqn:Hin.
  - assert (bind (Deck.lift (PlayerUI.loadTrack B (PlayerUI.currentTrackIndex p + 1) false))
                 (fun _ => Deck.playIfPlaying) d = (r, d') ->
            (r, d').1 = Ok tt
            ∧ same_core (PlayerUI.set_currentTrackIndex (PlayerUI.currentTrackIndex p + 1) p)
                        (Deck.player (r, d').2)
            ∧ Deck.effects (r, d').2 =
              (Deck.effects d ++ if PlayerUI.isPlaying p then [Deck.AudioPlay] else [])%list)
      as Hadv.
    { intros E%load_and_play_spec. fold p in E. simpl in E. rewrite Hl, Hin in E.
      by destruct E as (-> & ? & ?). }
    by destruct (truthy (PlayerUI.tapeMode p)).
  - destruct (truthy (PlayerUI.tapeMode p)); [by intros <-|]. by intros [= <- <-].
Qed.

(** ** The index stays inside the side *)

Lemma in_bounds_same p p' :
  PlayerUI.playlists p' = PlayerUI.playlists p ->
  PlayerUI.currentSide p' = PlayerUI.currentSide p ->
  PlayerUI.currentTrackIndex p' = PlayerUI.currentTrackIndex p ->
  Deck.in_bounds p -> Deck.in_bounds p'.
Proof.
  unfold Deck.in_bounds, PlayerUI.getCurrentPlaylist. by intros -> -> ->.
Qed.

Lemma in_bounds_core p p' : same_core p p' -> Deck.in_bounds p -> Deck.in_bounds p'.
Proof. intros (? & ? & ? & _). by apply in_bounds_same. Qed.

Lemma in_bounds_zero p : PlayerUI.currentTrackIndex p = 0 -> Deck.in_bounds p.
Proof. unfold Deck.in_bounds. intros ->. destruct (PlayerUI.getCurrentPlaylist p); auto. Qed.

Lemma in_bounds_load B index d r d' :
  bind (Deck.lift (PlayerUI.loadTrack B index false)) (fun _ => Deck.playIfPlaying) d
    = (r, d') ->
  Deck.in_bounds (Deck.player d) -> Deck.in_bounds (Deck.player d').
Proof.
  intros E%load_and_play_spec Hin. simpl in E.
  destruct (PlayerUI.getCurrentPlaylist (Deck.player d)) as [playlist|] eqn:Hl;
    [|by destruct E as [_ ->]].
  destruct E as (_ & _ & E).
  destruct (index <? length playlist)%nat eqn:Hi; [|by rewrite E].
  apply Nat.ltb_lt in Hi. destruct E as (Hpl & Hside & Hidx & _).
  simpl in Hpl, Hside, Hidx. unfold Deck.in_bounds, PlayerUI.getCurrentPlaylist in *.
  rewrite Hpl, Hside, Hidx, Hl. by right.
Qed.

Lemma togglePlay_spec B d r d' :
  Deck.togglePlay B d = (r, d') ->
  let p := Deck.player d in
  let p' := Deck.player d' in
  match PlayerUI.getCurrentPlaylist p with
  | None => r = Thrown ∧ d' = d
  | Some playlist =>
      r = Ok tt
      ∧ if (length playlist =? 0)%nat then d' = d
        else same_core (Deck.set_isPlaying (negb (PlayerUI.isPlaying p)) p) p'
             ∧ PlayerUI.audioPlayer p' = PlayerUI.audioPlayer p
             ∧ PlayerUI.page p' = PlayerUI.page p
             ∧ PlayerUI.sent p' = PlayerUI.sent
                 (PlayerUI.saveSession B (Deck.set_isPlaying (negb (PlayerUI.isPlaying p)) p)).2
             ∧ Deck.effects d' =
               (Deck.effects d ++
                (if PlayerUI.isPlaying p
                 then [Deck.AudioPause; Deck.PlayButton false; Deck.DiscSpin false;
                       Deck.Visualization false]
                 else [Deck.AudioPlay; Deck.PlayButton true; Deck.DiscSpin true;
                       Deck.Visualization true]))%list
  end.
Proof.
  intros E p p'. subst p'. revert E.
  unfold Deck.togglePlay. unfold bind at 1. unfold Deck.getP. fold p.
  unfold bind at 1. unfold of_option.
  destruct (PlayerUI.getCurrentPlaylist p) as [playlist|] eqn:Hl; [|by intros [= <- <-]].
  unfold ret at 1.
  destruct (length playlist =? 0)%nat; [by intros [= <- <-]|].
  unfold bind at 1.
  destruct (PlayerUI.isPlaying p) eqn:Hplay;
    unfold bind, Deck.effect, Deck.lift, PlayerUI.modify; cbn [Deck.player Deck.effects];
    match goal with
    | |- context [PlayerUI.saveSession B ?q] =>
        destruct (saveSession_core B q) as (R & C & Ha & Hp);
        destruct (PlayerUI.saveSession B q) as [r0 q0] eqn:Es; simpl in R, C, Ha, Hp; subst r0
    end;
    intros [= <- <-]; cbn [Deck.player Deck.effects];
    rewrite <- ?(assoc_L (++)%list); split_and!; try done;
    fold p in Es; unfold p in *; rewrite ?Hplay in *; try done;
    cbn [negb]; by rewrite Es.
Qed.

(** X18: the current index stays inside the current side: if it is 0 or
    a position of the current playlist, it still is after any control of the
    deck (play/pause, previous, next, a click on a track, a side switch, the
    tape-mode and track-list toggles) and after any event of the audio
    element (ended, error, canplay). *)
Theorem deck_index_stays_in_bounds B a d :
  Deck.in_bounds (Deck.player d) -> Deck.in_bounds (Deck.player (Deck.act B a d).2).
Proof.
  intros Hin.
  assert (Hnext : Deck.in_bounds (Deck.player (Deck.nextTrack B d).2)).
  { destruct (Deck.nextTrack B d) as [r d'] eqn:E. revert E.
    unfold Deck.nextTrack. unfold bind at 1. unfold Deck.getP.
    unfold bind at 1. unfold of_option.
    destruct (PlayerUI.getCurrentPlaylist (Deck.player d)) as [playlist|] eqn:Hl;
      [|by intros [= <- <-]].
    unfold ret at 1.
    destruct (truthy _); destruct (_ <? _)%nat.
    - intros E. by eapply in_bounds_load.
    - intros E%flipTape_spec. apply in_bounds_zero. exact (proj1 (proj2 (proj2 E))).
    - intros E. by eapply in_bounds_load.
    - by intros [= <- <-]. }
  destruct a; cbn [Deck.act].
  - destruct (Deck.togglePlay B d) as [r d'] eqn:E. apply togglePlay_spec in E.
    cbn [snd]. simpl in E.
    destruct (PlayerUI.getCurrentPlaylist (Deck.player d)) as [playlist|] eqn:Hl;
      [|by destruct E as [_ ->]].
    destruct E as [_ E]. destruct (length playlist =? 0)%nat; [by rewrite E|].
    destruct E as ((Hpl & Hside & Hidx & _) & _). by eapply in_bounds_same.
  - unfold Deck.previousTrack. unfold bind at 1. unfold Deck.getP.
    destruct (0 <? _)%nat; [|done].
    destruct (bind _ _ d) as [r d'] eqn:E. by eapply in_bounds_load.
  - exact Hnext.
  - unfold Deck.selectTrack. destruct (bind _ _ d) as [r d'] eqn:E.
    by eapply in_bounds_load.
  - rewrite lift_last. cbn [snd Deck.player].
    destruct (truthy (PlayerUI.tapeMode (Deck.player d)) && PlayerUI.isPlaying (Deck.player d))
      eqn:Hblock.
    + rewrite (switchSide_blocked _ _ _ Hblock). by eapply in_bounds_same.
    + destruct (PlayerUI.switchSide B side (Deck.player d)) as [r q] eqn:E.
      apply in_bounds_zero. by destruct (switchSide_unblocked _ _ _ _ _ Hblock E).
  - by eapply in_bounds_same.
  - by eapply in_bounds_same.
  - exact Hnext.
  - by eapply in_bounds_same.
  - unfold Deck.onCanPlay, Deck.playIfPlaying, bind, Deck.getP, Deck.effect, ret.
    by destruct (PlayerUI.isPlaying _).
Qed.

Lemma deck_index_stays_in_bounds_witness :
  let B := PlayerUI.mkBrowser (fun n => n) in
  let song := mkTrack "A-0" "x" "Unknown Artist" "Unknown Album" "x.mp3"
                      "/musics/side a/x.mp3" None 42 1 in
  let p := PlayerUI.mkPlayer (PlayerUI.mkPlaylists (Some [song]) (Some []))
             (JStr "A") 0 true (JBool true) false false (Fin 75) (Fin 0)
             (PlayerUI.mkAudio None (Fin 12) (Fin (3 # 4)) 0)
             (PlayerUI.mkPage "" "" "" None true false []) [] in
  Deck.in_bounds (Deck.player (Deck.act B Deck.Next (Deck.mkDeck p [])).2).
Proof.
  intros B song p.
  apply (deck_index_stays_in_bounds B Deck.Next (Deck.mkDeck p [])).
  left. reflexivity.
Defined.

(** ** Play and pause *)

(** X19: [togglePlay] does nothing on an empty side, and throws before
    any change when no playlist is loaded.  Otherwise it negates the playing
    flag, calls [pause] or [play] on the audio element, and posts exactly one
    session body, which already carries the new flag; side, index, playlists
    and tape mode are unchanged, so a second toggle restores the flag. *)
Theorem toggle_play_flips_and_saves B d :
  let out := Deck.togglePlay B d in
  let p := Deck.player d in
  let p' := Deck.player out.2 in
  match PlayerUI.getCurrentPlaylist p with
  | None => out = (Thrown, d)
  | Some [] => out = (Ok tt, d)
  | Some playlist =>
      out.1 = Ok tt
      ∧ PlayerUI.isPlaying p' = negb (PlayerUI.isPlaying p)
      ∧ PlayerUI.playlists p' = PlayerUI.playlists p
      ∧ PlayerUI.currentSide p' = PlayerUI.currentSide p
      ∧ PlayerUI.currentTrackIndex p' = PlayerUI.currentTrackIndex p
      ∧ PlayerUI.tapeMode p' = PlayerUI.tapeMode p
      ∧ PlayerUI.sent p' =
        (PlayerUI.sent p ++
         [JObj [("currentSide", PlayerUI.currentSide p);
                ("currentTrackId",
                 match playlist !! PlayerUI.currentTrackIndex p with
                 | Some t => JStr (id t) | None => JUndefined end);
                ("currentTime",
                 JNum (PlayerUI.math_floor (PlayerUI.audioTime (PlayerUI.audioPlayer p))));
                ("volume",
                 JNum (PlayerUI.math_round
                         (PlayerUI.times100 B (PlayerUI.audioVolume (PlayerUI.audioPlayer p)))));
                ("tapeMode", PlayerUI.tapeMode p);
                ("isPlaying", JBool (negb (PlayerUI.isPlaying p)))]])%list
      ∧ (exists call, (call = Deck.AudioPlay ∨ call = Deck.AudioPause)
           ∧ (call = Deck.AudioPause <-> PlayerUI.isPlaying p = true)
           ∧ exists rest, Deck.effects out.2 = (Deck.effects d ++ call :: rest)%list)
      ∧ PlayerUI.isPlaying (Deck.player (Deck.togglePlay B out.2).2) = PlayerUI.isPlaying p
  end.
Proof.
  intros out p p'.
  assert (E : Deck.togglePlay B d = out) by reflexivity.
  clearbody out. destruct out as [r d']. subst p'. cbn [fst snd].
  pose proof (togglePlay_spec _ _ _ _ E) as H. simpl in H. fold p in H.
  destruct (PlayerUI.getCurrentPlaylist p) as [playlist|] eqn:Hl;
    [|by destruct H as [-> ->]].
  destruct H as [-> H]. destruct playlist as [|t0 playlist]; [by rewrite H|].
  cbn [length Nat.eqb] in H.
  destruct H as ((Hpl & Hside & Hidx & Hplay & Htape & _) & _ & _ & Hsent & Heff).
  cbn in Hpl, Hside, Hidx, Hplay, Htape.
  split_and!; try done.
  - rewrite Hsent. unfold PlayerUI.saveSession, try_catch, bind, PlayerUI.get, of_option,
      PlayerUI.modify.
    assert (Hl' : PlayerUI.getCurrentPlaylist
                    (Deck.set_isPlaying (negb (PlayerUI.isPlaying p)) p)
                  = Some (t0 :: playlist)) by exact Hl.
    rewrite Hl'. done.
  - destruct (PlayerUI.isPlaying p) eqn:Hp.
    + exists Deck.AudioPause. split_and!; [by right|done|by eexists].
    + exists Deck.AudioPlay. split_and!; [by left|done|by eexists].
  - destruct (Deck.togglePlay B d') as [r2 d2] eqn:E2.
    pose proof (togglePlay_spec _ _ _ _ E2) as H2. simpl in H2.
    assert (Hl2 : PlayerUI.getCurrentPlaylist (Deck.player d') = Some (t0 :: playlist)).
    { unfold PlayerUI.getCurrentPlaylist in *. by rewrite Hpl, Hside. }
    rewrite Hl2 in H2. cbn [length Nat.eqb] in H2.
    destruct H2 as (_ & (_ & _ & _ & Hplay2 & _) & _). cbn in Hplay2. cbn [snd].
    rewrite Hplay2, Hplay. apply negb_involutive.
Qed.

(** ** Tape mode, on both ends *)

(** X20: [toggleTapeMode] replaces the tape mode by the boolean opposite
    of its truthiness and sends that boolean to PUT /api/session/tape-mode;
    once the server has handled the request, its session holds the same
    value as the player.  Nothing else of the playback state changes. *)
Theorem toggle_tape_mode_agrees_with_server W s d :
  let out := Deck.toggleTapeMode d in
  let p := Deck.player d in
  let p' := Deck.player out.2 in
  let enabled := JBool (negb (truthy (PlayerUI.tapeMode p))) in
  out.1 = Ok tt
  ∧ PlayerUI.tapeMode p' = enabled
  ∧ truthy (PlayerUI.tapeMode p') = negb (truthy (PlayerUI.tapeMode p))
  ∧ PlayerUI.playlists p' = PlayerUI.playlists p
  ∧ PlayerUI.currentSide p' = PlayerUI.currentSide p
  ∧ PlayerUI.currentTrackIndex p' = PlayerUI.currentTrackIndex p
  ∧ PlayerUI.isPlaying p' = PlayerUI.isPlaying p
  ∧ PlayerUI.sent p' = PlayerUI.sent p
  ∧ Deck.effects out.2 =
    (Deck.effects d ++ [Deck.TapeModeView (negb (truthy (PlayerUI.tapeMode p)));
                        Deck.PutTapeModeRequest enabled])%list
  ∧ tapeMode (userSession (handle W (PutTapeMode {["enabled" := enabled]}) s).2)
    = PlayerUI.tapeMode p'.
Proof.
  simpl. split_and!; try done.
  all: first [ by rewrite <- (assoc_L (++)%list)
             | unfold prop; by rewrite lookup_singleton_eq ].
Qed.

(** ** Refresh *)

Lemma scanFile_listed_keys W (P : string -> Prop) folder side index file s r s' :
  (is_Some (parseFile W (Path.join folder file)) -> P (Path.join folder file)) ->
  (forall k, is_Some (metadataCache s !! k) -> P k) ->
  scanFile W folder side index file s = (r, s') ->
  forall k, is_Some (metadataCache s' !! k) -> P k.
Proof.
  intros Hkey HI E k Hk.
  destruct (scanFile_spec _ _ _ _ _ _ _ _ E) as (_ & Hother & _).
  destruct (decide (k = Path.join folder file)) as [->|Hne].
  - destruct (parseFile W (Path.join folder file)) as [tags|] eqn:Hp; [by apply Hkey|].
    apply HI. by rewrite <- (scanFile_unparsable _ _ _ _ _ _ _ _ _ E Hp).
  - apply HI. by rewrite <- (Hother k Hne).
Qed.

(** X21: POST /api/refresh never lets an exception out and never changes
    the session.  It answers 200 with the two counts of audio entries (as
    numbers) when both folders are scannable and 500 otherwise; either way
    the cache it leaves holds only files that a side lists now as audio
    entries and that the tag parser can read, so entries of files that were
    removed or renamed are gone. *)
Theorem refresh_keeps_only_listed_files W s :
  let out := handle W PostRefresh s in
  userSession out.2 = userSession s
  ∧ out.1 =
    (if scannable W (sideAFolder W) && scannable W (sideBFolder W)
     then Responded 200
            (JObj [("success", JBool true); ("message", JStr "Playlists refreshed");
                   ("sideA", JNum (num_of_nat (audioCount W (sideAFolder W))));
                   ("sideB", JNum (num_of_nat (audioCount W (sideBFolder W))))])
     else Responded 500 (error_json "Failed to refresh playlists"))
  ∧ forall k, is_Some (metadataCache out.2 !! k) ->
      exists folder f,
        (folder = sideAFolder W ∨ folder = sideBFolder W)
        ∧ f ∈ listing W folder ∧ is_audio f = true
        ∧ k = Path.join folder f ∧ is_Some (parseFile W k).
Proof.
  intros out.
  set (s0 := {| userSession := userSession s; metadataCache := ∅; trace := trace s |}).
  set (P := fun k => exists folder f,
              (folder = sideAFolder W ∨ folder = sideBFolder W)
              ∧ f ∈ listing W folder ∧ is_audio f = true
              ∧ k = Path.join folder f ∧ is_Some (parseFile W k)).
  set (I := fun q : ServerState => forall k, is_Some (metadataCache q !! k) -> P k).
  assert (HI0 : I s0).
  { intros k [e He]. cbn in He. by rewrite lookup_empty in He. }
  assert (Hstep : forall folder side, folder = sideAFolder W ∨ folder = sideBFolder W ->
            forall f index q r q', f ∈ listing W folder -> is_audio f = true -> I q ->
              scanFile W folder side index f q = (r, q') -> I q').
  { intros folder side Hfolder f index q r q' Hf Ha HI E.
    unfold I. eapply (scanFile_listed_keys W P); [|exact HI|exact E].
    intros Hp. by exists folder, f. }
  assert (Hscan : forall r s', loadMusicFiles W s0 = (r, s') -> I s').
  { intros r s' E%loadMusicFiles_cases. destruct r as [[sideA sideB]|].
    - destruct E as (s1 & EA & EB).
      destruct (getSongs_rounds I _ _ _ _ _ _ (Hstep _ "A" (or_introl eq_refl)) HI0 EA)
        as [HI1 _].
      by destruct (getSongs_rounds I _ _ _ _ _ _ (Hstep _ "B" (or_intror eq_refl)) HI1 EB).
    - destruct E as [EA|(sideA & s1 & EA & EB)].
      + by destruct (getSongs_rounds I _ _ _ _ _ _ (Hstep _ "A" (or_introl eq_refl)) HI0 EA).
      + destruct (getSongs_rounds I _ _ _ _ _ _ (Hstep _ "A" (or_introl eq_refl)) HI0 EA)
          as [HI1 _].
        by destruct (getSongs_rounds I _ _ _ _ _ _ (Hstep _ "B" (or_intror eq_refl)) HI1 EB). }
  assert (E : handle W PostRefresh s = out) by reflexivity. clearbody out.
  revert E. unfold handle, serve, route, postRefresh, try_catch, bind, setCache, emit, ret.
  fold s0.
  pose proof (loadMusicFiles_outcome W s0) as Hout.
  pose proof (scan_keeps_session W s0) as Hsess.
  destruct (loadMusicFiles W s0) as [r s'] eqn:El. specialize (Hscan _ _ eq_refl).
  cbn [snd] in Hsess.
  destruct (scannable W (sideAFolder W) && scannable W (sideBFolder W)).
  - destruct Hout as (sideA & sideB & s2 & [= -> ->] & HA & HB). intros <-. cbn [fst snd].
    split_and!; [done| |exact Hscan].
    unfold audioCount. by rewrite <- HA, <- HB, !length_map.
  - destruct Hout as (s2 & [= -> ->]). intros <-. cbn [fst snd].
    split_and!; [done|done|exact Hscan].
Qed.

(** ** The session, from the player to the server *)

Lemma json_copy_defined v : is_defined (json_copy v) = is_defined v.
Proof. destruct v as [| | |[]| | |]; reflexivity. Qed.

Lemma posted_step (body : gmap string JsVal) k x rest :
  fold_left (fun body kv =>
               match json_copy kv.2 with
               | JUndefined => delete kv.1 body
               | y => <[kv.1 := y]> body
               end) ((k, x) :: rest) body
  = fold_left (fun body kv =>
               match json_copy kv.2 with
               | JUndefined => delete kv.1 body
               | y => <[kv.1 := y]> body
               end) rest
      (if is_defined (json_copy x) then <[k := json_copy x]> body else delete k body).
Proof. cbn [fold_left fst snd]. by destruct (json_copy x). Qed.

Lemma prop_step (body : gmap string JsVal) k x k' :
  prop (if is_defined (json_copy x) then <[k := json_copy x]> body else delete k body) k'
  = if String.eqb k k' then json_copy x else prop body k'.
Proof.
  unfold prop. destruct (String.eqb_spec k k') as [->|Hne].
  - destruct (json_copy x) eqn:E; cbn [is_defined];
      by rewrite ?lookup_insert_eq, ?lookup_delete_eq.
  - destruct (is_defined (json_copy x));
      by rewrite ?lookup_insert_ne, ?lookup_delete_ne by done.
Qed.

(** X22: what [saveSession] posts is what the server stores.  With a
    playlist loaded, the script sends one body and, once POST /api/session
    has handled it, the session holds the player's playing flag, its time
    rounded down, its volume in percent, and its side and tape mode as they
    arrive as JSON (a side that arrives falsy and an undefined tape mode
    leave the stored ones).  When the current index is not a position of the
    playlist the track id is undefined, does not arrive, and the server
    keeps the id it had.  Without a playlist nothing is sent. *)
Theorem saved_session_reaches_server W B p s :
  match PlayerUI.getCurrentPlaylist p with
  | None => PlayerUI.saveSession B p = (Ok tt, p)
  | Some playlist =>
      exists props,
        PlayerUI.saveSession B p = (Ok tt, PlayerUI.push_sent (JObj props) p)
        ∧ let out := handle W (PostSession (posted_props props)) s in
          let u := userSession s in
          let u' := userSession out.2 in
          currentSide u' =
            (if truthy (json_copy (PlayerUI.currentSide p))
             then json_copy (PlayerUI.currentSide p)
             else currentSide u)
          ∧ currentTrackId u' =
            match playlist !! PlayerUI.currentTrackIndex p with
            | Some t => JStr (id t)
            | None => currentTrackId u
            end
          ∧ currentTime u' =
            json_copy (JNum (PlayerUI.math_floor (PlayerUI.audioTime (PlayerUI.audioPlayer p))))
          ∧ volume u' =
            json_copy (JNum (PlayerUI.math_round
                               (PlayerUI.times100 B
                                  (PlayerUI.audioVolume (PlayerUI.audioPlayer p)))))
          ∧ tapeMode u' =
            (if is_defined (PlayerUI.tapeMode p) then json_copy (PlayerUI.tapeMode p)
             else tapeMode u)
          ∧ isPlaying u' = JBool (PlayerUI.isPlaying p)
  end.
Proof.
  unfold PlayerUI.saveSession, try_catch, bind, PlayerUI.get, of_option, PlayerUI.modify.
  destruct (PlayerUI.getCurrentPlaylist p) as [playlist|]; [|done].
  eexists. split; [reflexivity|].
  rewrite postSession_eq. cbn [snd userSession setSession mergeSession currentSide
    currentTrackId currentTime volume tapeMode isPlaying].
  unfold posted_props. rewrite !posted_step. cbn [fold_left].
  rewrite !prop_step. cbn [String.eqb Ascii.eqb Bool.eqb andb].
  rewrite !json_copy_defined.
  split_and!.
  - done.
  - by destruct (playlist !! PlayerUI.currentTrackIndex p).
  - by destruct (PlayerUI.math_floor _).
  - by destruct (PlayerUI.math_round _).
  - done.
  - done.
Qed.

(** ** The playlists, from the server to the player *)

Lemma track_of_json_track t : Fetch.track_of_json (track_json t) = Some t.
Proof.
  destruct t as [i ti ar al f u c sz n]. unfold track_json, Fetch.track_of_json.
  cbn. rewrite Nat2Z.id. by destruct c.
Qed.

Lemma tracks_of_json_tracks ts : Fetch.tracks_of_json (tracks_json ts) = Some ts.
Proof.
  unfold tracks_json, Fetch.tracks_of_json. apply mapM_Some.
  induction ts as [|t ts IH]; constructor; [apply track_of_json_track|exact IH].
Qed.

Lemma playlists_of_reply a b :
  Fetch.playlists_of_json (JObj [("sideA", tracks_json a); ("sideB", tracks_json b)])
  = PlayerUI.mkPlaylists (Some a) (Some b).
Proof.
  unfold Fetch.playlists_of_json, Fetch.field. cbn [List.find fst snd String.eqb Ascii.eqb Bool.eqb].
  by rewrite !tracks_of_json_tracks.
Qed.

Lemma getPlaylists_reply W s :
  (handle W GetPlaylists s).1 =
  match (loadMusicFiles W s).1 with
  | Ok (a, b) => Responded 200 (JObj [("sideA", tracks_json a); ("sideB", tracks_json b)])
  | Thrown => Responded 500 (error_json "Failed to load playlists")
  end.
Proof.
  unfold handle, serve, route, getPlaylists, try_catch, bind, ret, emit.
  by destruct (loadMusicFiles W s) as [[[a b]|] s'].
Qed.

(** X23: [loadPlaylists] never throws and keeps the current side.  After
    a 200 answer of GET /api/playlists the player holds the two scanned lists
    and shows their total (or that there are none); when the current side has
    a track, its first track becomes the current one, the audio element
    points to that track's url, and one session body with that track's id is
    posted.  After a 500 answer the player's playlists have no sides, so no
    playlist is current any more; the status then says that the server
    cannot be reached, and nothing is posted. *)
Theorem loaded_playlists_follow_scan W s B p :
  let out := handle W GetPlaylists s in
  let loaded := Fetch.loadPlaylists B (Fetch.body_of out.1) p in
  let q := loaded.2 in
  loaded.1 = Ok tt
  ∧ PlayerUI.currentSide q = PlayerUI.currentSide p
  ∧ match (loadMusicFiles W s).1 with
    | Thrown =>
        PlayerUI.playlists q = PlayerUI.mkPlaylists None None
        ∧ PlayerUI.getCurrentPlaylist q = None
        ∧ PlayerUI.statusBar (PlayerUI.page q) = "Error: Cannot connect to server"
        ∧ PlayerUI.currentTrackIndex q = PlayerUI.currentTrackIndex p
        ∧ PlayerUI.audioPlayer q = PlayerUI.audioPlayer p
        ∧ PlayerUI.sent q = PlayerUI.sent p
    | Ok (a, b) =>
        PlayerUI.playlists q = PlayerUI.mkPlaylists (Some a) (Some b)
        ∧ PlayerUI.statusBar (PlayerUI.page q) =
          (if (length a + length b =? 0)%nat then "No tracks found"
           else "Loaded " ++ pretty (length a + length b) ++ " tracks")
        ∧ match (if PlayerUI.is_str (PlayerUI.currentSide p) "A" then a else b) with
          | [] =>
              PlayerUI.currentTrackIndex q = PlayerUI.currentTrackIndex p
              ∧ PlayerUI.audioPlayer q = PlayerUI.audioPlayer p
              ∧ PlayerUI.sent q = PlayerUI.sent p
          | t :: _ =>
              PlayerUI.currentTrackIndex q = 0
              ∧ PlayerUI.src (PlayerUI.audioPlayer q) = Some (PlayerUI.API_URL ++ url t)
              ∧ exists props,
                  PlayerUI.sent q = (PlayerUI.sent p ++ [JObj props])%list
                  ∧ Fetch.field props "currentTrackId" = JStr (id t)
                  ∧ Fetch.field props "isPlaying" = JBool (PlayerUI.isPlaying p)
          end
    end.
Proof.
  intros out loaded q. subst q loaded out. rewrite getPlaylists_reply.
  destruct (loadMusicFiles W s).1 as [[a b]|]; cbn [Fetch.body_of].
  - unfold Fetch.loadPlaylists, PlayerUI.loadTrack, PlayerUI.updateTrackList,
      PlayerUI.saveSession, PlayerUI.setStatus, PlayerUI.getCurrentPlaylist,
      try_catch, bind, of_option, ret, throw, PlayerUI.modify, PlayerUI.get.
    cbv beta iota zeta. rewrite playlists_of_reply.
    destruct (PlayerUI.is_str (PlayerUI.currentSide p) "A") eqn:Hs;
      destruct a as [|ta a]; destruct b as [|tb b];
      repeat (cbn -[pretty String.append]; rewrite ?Hs).
    all: split_and!; try done.
    all: eexists; split_and!; reflexivity.
  - unfold Fetch.loadPlaylists, PlayerUI.setStatus, PlayerUI.getCurrentPlaylist,
      try_catch, bind, of_option, ret, throw, PlayerUI.modify, PlayerUI.get.
    cbn -[pretty String.append]. split_and!; try done.
    by destruct (PlayerUI.is_str _ _).
Qed.
